(** * Pixel-ART-FX: the effect-processing engine

    A shallow embedding of the pixel transforms of [constants.ts] (both
    revisions of the effect catalogue) and the properties the specification
    states about them.

    JavaScript numbers are modelled through the interface [Number], with two
    instances:
    - [binary64]: IEEE-754 double precision on Rocq's primitive floats, the
      arithmetic the engine really runs;
    - [exact]: canonical rationals [Qc], the arithmetic the specification
      reasons in.
    The effects are written once, over the interface.  Properties that only
    depend on the control flow and the index arithmetic are proved for every
    instance; properties that depend on the laws of arithmetic are proved on
    [exact]; concrete scenarios are evaluated on [binary64].

    Loop counters, coordinates and array indices are natural numbers; a
    [Uint8ClampedArray] is a [list Z] of bytes and a [Float32Array] a list of
    numbers, both read with [!!] and written with [<[_:=_]>] (a write out of
    range does nothing, as for a typed array). *)

From Stdlib Require Import ZArith QArith Qcanon Qround Floats Lia Lqa.
From stdpp Require Import base list.

Set Warnings "-inexact-float".

(* ===================================================================== *)
(** * Numbers *)
(* ===================================================================== *)

(** The result of [Math.floor] and [Math.round]: an integer, an infinity, or
    [NaN]. *)
Inductive jsint : Type :=
  | JInt (z : Z)
  | JPosInf
  | JNegInf
  | JNaN.

(** What the engine asks of its numbers. *)
Class Number (num : Type) : Type := {
  of_Z : Z → num;
  (** the value arithmetic sees when it reads [undefined] *)
  nan : num;
  nadd : num → num → num;
  nsub : num → num → num;
  nmul : num → num → num;
  ndiv : num → num → num;
  (** [a < b] *)
  nlt : num → num → bool;
  (** [a === b] *)
  neq : num → num → bool;
  (** [a < Infinity] *)
  lt_infinity : num → bool;
  (** [Math.min(a, b)] *)
  nmin : num → num → num;
  (** [Math.floor] *)
  floor : num → jsint;
  (** [Math.round] *)
  round : num → jsint;
  (** the conversion applied by a store into a [Uint8ClampedArray] *)
  to_uint8_clamped : num → Z;
  (** the conversion applied by a store into a [Float32Array] *)
  fround : num → num;
}.

Declare Scope js_scope.
Delimit Scope js_scope with js.
Infix "+" := nadd : js_scope.
Infix "-" := nsub : js_scope.
Infix "*" := nmul : js_scope.
Infix "/" := ndiv : js_scope.
Infix "<?" := nlt : js_scope.
Infix "=?" := neq : js_scope.

(** [a > b] is [b < a]. *)
Definition ngt {num} `{Number num} (a b : num) : bool := nlt b a.
Infix ">?" := ngt : js_scope.

(** A decimal literal [m / 10^k], such as [0.2126] or [127.5]. *)
Definition decimal {num} `{Number num} (m : Z) (k : nat) : num :=
  ndiv (of_Z m) (of_Z (10 ^ Z.of_nat k)).

Definition clamp_uint8 (z : Z) : Z := Z.max 0 (Z.min 255 z).

(** ** Exact rational arithmetic *)

Module Exact.

Definition of_Z (z : Z) : Qc := Q2Qc (inject_Z z).

Definition ltb (a b : Qc) : bool :=
  match (a ?= b)%Qc with Lt => true | _ => false end.

Definition eqb (a b : Qc) : bool :=
  match (a ?= b)%Qc with Eq => true | _ => false end.

Definition min (a b : Qc) : Qc := if ltb b a then b else a.

Definition floor (a : Qc) : jsint := JInt (Qfloor a).

(** [Math.round]: the nearest integer, a tie going up. *)
Definition round (a : Qc) : jsint := JInt (Qfloor (a + (1 # 2))%Q).

(** Round to nearest, a tie going to the even neighbour. *)
Definition round_half_even (q : Q) : Z :=
  let f := Qfloor q in
  match (q - inject_Z f ?= 1 # 2)%Q with
  | Lt => f
  | Gt => (f + 1)%Z
  | Eq => if Z.even f then f else (f + 1)%Z
  end.

Definition to_uint8_clamped (a : Qc) : Z := clamp_uint8 (round_half_even a).

End Exact.

#[export] Instance exact : Number Qc := {|
  of_Z := Exact.of_Z;
  nan := Exact.of_Z 0;
  nadd := Qcplus;
  nsub := Qcminus;
  nmul := Qcmult;
  ndiv := Qcdiv;
  nlt := Exact.ltb;
  neq := Exact.eqb;
  lt_infinity := fun _ => true;
  nmin := Exact.min;
  floor := Exact.floor;
  round := Exact.round;
  to_uint8_clamped := Exact.to_uint8_clamped;
  fround := fun a => a;
|}.

(** ** IEEE-754 binary64 *)

Module Binary64.

(** The value of a finite float as a signed mantissa and an exponent. *)
Definition signed (s : bool) (m : positive) : Z := cond_Zopp s (Zpos m).

Definition of_Z (z : Z) : float := SF2Prim (binary_normalize prec emax z 0 false).

Definition SFfloor (x : spec_float) : jsint :=
  match x with
  | S754_zero _ => JInt 0
  | S754_infinity false => JPosInf
  | S754_infinity true => JNegInf
  | S754_nan => JNaN
  | S754_finite s m e => JInt (Z.shiftl (signed s m) e)
  end.

Definition SFround (x : spec_float) : jsint :=
  match x with
  | S754_zero _ => JInt 0
  | S754_infinity false => JPosInf
  | S754_infinity true => JNegInf
  | S754_nan => JNaN
  | S754_finite s m e =>
      if (0 <=? e)%Z then JInt (Z.shiftl (signed s m) e)
      else JInt (Z.shiftr (signed s m + 2 ^ (- e - 1)) (- e))
  end.

Definition SFround_half_even (x : spec_float) : Z :=
  match x with
  | S754_zero _ | S754_nan => 0
  | S754_infinity false => 256
  | S754_infinity true => -1
  | S754_finite s m e =>
      if (0 <=? e)%Z then Z.shiftl (signed s m) e
      else
        let k := (- e)%Z in
        let q := Z.shiftr (signed s m) k in
        let r := (signed s m - Z.shiftl q k)%Z in
        match (2 * r ?= 2 ^ k)%Z with
        | Lt => q
        | Gt => (q + 1)%Z
        | Eq => if Z.even q then q else (q + 1)%Z
        end
  end.

Definition floor (x : float) : jsint := SFfloor (Prim2SF x).
Definition round (x : float) : jsint := SFround (Prim2SF x).
Definition to_uint8_clamped (x : float) : Z :=
  clamp_uint8 (SFround_half_even (Prim2SF x)).

(** Rounding to binary32 (24 bits of precision, [emax = 128]). *)
Definition fround (x : float) : float :=
  match Prim2SF x with
  | S754_finite s m e => SF2Prim (binary_round 24 128 s m e)
  | _ => x
  end.

(** [Math.min]: [NaN] if either argument is, and [-0] below [+0]. *)
Definition min (a b : float) : float :=
  if is_nan a then a
  else if is_nan b then b
  else if PrimFloat.ltb b a then b
  else if PrimFloat.ltb a b then a
  else if get_sign a then a else b.

End Binary64.

#[export] Instance binary64 : Number float := {|
  of_Z := Binary64.of_Z;
  nan := PrimFloat.nan;
  nadd := PrimFloat.add;
  nsub := PrimFloat.sub;
  nmul := PrimFloat.mul;
  ndiv := PrimFloat.div;
  nlt := PrimFloat.ltb;
  neq := PrimFloat.eqb;
  lt_infinity := fun a => PrimFloat.ltb a PrimFloat.infinity;
  nmin := Binary64.min;
  floor := Binary64.floor;
  round := Binary64.round;
  to_uint8_clamped := Binary64.to_uint8_clamped;
  fround := Binary64.fround;
|}.

(* ===================================================================== *)
(** * The engine *)
(* ===================================================================== *)

(** A bounded [for] loop whose body may throw. *)
Fixpoint foldlM {A B : Type} (f : A → B → option A) (a : A) (l : list B) : option A :=
  match l with
  | [] => Some a
  | b :: l => a' ← f a b; foldlM f a' l
  end.

(** The start coordinates visited by [for (v = 0; v < n; v += size)]. *)
Definition blockStarts (n size : nat) : list nat :=
  (λ k, k * size) <$> seq 0 ((n + size - 1) / size).

(** [Math.min(a, b)] and [Math.max(a, b)] with an integer bound [b]. *)
Definition jsint_min (a : jsint) (b : Z) : jsint :=
  match a with
  | JInt z => JInt (Z.min z b)
  | JPosInf => JInt b
  | JNegInf => JNegInf
  | JNaN => JNaN
  end.

Definition jsint_max (b : Z) (a : jsint) : jsint :=
  match a with
  | JInt z => JInt (Z.max b z)
  | JPosInf => JPosInf
  | JNegInf => JInt b
  | JNaN => JNaN
  end.

(** A string is its sequence of UTF-16 code units. *)
Definition codeunit : Type := N.

(** [chars[i]]: [None] is [undefined]. *)
Definition char_at (chars : list codeunit) (i : jsint) : option codeunit :=
  match i with
  | JInt z => if (0 <=? z)%Z then chars !! Z.to_nat z else None
  | _ => None
  end.

(** What a block effect paints with. *)
Inductive fillStyle : Type :=
  | Rgb (r g b : jsint)
  | Css (color : list codeunit).

(** A call of [ctx.fillRect(x, y, w, h)] under a fill style. *)
Record fillRect : Type := FillRect {
  rect_style : fillStyle;
  rect_x : nat;
  rect_y : nat;
  rect_w : nat;
  rect_h : nat;
}.

(** A call of [ctx.fillText(char, x, y)]; the position is kept as the block
    origin and the block size it is computed from. *)
Record fillText : Type := FillText {
  text_char : option codeunit;
  text_x : nat;
  text_y : nat;
  text_size : nat;
}.

Section Engine.

Context {num : Type} `{Number num}.

(** [type Color = [number, number, number]] *)
Definition Color : Type := num * num * num.

(** Reads of typed arrays; an index out of range reads [undefined]. *)
Definition read_u8 (d : list Z) (i : nat) : num := from_option of_Z nan (d !! i).
Definition read_f32 (p : list num) (i : nat) : num := default nan (p !! i).

(** [p[n] += v] on a [Float32Array]. *)
Definition add_at (p : list num) (n : nat) (v : num) : list num :=
  <[n := fround (read_f32 p n + v)%js]> p.

(** [Math.pow(a, 2)] *)
Definition pow2 (a : num) : num := (a * a)%js.

(** The standard luminance [0.2126 r + 0.7152 g + 0.0722 b]. *)
Definition luminance (r g b : num) : num :=
  (decimal 2126 4 * r + decimal 7152 4 * g + decimal 722 4 * b)%js.

(** ** Colour utilities *)

Definition distance (color paletteColor : Color) : num :=
  (pow2 (color.1.1 - paletteColor.1.1) +
   pow2 (color.1.2 - paletteColor.1.2) +
   pow2 (color.2 - paletteColor.2))%js.

(** [distance < minDistance], where [None] is the initial [Infinity]. *)
Definition closer (d : num) (minDistance : option num) : bool :=
  match minDistance with
  | None => lt_infinity d
  | Some m => (d <? m)%js
  end.

(** One turn of the loop of [findClosestColor] on the pair
    [(closestColor, minDistance)]. *)
Definition findClosestColor_step (color : Color)
    (st : option Color * option num) (paletteColor : Color) : option Color * option num :=
  let d := distance color paletteColor in
  if closer d st.2 then (Some paletteColor, Some d) else st.

(** [None] is the [undefined] read from [palette[0]] of an empty palette. *)
Definition findClosestColor (color : Color) (palette : list Color) : option Color :=
  (foldl (findClosestColor_step color) (head palette, None) palette).1.

Definition rgbToCmyk (r g b : num) : num * num * num * num :=
  let c := (of_Z 1 - r / of_Z 255)%js in
  let m := (of_Z 1 - g / of_Z 255)%js in
  let y := (of_Z 1 - b / of_Z 255)%js in
  let k := nmin (nmin c m) y in
  if (k =? of_Z 1)%js then (of_Z 0, of_Z 0, of_Z 0, of_Z 1)
  else
    let c := ((c - k) / (of_Z 1 - k))%js in
    let m := ((m - k) / (of_Z 1 - k))%js in
    let y := ((y - k) / (of_Z 1 - k))%js in
    (c, m, y, k).

(** The key and the divisor [1 - k] of the normalisation step. *)
Definition cmyk_key (r g b : num) : num :=
  nmin (nmin (of_Z 1 - r / of_Z 255)%js (of_Z 1 - g / of_Z 255)%js) (of_Z 1 - b / of_Z 255)%js.

Definition cmyk_divisor (r g b : num) : num := (of_Z 1 - cmyk_key r g b)%js.

(** [getPixel]: [y] is always an integer row, on which [Math.round] is the
    identity. *)
Definition getPixel (data : list Z) (width : nat) (x : num) (y : nat) : Color :=
  match jsint_max 0 (jsint_min (round x) (Z.of_nat width - 1)) with
  | JInt xi =>
      let i := (y * width + Z.to_nat xi) * 4 in
      (read_u8 data i, read_u8 data (i + 1), read_u8 data (i + 2))
  | _ => (nan, nan, nan)
  end.

(** ** Error-diffusion dithering *)

(** The first loop of [applyDitheringColor]: the scratch buffer starts as a
    zeroed [Float32Array] of [width * height * 3] cells. *)
Definition initPixelData (d : list Z) (width height : nat) : list num :=
  foldl (λ pixelData i,
           <[i * 3 + 2 := fround (read_u8 d (i * 4 + 2))]>
             (<[i * 3 + 1 := fround (read_u8 d (i * 4 + 1))]>
                (<[i * 3 := fround (read_u8 d (i * 4))]> pixelData)))
        (replicate (width * height * 3) (of_Z 0)) (seq 0 (width * height)).

(** The three updates [pixelData[neighborIndex + c] += err[c] * weight *
    diffusionFactor] made for one neighbour. *)
Definition diffuseColor (err : Color) (diffusionFactor : num)
    (pixelData : list num) (neighborIndex : nat) (weight : Z) : list num :=
  let pixelData := add_at pixelData neighborIndex (err.1.1 * of_Z weight * diffusionFactor)%js in
  let pixelData := add_at pixelData (neighborIndex + 1) (err.1.2 * of_Z weight * diffusionFactor)%js in
  add_at pixelData (neighborIndex + 2) (err.2 * of_Z weight * diffusionFactor)%js.

(** The body of the double loop of [applyDitheringColor] at [(x, y)], on
    the scratch buffer and the image data.  [None]: the palette is empty
    and [newColor[0]] throws. *)
Definition ditherColorPixel (width height : nat) (palette : list Color) (factor : num)
    (st : list num * list Z) (y x : nat) : option (list num * list Z) :=
  let '(pixelData, d) := st in
  let i := (y * width + x) * 3 in
  let oldR := read_f32 pixelData i in
  let oldG := read_f32 pixelData (i + 1) in
  let oldB := read_f32 pixelData (i + 2) in
  newColor ← findClosestColor (oldR, oldG, oldB) palette;
  let outIdx := (y * width + x) * 4 in
  let d := <[outIdx := to_uint8_clamped newColor.1.1]> d in
  let d := <[outIdx + 1 := to_uint8_clamped newColor.1.2]> d in
  let d := <[outIdx + 2 := to_uint8_clamped newColor.2]> d in
  let errR := (oldR - newColor.1.1)%js in
  let errG := (oldG - newColor.1.2)%js in
  let errB := (oldB - newColor.2)%js in
  let diffusionFactor := (factor / of_Z 16)%js in
  let diffuse := diffuseColor (errR, errG, errB) diffusionFactor in
  let pixelData :=
    if bool_decide (x + 1 < width) then diffuse pixelData (i + 3) 7%Z else pixelData in
  let pixelData :=
    if bool_decide (y + 1 < height ∧ 0 < x) then diffuse pixelData (i + width * 3 - 3) 3%Z
    else pixelData in
  let pixelData :=
    if bool_decide (y + 1 < height) then diffuse pixelData (i + width * 3) 5%Z else pixelData in
  let pixelData :=
    if bool_decide (y + 1 < height ∧ x + 1 < width) then diffuse pixelData (i + width * 3 + 3) 1%Z
    else pixelData in
  Some (pixelData, d).

(** The double loop, in raster order. *)
Definition ditherColorLoop (width height : nat) (palette : list Color) (factor : num)
    (st : list num * list Z) : option (list num * list Z) :=
  foldlM (λ st y, foldlM (λ st x, ditherColorPixel width height palette factor st y x)
                         st (seq 0 width))
         st (seq 0 height).

(** [applyDitheringColor] mutates [imageData.data]; the result is the
    buffer it leaves. *)
Definition applyDitheringColor (d : list Z) (width height : nat)
    (palette : list Color) (factor : num) : option (list Z) :=
  snd <$> ditherColorLoop width height palette factor (initPixelData d width height, d).

(** The first loop of [applyDitheringBW]: [i] runs over [0, 4, 8, ...]
    below [d.length]. *)
Definition initGrayscale (d : list Z) (width height : nat) : list num :=
  foldl (λ grayscale index,
           let i := index * 4 in
           let brightness :=
             luminance (read_u8 d i) (read_u8 d (i + 1)) (read_u8 d (i + 2)) in
           <[index := fround brightness]> grayscale)
        (replicate (width * height) (of_Z 0)) (seq 0 ((length d + 3) / 4)).

Definition ditherBWPixel (width height : nat) (factor : num) (darkColor lightColor : Color)
    (st : list num * list Z) (y x : nat) : list num * list Z :=
  let '(grayscale, d) := st in
  let i := y * width + x in
  let oldPixel := read_f32 grayscale i in
  let useLightColor := (oldPixel >? decimal 1275 1)%js in
  let newPixelValue := if useLightColor then of_Z 255 else of_Z 0 in
  let outIdx := i * 4 in
  let d := <[outIdx := to_uint8_clamped (if useLightColor then lightColor.1.1 else darkColor.1.1)]> d in
  let d := <[outIdx + 1 := to_uint8_clamped (if useLightColor then lightColor.1.2 else darkColor.1.2)]> d in
  let d := <[outIdx + 2 := to_uint8_clamped (if useLightColor then lightColor.2 else darkColor.2)]> d in
  let quantError := (oldPixel - newPixelValue)%js in
  let diffusionError := (quantError * factor / of_Z 16)%js in
  let grayscale :=
    if bool_decide (x + 1 < width) then add_at grayscale (i + 1) (diffusionError * of_Z 7)%js
    else grayscale in
  let grayscale :=
    if bool_decide (y + 1 < height) then
      let grayscale :=
        if bool_decide (0 < x) then add_at grayscale (i + width - 1) (diffusionError * of_Z 3)%js
        else grayscale in
      let grayscale := add_at grayscale (i + width) (diffusionError * of_Z 5)%js in
      if bool_decide (x + 1 < width) then add_at grayscale (i + width + 1) (diffusionError * of_Z 1)%js
      else grayscale
    else grayscale in
  (grayscale, d).

Definition ditherBWLoop (width height : nat) (factor : num) (darkColor lightColor : Color)
    (st : list num * list Z) : list num * list Z :=
  foldl (λ st y, foldl (λ st x, ditherBWPixel width height factor darkColor lightColor st y x)
                       st (seq 0 width))
        st (seq 0 height).

Definition applyDitheringBW (d : list Z) (width height : nat) (factor : num)
    (darkColor lightColor : Color) : list Z :=
  (ditherBWLoop width height factor darkColor lightColor (initGrayscale d width height, d)).2.

(** ** Palettes *)

Definition JUSTICE_PALETTE : list Color :=
  [ (of_Z 13, of_Z 33, of_Z 108);
    (of_Z 255, of_Z 147, of_Z 0);
    (of_Z 215, of_Z 235, of_Z 188);
    (of_Z 0, of_Z 0, of_Z 0) ].

(** [EFFECTS[DITHER_PALETTE].processor] on the image data. *)
Definition DITHER_PALETTE (data : list Z) (width height : nat) (factor : num) : option (list Z) :=
  applyDitheringColor data width height JUSTICE_PALETTE factor.

End Engine.

(** ** The effect catalogue *)

Section Effects.

Context {num : Type} `{Number num}.

(** *** Block quantisation *)

(** The guarded body shared by the block loops: the pixel at
    [(blockX, blockY)] counts only when it lies inside the buffer. *)
Definition colorBlockStep (data : list Z) (width height : nat)
    (acc : num * num * num * nat) (blockY blockX : nat) : num * num * num * nat :=
  let '(totalR, totalG, totalB, count) := acc in
  if bool_decide (blockX < width ∧ blockY < height) then
    let i := (blockY * width + blockX) * 4 in
    ((totalR + read_u8 data i)%js,
     (totalG + read_u8 data (i + 1))%js,
     (totalB + read_u8 data (i + 2))%js,
     S count)
  else acc.

(** [for (blockY = y; blockY < y + pixelSize; blockY++)
      for (blockX = x; blockX < x + pixelSize; blockX++) ...]
    of Pixelate and of the CMYK halftone: [(totalR, totalG, totalB, count)]. *)
Definition colorBlock (data : list Z) (width height x y pixelSize : nat)
    : num * num * num * nat :=
  foldl (λ acc blockY,
           foldl (λ acc blockX, colorBlockStep data width height acc blockY blockX)
                 acc (seq x pixelSize))
        (of_Z 0, of_Z 0, of_Z 0, 0) (seq y pixelSize).

Definition brightnessBlockStep (data : list Z) (width height : nat)
    (acc : num * nat) (blockY blockX : nat) : num * nat :=
  let '(totalBrightness, count) := acc in
  if bool_decide (blockX < width ∧ blockY < height) then
    let i := (blockY * width + blockX) * 4 in
    let brightness := luminance (read_u8 data i) (read_u8 data (i + 1)) (read_u8 data (i + 2)) in
    ((totalBrightness + brightness)%js, S count)
  else acc.

(** The same loops in the duotone and the halftone effects:
    [(totalBrightness, count)]. *)
Definition brightnessBlock (data : list Z) (width height x y pixelSize : nat) : num * nat :=
  foldl (λ acc blockY,
           foldl (λ acc blockX, brightnessBlockStep data width height acc blockY blockX)
                 acc (seq x pixelSize))
        (of_Z 0, 0) (seq y pixelSize).

(** The loops of the ASCII effect run over the offsets [j], [i] inside the
    block. *)
Definition asciiBlock (data : list Z) (width height x y charSize : nat) : num * nat :=
  foldl (λ acc j,
           foldl (λ acc i, brightnessBlockStep data width height acc (y + j) (x + i))
                 acc (seq 0 charSize))
        (of_Z 0, 0) (seq 0 charSize).

(** [EFFECTS[PIXELATE].processor]: the rectangles it fills, in order. *)
Definition PIXELATE (data : list Z) (width height : nat) (pixelSize : nat) : list fillRect :=
  let pixelSize := Nat.max 1 pixelSize in
  y ← blockStarts height pixelSize;
  x ← blockStarts width pixelSize;
  let '(totalR, totalG, totalB, count) := colorBlock data width height x y pixelSize in
  if bool_decide (0 < count) then
    let avgR := floor (totalR / of_Z (Z.of_nat count))%js in
    let avgG := floor (totalG / of_Z (Z.of_nat count))%js in
    let avgB := floor (totalB / of_Z (Z.of_nat count))%js in
    [FillRect (Rgb avgR avgG avgB) x y pixelSize pixelSize]
  else [].

(** [EFFECTS[DUOTONE_PIXELATE].processor] *)
Definition DUOTONE_PIXELATE (data : list Z) (width height : nat) (pixelSize : nat)
    (threshold : num) (darkColor lightColor : list codeunit) : list fillRect :=
  let pixelSize := Nat.max 1 pixelSize in
  y ← blockStarts height pixelSize;
  x ← blockStarts width pixelSize;
  let '(totalBrightness, count) := brightnessBlock data width height x y pixelSize in
  if bool_decide (0 < count) then
    let avgBrightness := (totalBrightness / of_Z (Z.of_nat count))%js in
    [FillRect (Css (if (avgBrightness <? threshold)%js then darkColor else lightColor))
              x y pixelSize pixelSize]
  else [].

(** *** ASCII art *)

(** [userChars && userChars.length > 0 ? userChars : ' '] *)
Definition asciiChars (userChars : list codeunit) : list codeunit :=
  if bool_decide (0 < length userChars) then userChars else [32%N].

(** [Math.min(Math.floor(avgBrightness * brightnessSteps / 256), chars.length - 1)] *)
Definition asciiCharIndex (avgBrightness brightnessSteps : num) (chars : list codeunit) : jsint :=
  let step := floor (avgBrightness * brightnessSteps / of_Z 256)%js in
  jsint_min step (Z.of_nat (length chars) - 1).

(** [EFFECTS[ASCII_ART].processor]: the glyphs it draws, in order. *)
Definition ASCII_ART (data : list Z) (width height : nat) (charSize : nat)
    (brightnessSteps : num) (userChars : list codeunit) : list fillText :=
  let charSize := Nat.max 1 charSize in
  let chars := asciiChars userChars in
  y ← blockStarts height charSize;
  x ← blockStarts width charSize;
  let '(totalBrightness, count) := asciiBlock data width height x y charSize in
  if bool_decide (0 < count) then
    let avgBrightness := (totalBrightness / of_Z (Z.of_nat count))%js in
    let charIndex := asciiCharIndex avgBrightness brightnessSteps chars in
    [FillText (char_at chars charIndex) x y charSize]
  else [].

(** *** Point thresholds *)

(** The body of [for (i = 0; i < data.length; i += 4)] at [i = 4 * k]. *)
Definition grayscalePixel (level : num) (data : list Z) (k : nat) : list Z :=
  let i := k * 4 in
  let brightness := luminance (read_u8 data i) (read_u8 data (i + 1)) (read_u8 data (i + 2)) in
  let color := if (brightness >? level)%js then brightness else of_Z 0 in
  let data := <[i := to_uint8_clamped color]> data in
  let data := <[i + 1 := to_uint8_clamped color]> data in
  <[i + 2 := to_uint8_clamped color]> data.

(** [EFFECTS[GRAYSCALE].processor] on the image data. *)
Definition GRAYSCALE (data : list Z) (level : num) : list Z :=
  foldl (grayscalePixel level) data (seq 0 ((length data + 3) / 4)).

Definition thresholdPixel (level : num) (data : list Z) (k : nat) : list Z :=
  let i := k * 4 in
  let brightness := luminance (read_u8 data i) (read_u8 data (i + 1)) (read_u8 data (i + 2)) in
  let color := if (brightness >? level)%js then of_Z 255 else of_Z 0 in
  let data := <[i := to_uint8_clamped color]> data in
  let data := <[i + 1 := to_uint8_clamped color]> data in
  <[i + 2 := to_uint8_clamped color]> data.

(** [EFFECTS[THRESHOLD].processor] on the image data. *)
Definition THRESHOLD (data : list Z) (level : num) : list Z :=
  foldl (thresholdPixel level) data (seq 0 ((length data + 3) / 4)).

(** *** CRT modulation *)

(** [Math.sin] is left to the host. *)
Variable sin : num → num.

(** The body of the first double loop at [(x, y)]. *)
Definition crtPixel (originalData : list Z) (width : nat)
    (amplitude frequency aberration : num) (processedData : list Z) (y x : nat) : list Z :=
  let offsetY := (sin (of_Z (Z.of_nat y) * frequency) * amplitude)%js in
  let i := (y * width + x) * 4 in
  let r := (getPixel originalData width (of_Z (Z.of_nat x) - (offsetY + aberration))%js y).1.1 in
  let g := (getPixel originalData width (of_Z (Z.of_nat x) - offsetY)%js y).1.2 in
  let b := (getPixel originalData width (of_Z (Z.of_nat x) - (offsetY - aberration))%js y).2 in
  let processedData := <[i := to_uint8_clamped r]> processedData in
  let processedData := <[i + 1 := to_uint8_clamped g]> processedData in
  let processedData := <[i + 2 := to_uint8_clamped b]> processedData in
  <[i + 3 := 255%Z]> processedData.

(** The body of the scanline loop at [(x, y)], [y] even. *)
Definition scanlinePixel (width : nat) (scanlineOpacity : num)
    (processedData : list Z) (y x : nat) : list Z :=
  let i := (y * width + x) * 4 in
  let dim (n : nat) (processedData : list Z) :=
    <[n := to_uint8_clamped (read_u8 processedData n * (of_Z 1 - scanlineOpacity))%js]>
      processedData in
  dim (i + 2) (dim (i + 1) (dim i processedData)).

(** [EFFECTS[CRT_MODULATION].processor]: the image data it puts back. *)
Definition CRT_MODULATION (originalData : list Z) (width height : nat)
    (amplitude frequency aberration scanlineOpacity : num) : list Z :=
  let processedData := replicate (width * height * 4) 0%Z in
  let processedData :=
    foldl (λ processedData y,
             foldl (λ processedData x,
                      crtPixel originalData width amplitude frequency aberration
                               processedData y x)
                   processedData (seq 0 width))
          processedData (seq 0 height) in
  if (scanlineOpacity >? of_Z 0)%js then
    foldl (λ processedData y,
             foldl (λ processedData x, scanlinePixel width scanlineOpacity processedData y x)
                   processedData (seq 0 width))
          processedData (blockStarts height 2)
  else processedData.

End Effects.

(* ===================================================================== *)
(** * Vocabulary of the specification *)
(* ===================================================================== *)

(** The pixels of a [width * height] buffer in raster order, as [(y, x)]. *)
Definition raster (width height : nat) : list (nat * nat) :=
  y ← seq 0 height; x ← seq 0 width; [(y, x)].

(** The Floyd-Steinberg weight of the pixel at offset [(dx, dy)] from the one
    being quantised: 7 to the right, 3, 5 and 1 on the row below. *)
Definition fsWeight (dx dy : Z) : option Z :=
  if bool_decide (dx = 1 ∧ dy = 0)%Z then Some 7%Z
  else if bool_decide (dx = -1 ∧ dy = 1)%Z then Some 3%Z
  else if bool_decide (dx = 0 ∧ dy = 1)%Z then Some 5%Z
  else if bool_decide (dx = 1 ∧ dy = 1)%Z then Some 1%Z
  else None.

(** The in-bounds pixels of the block of side [size] at [(x, y)]: the block
    clipped to the buffer, row by row. *)
Definition clippedBlock (width height x y size : nat) : list (nat * nat) :=
  blockY ← seq y (Nat.min (y + size) height - y);
  blockX ← seq x (Nat.min (x + size) width - x);
  [(blockY, blockX)].

(** The buffer whose pixels all have the colour [(r, g, b)], with the given
    alpha channels. *)
Definition uniformBuffer (r g b : Z) (alphas : list Z) : list Z :=
  a ← alphas; [r; g; b; a].

(** The 256 byte values on which [check] holds, decided by evaluation. *)
Definition all_bytes (check : Z → bool) : bool := forallb check (seqZ 0 256).

(** A buffer with every alpha channel set to 255. *)
Definition opaque (data : list Z) : list Z :=
  imap (λ j b, if bool_decide (j `mod` 4 = 3) then 255%Z else b) data.

(** The values a [Uint8ClampedArray] holds. *)
Definition bytes (data : list Z) : Prop := Forall (λ b, 0 ≤ b ≤ 255)%Z data.

Section Vocabulary.

Context {num : Type} `{Number num}.

(** The red, green and blue numbers of the pixel [(blockY, blockX)]. *)
Definition pixelColor (data : list Z) (width : nat) (p : nat * nat) : Color :=
  let i := (p.1 * width + p.2) * 4 in
  (read_u8 data i, read_u8 data (i + 1), read_u8 data (i + 2)).

(** The three numbers the colour scratch buffer holds for a pixel. *)
Definition scratchColor (pixelData : list num) (width : nat) (p : nat * nat) : Color :=
  let i := (p.1 * width + p.2) * 3 in
  (read_f32 pixelData i, read_f32 pixelData (i + 1), read_f32 pixelData (i + 2)).

(** Channel [c] (0, 1 or 2) of a colour. *)
Definition channel (c : nat) (color : Color) : num :=
  match c with
  | 0 => color.1.1
  | 1 => color.1.2
  | _ => color.2
  end.

(** The quantisation error of a colour: old minus new, channel by channel. *)
Definition colorError (old new : Color) : Color :=
  ((old.1.1 - new.1.1)%js, (old.1.2 - new.1.2)%js, (old.2 - new.2)%js).

(** Adding one pixel to the running sums of a block, unconditionally. *)
Definition colorAdd (data : list Z) (width : nat)
    (acc : num * num * num * nat) (p : nat * nat) : num * num * num * nat :=
  let c := pixelColor data width p in
  ((acc.1.1.1 + c.1.1)%js, (acc.1.1.2 + c.1.2)%js, (acc.1.2 + c.2)%js, S acc.2).

Definition brightnessAdd (data : list Z) (width : nat)
    (acc : num * nat) (p : nat * nat) : num * nat :=
  let c := pixelColor data width p in
  ((acc.1 + luminance c.1.1 c.1.2 c.2)%js, S acc.2).

(** Byte [j] of the pixel the CRT effect computes at [(x, y)], before the
    scanlines. *)
Definition crtValue (sin : num → num) (originalData : list Z) (width : nat)
    (amplitude frequency aberration : num) (y x j : nat) : Z :=
  let offsetY := (sin (of_Z (Z.of_nat y) * frequency) * amplitude)%js in
  match j with
  | 0 => to_uint8_clamped
           (getPixel originalData width (of_Z (Z.of_nat x) - (offsetY + aberration))%js y).1.1
  | 1 => to_uint8_clamped
           (getPixel originalData width (of_Z (Z.of_nat x) - offsetY)%js y).1.2
  | 2 => to_uint8_clamped
           (getPixel originalData width (of_Z (Z.of_nat x) - (offsetY - aberration))%js y).2
  | _ => 255%Z
  end.

(** The luminance of the [k]-th pixel of a buffer. *)
Definition pixelBrightness (data : list Z) (k : nat) : num :=
  luminance (read_u8 data (k * 4)) (read_u8 data (k * 4 + 1)) (read_u8 data (k * 4 + 2)).

(** A store of a byte into a [Uint8ClampedArray] keeps it. *)
Definition byte_faithful : Prop :=
  ∀ b : Z, (0 ≤ b ≤ 255)%Z → to_uint8_clamped (of_Z b) = b.

(** The bytes a colour is stored as. *)
Definition storedColor (c : Color) : Z * Z * Z :=
  (to_uint8_clamped c.1.1, to_uint8_clamped c.1.2, to_uint8_clamped c.2).

End Vocabulary.

(** The state of the loop of [findClosestColor] after the entries [pre], on
    exact arithmetic: nothing visited yet, or the first entry of least
    distance together with that distance. *)
Definition closest_so_far (color : Color (num := Qc)) (palette pre : list Color)
    (st : option Color * option Qc) : Prop :=
  (pre = [] ∧ st = (head palette, None)) ∨
  ∃ i r, pre !! i = Some r ∧ st = (Some r, Some (distance color r)) ∧
    (∀ p, p ∈ pre → (distance color r <= distance color p)%Qc) ∧
    (∀ j p, j < i → pre !! j = Some p → (distance color r < distance color p)%Qc).

(** ** The order of binary64 *)

(** The place of a number in the order of the floats, as a triple compared
    lexicographically: the infinities and zero at the ends and the middle,
    the finite numbers by sign, exponent and mantissa.  [NaN] has none. *)
Definition float_rank (x : spec_float) : option (Z * Z * Z) :=
  match x with
  | S754_nan => None
  | S754_infinity true => Some (-2, 0, 0)%Z
  | S754_infinity false => Some (2, 0, 0)%Z
  | S754_zero _ => Some (0, 0, 0)%Z
  | S754_finite true m e => Some (-1, - e, Z.neg m)%Z
  | S754_finite false m e => Some (1, e, Z.pos m)%Z
  end.

Definition rank_lt (a b : Z * Z * Z) : Prop :=
  (a.1.1 < b.1.1 ∨ (a.1.1 = b.1.1 ∧ (a.1.2 < b.1.2 ∨ (a.1.2 = b.1.2 ∧ a.2 < b.2))))%Z.

(** [a < b] on floats, read on the ranks. *)
Definition float_lt (x y : float) : Prop :=
  ∃ a b, float_rank (Prim2SF x) = Some a ∧ float_rank (Prim2SF y) = Some b ∧ rank_lt a b.

(** ** Checks evaluated on binary64 *)

(** For a byte [vb]: the byte minus itself, times a diffusion weight, is
    [+0]; the byte plus a zero of either sign, stored in a [Float32Array],
    is the byte; and so is the byte itself. *)
Definition byte_checks (vb : Z) : bool :=
  let v : float := of_Z vb in
  forallb (λ weight, Leibniz.eqb ((v - v) * of_Z weight)%float 0%float) [7; 3; 5; 1]%Z &&
  Leibniz.eqb (fround (v + 0)%float) v &&
  Leibniz.eqb (fround (v + -0)%float) v &&
  Leibniz.eqb (fround v) v.

(** For a byte [vb]: the CMYK component [1 - vb / 255] is 1, or its distance
    to 1 is not zero. *)
Definition cmyk_byte_check (vb : Z) : bool :=
  let c : float := (of_Z 1 - of_Z vb / of_Z 255)%js in
  PrimFloat.eqb c (of_Z 1) || negb (PrimFloat.eqb (of_Z 1 - c)%js (of_Z 0)).

(** For a step count [n]: brightness 0 gives step 0 and brightness 255 gives
    the step [floor(255 n / 256)], which is below [n]. *)
Definition ascii_step_check (n : Z) : bool :=
  match floor (of_Z (num := float) 0 * of_Z n / of_Z 256)%js,
        floor (of_Z (num := float) 255 * of_Z n / of_Z 256)%js with
  | JInt lo, JInt hi => (lo =? 0)%Z && (hi =? 255 * n / 256)%Z && (hi <=? n - 1)%Z
  | _, _ => false
  end.

(* ===================================================================== *)
(** * The rest of the engine *)
(* ===================================================================== *)

(** ** Hexadecimal colours *)

(** The value of a code unit of the class [[a-f\d]] under the flag [i]: the
    digits, and the letters a to f in either case. *)
Definition hexDigitValue (c : codeunit) : option Z :=
  if ((48 <=? c) && (c <=? 57))%N then Some (Z.of_N c - 48)%Z
  else if ((97 <=? c) && (c <=? 102))%N then Some (Z.of_N c - 87)%Z
  else if ((65 <=? c) && (c <=? 70))%N then Some (Z.of_N c - 55)%Z
  else None.

(** [([a-f\d]{2})([a-f\d]{2})([a-f\d]{2})$]: six code units of the class up
    to the end of the input, as three groups. *)
Definition hexGroups (s : list codeunit)
    : option (list codeunit * list codeunit * list codeunit) :=
  match s with
  | [r1; r2; g1; g2; b1; b2] =>
      if forallb (λ c, bool_decide (is_Some (hexDigitValue c))) s
      then Some ([r1; r2], [g1; g2], [b1; b2])
      else None
  | _ => None
  end.

(** [/^#?([a-f\d]{2})([a-f\d]{2})([a-f\d]{2})$/i.exec(hex)]: the optional
    [#] is tried first, then left out. *)
Definition hexExec (hex : list codeunit)
    : option (list codeunit * list codeunit * list codeunit) :=
  match hex with
  | c :: rest =>
      if bool_decide (c = 35%N) then
        match hexGroups rest with
        | Some groups => Some groups
        | None => hexGroups hex
        end
      else hexGroups hex
  | [] => hexGroups hex
  end.

(** [parseInt(s, 16)] on a string of hexadecimal digits, the only strings a
    group of the pattern holds. *)
Definition parseInt16 (s : list codeunit) : Z :=
  foldl (λ n c, 16 * n + default 0 (hexDigitValue c))%Z 0%Z s.

(** [hexToRgb]: [None] is [null].  The components are the integers
    [parseInt] returns. *)
Definition hexToRgb (hex : list codeunit) : option (Z * Z * Z) :=
  match hexExec hex with
  | Some (r, g, b) => Some (parseInt16 r, parseInt16 g, parseInt16 b)
  | None => None
  end.

(** ** Drawing with computed coordinates *)

(** A call of [ctx.fillRect(x, y, w, h)], or of [ctx.arc(x, y, radius, 0,
    2 * Math.PI)] followed by [ctx.fill()], under a fill style. *)
Inductive draw (num : Type) : Type :=
  | DrawRect (style : fillStyle) (x y w h : num)
  | DrawArc (style : fillStyle) (x y radius : num).
Arguments DrawRect {num} style x y w h.
Arguments DrawArc {num} style x y radius.

(** A call of [ctx.fillRect(x, y, w, h)] before any shadow is set, or a
    disc drawn by [ctx.arc(x, y, radius, 0, 2 * Math.PI)] and [ctx.fill()]
    under a fill style, a shadow colour and a shadow blur. *)
Inductive glowDraw (num : Type) : Type :=
  | GlowRect (style : fillStyle) (x y w h : num)
  | GlowArc (style : fillStyle) (shadowColor : list codeunit) (shadowBlur x y radius : num).
Arguments GlowRect {num} style x y w h.
Arguments GlowArc {num} style shadowColor shadowBlur x y radius.

Section Halftone.

Context {num : Type} `{Number num}.

(** The integers of a parsed colour as numbers. *)
Definition toColor (c : Z * Z * Z) : Color := (of_Z c.1.1, of_Z c.1.2, of_Z c.2).

(** [EFFECTS[DITHER_BW].processor] on the image data:
    [hexToRgb(...) || [0, 0, 0]] and [hexToRgb(...) || [255, 255, 255]]. *)
Definition DITHER_BW (data : list Z) (width height : nat) (factor : num)
    (darkColor lightColor : list codeunit) : list Z :=
  let darkColor := default (0, 0, 0)%Z (hexToRgb darkColor) in
  let lightColor := default (255, 255, 255)%Z (hexToRgb lightColor) in
  applyDitheringBW data width height factor (toColor darkColor) (toColor lightColor).

(** [ctx.beginPath(); ctx.arc(x, y, radius, 0, 2 * Math.PI); ctx.fill()]:
    [arc] throws an [IndexSizeError] on a negative radius, which is [None]. *)
Definition fillArc (style : fillStyle) (x y radius : num) : option (draw num) :=
  if (radius <? of_Z 0)%js then None else Some (DrawArc style x y radius).

(** The average brightness of a block as a fraction of 255, times [extent]. *)
Definition halftoneExtent (avgBrightness extent : num) (invert : bool) : num :=
  let size := (avgBrightness / of_Z 255 * extent)%js in
  if invert then (extent - size)%js else size.

(** The square of [EFFECTS[HALFTONE_SQUARES].processor] for the block at
    [(x, y)]. *)
Definition halftoneSquare (data : list Z) (width height gridSize : nat) (invert : bool)
    (squareColor : list codeunit) (y x : nat) : list (draw num) :=
  let '(totalBrightness, count) := brightnessBlock data width height x y gridSize in
  if bool_decide (0 < count) then
    let avgBrightness := (totalBrightness / of_Z (Z.of_nat count))%js in
    let size := halftoneExtent avgBrightness (of_Z (Z.of_nat gridSize)) invert in
    let centeredX := (of_Z (Z.of_nat x) + (of_Z (Z.of_nat gridSize) - size) / of_Z 2)%js in
    let centeredY := (of_Z (Z.of_nat y) + (of_Z (Z.of_nat gridSize) - size) / of_Z 2)%js in
    [DrawRect (Css squareColor) centeredX centeredY size size]
  else [].

(** [EFFECTS[HALFTONE_SQUARES].processor]: the background, then the squares
    in the order of the loops. *)
Definition HALFTONE_SQUARES (data : list Z) (width height : nat) (gridSize : nat)
    (invert : bool) (squareColor bgColor : list codeunit) : list (draw num) :=
  let gridSize := Nat.max 1 gridSize in
  DrawRect (Css bgColor) (of_Z 0) (of_Z 0) (of_Z (Z.of_nat width)) (of_Z (Z.of_nat height)) ::
  (y ← blockStarts height gridSize;
   x ← blockStarts width gridSize;
   halftoneSquare data width height gridSize invert squareColor y x).

(** The string ['vertical']. *)
Definition vertical : list codeunit := [118; 101; 114; 116; 105; 99; 97; 108]%N.

(** [processBlock(x, y)] of [EFFECTS[HALFTONE_LINES].processor]. *)
Definition processBlock (data : list Z) (width height gridSize : nat) (invert : bool)
    (lineColor orientation : list codeunit) (x y : nat) : list (draw num) :=
  let '(totalBrightness, count) := brightnessBlock data width height x y gridSize in
  if bool_decide (0 < count) then
    let avgBrightness := (totalBrightness / of_Z (Z.of_nat count))%js in
    let thickness := halftoneExtent avgBrightness (of_Z (Z.of_nat gridSize)) invert in
    if bool_decide (orientation = vertical) then
      let centeredX :=
        (of_Z (Z.of_nat x) + (of_Z (Z.of_nat gridSize) - thickness) / of_Z 2)%js in
      [DrawRect (Css lineColor) centeredX (of_Z (Z.of_nat y))
                thickness (of_Z (Z.of_nat gridSize))]
    else
      let centeredY :=
        (of_Z (Z.of_nat y) + (of_Z (Z.of_nat gridSize) - thickness) / of_Z 2)%js in
      [DrawRect (Css lineColor) (of_Z (Z.of_nat x)) centeredY
                (of_Z (Z.of_nat gridSize)) thickness]
  else [].

(** [EFFECTS[HALFTONE_LINES].processor] *)
Definition HALFTONE_LINES (data : list Z) (width height : nat) (gridSize : nat)
    (invert : bool) (lineColor bgColor orientation : list codeunit) : list (draw num) :=
  let gridSize := Nat.max 1 gridSize in
  DrawRect (Css bgColor) (of_Z 0) (of_Z 0) (of_Z (Z.of_nat width)) (of_Z (Z.of_nat height)) ::
  (y ← blockStarts height gridSize;
   x ← blockStarts width gridSize;
   processBlock data width height gridSize invert lineColor orientation x y).

(** The body of the loops of [EFFECTS[HALFTONE_CIRCLES].processor] at the
    block [(x, y)], on the list of the discs drawn so far. *)
Definition halftoneCircle (data : list Z) (width height gridSize : nat) (invert : bool)
    (dotColor : list codeunit) (drawn : list (draw num)) (y x : nat)
    : option (list (draw num)) :=
  let '(totalBrightness, count) := brightnessBlock data width height x y gridSize in
  if bool_decide (0 < count) then
    let avgBrightness := (totalBrightness / of_Z (Z.of_nat count))%js in
    let radius :=
      halftoneExtent avgBrightness (of_Z (Z.of_nat gridSize) / of_Z 2)%js invert in
    let centerX := (of_Z (Z.of_nat x) + of_Z (Z.of_nat gridSize) / of_Z 2)%js in
    let centerY := (of_Z (Z.of_nat y) + of_Z (Z.of_nat gridSize) / of_Z 2)%js in
    disc ← fillArc (Css dotColor) centerX centerY radius;
    Some (drawn ++ [disc])
  else Some drawn.

(** [EFFECTS[HALFTONE_CIRCLES].processor]: the background, then the discs;
    [None] when [arc] throws. *)
Definition HALFTONE_CIRCLES (data : list Z) (width height : nat) (gridSize : nat)
    (invert : bool) (dotColor bgColor : list codeunit) : option (list (draw num)) :=
  let gridSize := Nat.max 1 gridSize in
  foldlM (λ drawn y,
            foldlM (λ drawn x,
                      halftoneCircle data width height gridSize invert dotColor drawn y x)
                   drawn (blockStarts width gridSize))
         [DrawRect (Css bgColor) (of_Z 0) (of_Z 0)
                   (of_Z (Z.of_nat width)) (of_Z (Z.of_nat height))]
         (blockStarts height gridSize).

(** The strings ['cyan'], ['magenta'], ['yellow'] and ['black']. *)
Definition cyan : list codeunit := [99; 121; 97; 110]%N.
Definition magenta : list codeunit := [109; 97; 103; 101; 110; 116; 97]%N.
Definition yellow : list codeunit := [121; 101; 108; 108; 111; 119]%N.
Definition black : list codeunit := [98; 108; 97; 99; 107]%N.

(** The four discs of a block of the CMYK halftone, from the average colour
    of the block. *)
Definition cmykDots (gridSize x y : nat) (avgR avgG avgB : num) : option (list (draw num)) :=
  let '(c, m, y_cmyk, k) := rgbToCmyk avgR avgG avgB in
  let halfGrid := (of_Z (Z.of_nat gridSize) / of_Z 2)%js in
  let quarterGrid := (of_Z (Z.of_nat gridSize) / of_Z 4)%js in
  let maxRadius := quarterGrid in
  let centerX := (of_Z (Z.of_nat x) + halfGrid)%js in
  let centerY := (of_Z (Z.of_nat y) + halfGrid)%js in
  let cmy_k_factor := (of_Z 1 - k)%js in
  dotC ← fillArc (Css cyan) (centerX - quarterGrid)%js (centerY - quarterGrid)%js
                 (c * cmy_k_factor * maxRadius)%js;
  dotM ← fillArc (Css magenta) (centerX + quarterGrid)%js (centerY - quarterGrid)%js
                 (m * cmy_k_factor * maxRadius)%js;
  dotY ← fillArc (Css yellow) (centerX - quarterGrid)%js (centerY + quarterGrid)%js
                 (y_cmyk * cmy_k_factor * maxRadius)%js;
  dotK ← fillArc (Css black) (centerX + quarterGrid)%js (centerY + quarterGrid)%js
                 (k * maxRadius)%js;
  Some [dotC; dotM; dotY; dotK].

(** The body of the loops of [EFFECTS[HALFTONE_COLOR].processor]. *)
Definition halftoneColorBlock (data : list Z) (width height gridSize : nat)
    (drawn : list (draw num)) (y x : nat) : option (list (draw num)) :=
  let '(totalR, totalG, totalB, count) := colorBlock data width height x y gridSize in
  if bool_decide (0 < count) then
    let avgR := (totalR / of_Z (Z.of_nat count))%js in
    let avgG := (totalG / of_Z (Z.of_nat count))%js in
    let avgB := (totalB / of_Z (Z.of_nat count))%js in
    dots ← cmykDots gridSize x y avgR avgG avgB;
    Some (drawn ++ dots)
  else Some drawn.

(** [EFFECTS[HALFTONE_COLOR].processor]: the background, then four discs a
    block, composited with ['darken']; [None] when [arc] throws. *)
Definition HALFTONE_COLOR (data : list Z) (width height : nat) (gridSize : nat)
    (bgColor : list codeunit) : option (list (draw num)) :=
  let gridSize := Nat.max 2 gridSize in
  foldlM (λ drawn y,
            foldlM (λ drawn x, halftoneColorBlock data width height gridSize drawn y x)
                   drawn (blockStarts width gridSize))
         [DrawRect (Css bgColor) (of_Z 0) (of_Z 0)
                   (of_Z (Z.of_nat width)) (of_Z (Z.of_nat height))]
         (blockStarts height gridSize).

(** *** The neon silhouette *)

(** The strings ['#000000'], ['rgba(230, 255, 255, 0.9)'] and
    ['rgba(150, 220, 255, 0.7)']. *)
Definition neonBackground : list codeunit := [35; 48; 48; 48; 48; 48; 48]%N.

Definition neonFill : list codeunit :=
  [114; 103; 98; 97; 40; 50; 51; 48; 44; 32; 50; 53; 53; 44; 32; 50; 53; 53; 44; 32;
   48; 46; 57; 41]%N.

Definition neonShadow : list codeunit :=
  [114; 103; 98; 97; 40; 49; 53; 48; 44; 32; 50; 50; 48; 44; 32; 50; 53; 53; 44; 32;
   48; 46; 55; 41]%N.

(** [invert ? (brightness < threshold) : (brightness > threshold)] for the
    pixel at [(x, y)]. *)
Definition isTarget (data : list Z) (width : nat) (threshold : num) (invert : bool)
    (y x : nat) : bool :=
  let brightness := pixelBrightness data (y * width + x) in
  if invert then (brightness <? threshold)%js else (brightness >? threshold)%js.

(** The disc of the pixel at [(x, y)]. *)
Definition neonDotAt (dotSize x y : nat) : glowDraw num :=
  GlowArc (Css neonFill) neonShadow (of_Z (Z.of_nat dotSize) * of_Z 2)%js
          (of_Z (Z.of_nat x)) (of_Z (Z.of_nat y))
          (of_Z (Z.of_nat dotSize) * decimal 5 1)%js.

(** The body of the loops of [EFFECTS[NEON_SILHOUETTE].processor]. *)
Definition neonDot (data : list Z) (width : nat) (threshold : num) (dotSize : nat)
    (invert : bool) (y x : nat) : list (glowDraw num) :=
  if isTarget data width threshold invert y x then [neonDotAt dotSize x y] else [].

(** [EFFECTS[NEON_SILHOUETTE].processor]: the background, then the discs in
    the order of the loops.  The step of the loops is [dotSize] itself: with
    [dotSize = 0] and a row to visit the loops never end, which is [None]. *)
Definition NEON_SILHOUETTE (data : list Z) (width height : nat) (threshold : num)
    (dotSize : nat) (invert : bool) : option (list (glowDraw num)) :=
  if bool_decide (dotSize = 0 ∧ 0 < height) then None
  else
    Some (GlowRect (Css neonBackground) (of_Z 0) (of_Z 0)
                   (of_Z (Z.of_nat width)) (of_Z (Z.of_nat height)) ::
          (y ← blockStarts height dotSize;
           x ← blockStarts width dotSize;
           neonDot data width threshold dotSize invert y x)).

End Halftone.

(** ** The presets and the panning of the image editor *)

(** The code units of [WhiteSpace] and [LineTerminator], which
    [String.prototype.trim] strips. *)
Definition isWhiteSpace (c : codeunit) : bool :=
  bool_decide (c ∈ [9; 10; 11; 12; 13; 32; 160; 5760; 8232; 8233; 8239; 8287; 12288; 65279]%N)
  || ((8192 <=? c) && (c <=? 8202))%N.

Fixpoint trimStart (s : list codeunit) : list codeunit :=
  match s with
  | c :: rest => if isWhiteSpace c then trimStart rest else s
  | [] => []
  end.

(** [s.trim()] *)
Definition trim (s : list codeunit) : list codeunit :=
  reverse (trimStart (reverse (trimStart s))).

(** The message ['O nome da predefinição não pode estar vazio.'] *)
Definition emptyPresetName : list codeunit :=
  [79; 32; 110; 111; 109; 101; 32; 100; 97; 32; 112; 114; 101; 100; 101; 102; 105; 110; 105;
   231; 227; 111; 32; 110; 227; 111; 32; 112; 111; 100; 101; 32; 101; 115; 116; 97; 114; 32;
   118; 97; 122; 105; 111; 46]%N.

Section Presets.

(** The effect identifiers and the parameter objects are kept abstract. *)
Variables EffectType EffectParamsState : Type.

(** [type Preset = { name, effectId, params }] *)
Record Preset : Type := MkPreset {
  preset_name : list codeunit;
  preset_effectId : EffectType;
  preset_params : EffectParamsState;
}.

(** The state of [ImageProcessor] that the preset handlers read and set. *)
Record EditorState : Type := MkEditorState {
  activeEffect : EffectType;
  effectParams : EffectParamsState;
  presets : list Preset;
  newPresetName : list codeunit;
  isSavingPreset : bool;
  error : option (list codeunit);
}.

(** The update [setPresets(prev => ...)] of [handleSavePreset]:
    [findIndex] by name, then replace in place or append. *)
Definition savePreset (newPreset : Preset) (prev : list Preset) : list Preset :=
  match list_find (λ p, preset_name p = preset_name newPreset) prev with
  | Some (existingIndex, _) => <[existingIndex := newPreset]> prev
  | None => prev ++ [newPreset]
  end.

Definition handleSavePreset (st : EditorState) : EditorState :=
  if bool_decide (trim (newPresetName st) = []) then
    MkEditorState (activeEffect st) (effectParams st) (presets st) (newPresetName st)
                  (isSavingPreset st) (Some emptyPresetName)
  else
    let newPreset := MkPreset (trim (newPresetName st)) (activeEffect st) (effectParams st) in
    MkEditorState (activeEffect st) (effectParams st) (savePreset newPreset (presets st))
                  [] false None.

Definition handleDeletePreset (presetName : list codeunit) (st : EditorState) : EditorState :=
  MkEditorState (activeEffect st) (effectParams st)
                (filter (λ p, preset_name p ≠ presetName) (presets st))
                (newPresetName st) (isSavingPreset st) (error st).

(** The preset a name stands for: the first one with that name. *)
Definition findPreset (presetName : list codeunit) (l : list Preset) : option Preset :=
  snd <$> list_find (λ p, preset_name p = presetName) l.

End Presets.

Arguments MkPreset {EffectType EffectParamsState} _ _ _.
Arguments preset_name {EffectType EffectParamsState} _.
Arguments preset_effectId {EffectType EffectParamsState} _.
Arguments preset_params {EffectType EffectParamsState} _.
Arguments MkEditorState {EffectType EffectParamsState} _ _ _ _ _ _.
Arguments activeEffect {EffectType EffectParamsState} _.
Arguments effectParams {EffectType EffectParamsState} _.
Arguments presets {EffectType EffectParamsState} _.
Arguments newPresetName {EffectType EffectParamsState} _.
Arguments isSavingPreset {EffectType EffectParamsState} _.
Arguments error {EffectType EffectParamsState} _.
Arguments savePreset {EffectType EffectParamsState} _ _.
Arguments handleSavePreset {EffectType EffectParamsState} _.
Arguments handleDeletePreset {EffectType EffectParamsState} _ _.
Arguments findPreset {EffectType EffectParamsState} _ _.

(** [Math.max] on exact arithmetic. *)
Definition exact_max (a b : Qc) : Qc := if Exact.ltb a b then b else a.

(** What the panning handlers read and set: the offset of the image, the
    drag flag and the anchor of the drag. *)
Record PanState : Type := MkPanState {
  pan : Qc * Qc;
  isPanning : bool;
  panStart : Qc * Qc;
}.

(** [Math.max(-max, Math.min(0, next))] with [max = Math.max(0, image -
    viewport)], for one axis. *)
Definition clampPan (image viewport next : Qc) : Qc :=
  let maxOffset := exact_max 0 (image - viewport) in
  exact_max (- maxOffset) (Exact.min 0 next).

(** [handlePanStart], [handlePanMove] and [handlePanEnd] with an image
    loaded, on exact arithmetic; [client] is the position of the mouse,
    [image] and [viewport] the sizes of the image and of the viewport. *)
Definition handlePanStart (client : Qc * Qc) (st : PanState) : PanState :=
  MkPanState (pan st) true ((client.1 - (pan st).1)%Qc, (client.2 - (pan st).2)%Qc).

Definition handlePanMove (client image viewport : Qc * Qc) (st : PanState) : PanState :=
  if negb (isPanning st) then st
  else
    let nextX := (client.1 - (panStart st).1)%Qc in
    let nextY := (client.2 - (panStart st).2)%Qc in
    MkPanState (clampPan image.1 viewport.1 nextX, clampPan image.2 viewport.2 nextY)
               (isPanning st) (panStart st).

Definition handlePanEnd (st : PanState) : PanState :=
  MkPanState (pan st) false (panStart st).

(* ===================================================================== *)
(** * Further vocabulary *)
(* ===================================================================== *)

(** The hexadecimal digit of a value below 16, in lower or upper case. *)
Definition hexDigitChar (upper : bool) (v : Z) : codeunit :=
  if (v <? 10)%Z then Z.to_N (48 + v)
  else if upper then Z.to_N (55 + v) else Z.to_N (87 + v).

(** The two hexadecimal digits of a byte. *)
Definition hexByte (upper : bool) (v : Z) : list codeunit :=
  [hexDigitChar upper (v `div` 16); hexDigitChar upper (v `mod` 16)].

(** The colour [(r, g, b)] written [#rrggbb], with or without the [#]. *)
Definition hexColor (hash upper : bool) (r g b : Z) : list codeunit :=
  (if hash then [35%N] else []) ++ hexByte upper r ++ hexByte upper g ++ hexByte upper b.

(** A byte written in hexadecimal, in either case, reads back as itself
    through the digits of the class, and its first digit is not [#]. *)
Definition hexByte_check (v : Z) : bool :=
  forallb (λ upper,
             forallb (λ c, bool_decide (is_Some (hexDigitValue c))) (hexByte upper v) &&
             (parseInt16 (hexByte upper v) =? v)%Z &&
             forallb (λ c, negb (c =? 35)%N) (hexByte upper v))
          [false; true].

(** A palette whose entries are triples of bytes, as [JUSTICE_PALETTE] is. *)
Definition bytePalette {num : Type} `{Number num} (palette : list Color) : Prop :=
  ∀ c, c ∈ palette → ∃ r g b, bytes [r; g; b] ∧ c = toColor (r, g, b).

(** An image of [n] pixels each of which is black or white. *)
Definition blackWhite (d : list Z) (n : nat) : Prop :=
  ∀ k, k < n →
    ∃ v, (v = 0 ∨ v = 255)%Z ∧
      d !! (k * 4) = Some v ∧ d !! (k * 4 + 1) = Some v ∧ d !! (k * 4 + 2) = Some v.

(** For an integer level: white is brighter than the level and black is
    not, on binary64. *)
Definition threshold_level_check (level : Z) : bool :=
  (luminance (num := float) (of_Z 255) (of_Z 255) (of_Z 255) >? of_Z level)%js &&
  negb (luminance (num := float) (of_Z 0) (of_Z 0) (of_Z 0) >? of_Z level)%js.

(** The column [getPixel] samples for the abscissa [x], on exact
    arithmetic: [x] rounded, then clamped to the row. *)
Definition sampleColumn (width : nat) (x : Qc) : nat :=
  Z.to_nat (Z.max 0 (Z.min (Qfloor (x + (1 # 2))%Q) (Z.of_nat width - 1))).

(** The brightness a grey pixel [(v, v, v)] has in the scratch buffer of
    [applyDitheringBW]. *)
Definition grayBrightness {num : Type} `{Number num} (v : Z) : num :=
  fround (luminance (of_Z v) (of_Z v) (of_Z v)).

(** The byte a scanline of the CRT effect leaves of the byte [b]. *)
Definition dimmed {num : Type} `{Number num} (scanlineOpacity : num) (b : Z) : Z :=
  to_uint8_clamped (of_Z b * (of_Z 1 - scanlineOpacity))%js.

(* ===================================================================== *)
(** * Properties *)
(* ===================================================================== *)

(** * Loops over a buffer, one pixel of four bytes at a time *)

Section PointLoop.

(** A loop body that rewrites the three colour bytes of pixel [k] with a
    value read from those bytes, and nothing else. *)
Variable step : list Z → nat → list Z.
Variable val : list Z → nat → Z.
Hypothesis step_length : ∀ d k, length (step d k) = length d.
Hypothesis step_frame :
  ∀ d k j, j ≠ k * 4 → j ≠ k * 4 + 1 → j ≠ k * 4 + 2 → step d k !! j = d !! j.
Hypothesis step_write :
  ∀ d k c, c < 3 → k * 4 + c < length d → step d k !! (k * 4 + c) = Some (val d k).
Hypothesis val_local :
  ∀ d d' k, (∀ c, c < 3 → d !! (k * 4 + c) = d' !! (k * 4 + c)) → val d k = val d' k.

Lemma pointLoop_spec (d : list Z) (n : nat) :
  length (foldl step d (seq 0 n)) = length d ∧
  (∀ j, n * 4 ≤ j ∨ j `mod` 4 = 3 → foldl step d (seq 0 n) !! j = d !! j) ∧
  (∀ k c, k < n → c < 3 → k * 4 + c < length d →
          foldl step d (seq 0 n) !! (k * 4 + c) = Some (val d k)).
Proof.
  induction n as [|n (IHlen & IHframe & IHwrite)]; [by auto with lia|].
  rewrite seq_S, foldl_app. cbn [foldl Nat.add].
  set (out := foldl step d (seq 0 n)) in *.
  split_and!.
  - by rewrite step_length.
  - intros j Hj. rewrite step_frame; [apply IHframe| | |].
    + destruct Hj; [left; lia|by right].
    + destruct Hj as [?|Hm]; [lia|]. intros ->. rewrite Nat.Div0.mod_mul in Hm. lia.
    + destruct Hj as [?|Hm]; [lia|]. intros ->.
      rewrite Nat.add_comm, Nat.Div0.mod_add in Hm. cbn in Hm. lia.
    + destruct Hj as [?|Hm]; [lia|]. intros ->.
      rewrite Nat.add_comm, Nat.Div0.mod_add in Hm. cbn in Hm. lia.
  - intros k c Hk Hc Hlt. destruct (decide (k = n)) as [->|Hne].
    + rewrite step_write by (rewrite ?IHlen; lia). f_equal.
      apply val_local. intros c' Hc'. apply IHframe. left. lia.
    + rewrite step_frame by lia. apply IHwrite; lia.
Qed.

End PointLoop.

Section PointEffects.

Context {num : Type} `{Number num}.

Lemma read_u8_agree (d d' : list Z) (i : nat) : d !! i = d' !! i → read_u8 d i = read_u8 d' i.
Proof. unfold read_u8. by intros ->. Qed.

Lemma pixelBrightness_agree (d d' : list Z) (k : nat) :
  (∀ c, c < 3 → d !! (k * 4 + c) = d' !! (k * 4 + c)) →
  pixelBrightness d k = pixelBrightness d' k.
Proof.
  intros Hag. unfold pixelBrightness.
  rewrite (read_u8_agree d d' (k * 4)), (read_u8_agree d d' (k * 4 + 1)),
    (read_u8_agree d d' (k * 4 + 2)); auto with lia.
  rewrite <-(Nat.add_0_r (k * 4)). auto with lia.
Qed.

(** The colour the Threshold effect gives pixel [k]. *)
Lemma threshold_spec (data : list Z) (level : num) :
  length (THRESHOLD data level) = length data ∧
  (∀ k, THRESHOLD data level !! (k * 4 + 3) = data !! (k * 4 + 3)) ∧
  (∀ k c, c < 3 → k * 4 + c < length data →
     THRESHOLD data level !! (k * 4 + c) =
       Some (to_uint8_clamped
               (if (pixelBrightness data k >? level)%js then of_Z 255 else of_Z 0))).
Proof.
  unfold THRESHOLD.
  destruct (pointLoop_spec (thresholdPixel level)
    (λ d k, to_uint8_clamped (if (pixelBrightness d k >? level)%js then of_Z 255 else of_Z 0))) 
    with (d := data) (n := (length data + 3) / 4) as (Hlen & Hframe & Hwrite).
  - intros d k. unfold thresholdPixel. by rewrite !length_insert.
  - intros d k j ???. unfold thresholdPixel. by rewrite !list_lookup_insert_ne by lia.
  - intros d k c Hc Hlt. unfold thresholdPixel. fold (pixelBrightness d k).
    assert (c = 0 ∨ c = 1 ∨ c = 2) as [->|[->| ->]] by lia.
    + rewrite Nat.add_0_r, !list_lookup_insert_ne by lia.
      apply list_lookup_insert_eq. lia.
    + rewrite list_lookup_insert_ne by lia.
      apply list_lookup_insert_eq. rewrite length_insert. lia.
    + apply list_lookup_insert_eq. rewrite !length_insert. lia.
  - intros d d' k Hag. by rewrite (pixelBrightness_agree d d' k).
  - split_and!; [done| |].
    + intros k. apply Hframe. right.
      rewrite Nat.add_comm, Nat.Div0.mod_add. done.
    + intros k c Hc Hlt. apply Hwrite; [|done..].
      apply Nat.div_le_lower_bound; lia.
Qed.

Lemma grayscale_spec (data : list Z) (level : num) :
  length (GRAYSCALE data level) = length data ∧
  (∀ k, GRAYSCALE data level !! (k * 4 + 3) = data !! (k * 4 + 3)) ∧
  (∀ k c, c < 3 → k * 4 + c < length data →
     GRAYSCALE data level !! (k * 4 + c) =
       Some (to_uint8_clamped
               (if (pixelBrightness data k >? level)%js
                then pixelBrightness data k else of_Z 0))).
Proof.
  unfold GRAYSCALE.
  destruct (pointLoop_spec (grayscalePixel level)
    (λ d k, to_uint8_clamped (if (pixelBrightness d k >? level)%js
                              then pixelBrightness d k else of_Z 0)))
    with (d := data) (n := (length data + 3) / 4) as (Hlen & Hframe & Hwrite).
  - intros d k. unfold grayscalePixel. by rewrite !length_insert.
  - intros d k j ???. unfold grayscalePixel. by rewrite !list_lookup_insert_ne by lia.
  - intros d k c Hc Hlt. unfold grayscalePixel. fold (pixelBrightness d k).
    assert (c = 0 ∨ c = 1 ∨ c = 2) as [->|[->| ->]] by lia.
    + rewrite Nat.add_0_r, !list_lookup_insert_ne by lia.
      apply list_lookup_insert_eq. lia.
    + rewrite list_lookup_insert_ne by lia.
      apply list_lookup_insert_eq. rewrite length_insert. lia.
    + apply list_lookup_insert_eq. rewrite !length_insert. lia.
  - intros d d' k Hag. by rewrite (pixelBrightness_agree d d' k).
  - split_and!; [done| |].
    + intros k. apply Hframe. right.
      rewrite Nat.add_comm, Nat.Div0.mod_add. done.
    + intros k c Hc Hlt. apply Hwrite; [|done..].
      apply Nat.div_le_lower_bound; lia.
Qed.

End PointEffects.

(** * Uniform buffers *)

Lemma length_uniformBuffer (r g b : Z) (alphas : list Z) :
  length (uniformBuffer r g b alphas) = length alphas * 4.
Proof. induction alphas as [|a alphas IH]; [done|]. cbn. unfold uniformBuffer in IH. lia. Qed.

Lemma lookup_uniformBuffer (r g b : Z) (alphas : list Z) (k c : nat) :
  c < 4 →
  uniformBuffer r g b alphas !! (k * 4 + c) =
    (λ a, match c with 0 => r | 1 => g | 2 => b | _ => a end) <$> alphas !! k.
Proof.
  intros Hc. revert k. induction alphas as [|a alphas IH]; intros k; [done|].
  destruct k as [|k].
  - cbn. by destruct c as [|[|[|[|c]]]]; [..|lia].
  - replace (S k * 4 + c) with (4 + (k * 4 + c)) by lia. apply IH.
Qed.

(** Two buffers of whole pixels are equal when they agree channel by
    channel. *)
Lemma buffer_eq (d d' : list Z) :
  length d = length d' →
  (∀ k c, c < 4 → k * 4 + c < length d → d !! (k * 4 + c) = d' !! (k * 4 + c)) →
  d = d'.
Proof.
  intros Hlen Hag. apply list_eq. intros j.
  destruct (decide (j < length d)) as [Hj|Hj].
  - rewrite (Nat.div_mod_eq j 4), (Nat.mul_comm 4). apply Hag.
    + apply Nat.mod_upper_bound. lia.
    + rewrite Nat.mul_comm, <-Nat.div_mod_eq. done.
  - rewrite !lookup_ge_None_2; [done|lia..].
Qed.

Lemma luminance_gray_binary64 :
  luminance (num := float) (of_Z 128) (of_Z 128) (of_Z 128) = of_Z 128.
Proof. vm_compute. reflexivity. Qed.

Lemma luminance_gray_exact :
  luminance (num := Qc) (of_Z 128) (of_Z 128) (of_Z 128) = of_Z 128.
Proof. apply Qc_is_canon. vm_compute. reflexivity. Qed.

Lemma threshold_uniform_gray {num : Type} `{Number num} (alphas : list Z) :
  (luminance (of_Z 128) (of_Z 128) (of_Z 128) >? of_Z 128)%js = false →
  to_uint8_clamped (of_Z 0) = 0%Z →
  THRESHOLD (uniformBuffer 128 128 128 alphas) (of_Z 128) = uniformBuffer 0 0 0 alphas.
Proof.
  intros Hlum Hzero.
  destruct (threshold_spec (uniformBuffer 128 128 128 alphas) (of_Z 128))
    as (Hlen & Halpha & Hrgb).
  apply buffer_eq.
  - by rewrite Hlen, !length_uniformBuffer.
  - intros k c Hc Hlt. rewrite Hlen, length_uniformBuffer in Hlt.
    destruct (decide (c = 3)) as [->|Hne].
    + by rewrite Halpha, !lookup_uniformBuffer by lia.
    + rewrite Hrgb by (rewrite ?length_uniformBuffer; lia).
      assert (pixelBrightness (uniformBuffer 128 128 128 alphas) k
              = luminance (of_Z 128) (of_Z 128) (of_Z 128)) as ->.
      { unfold pixelBrightness, read_u8.
        rewrite <-(Nat.add_0_r (k * 4)) at 1.
        rewrite !lookup_uniformBuffer by lia.
        destruct (alphas !! k) as [a|] eqn:Hk; [done|].
        apply lookup_ge_None_1 in Hk. lia. }
      rewrite Hlum, Hzero, lookup_uniformBuffer by lia.
      destruct (alphas !! k) as [a|] eqn:Hk.
      * by destruct c as [|[|[|c]]]; [..|lia].
      * apply lookup_ge_None_1 in Hk. lia.
Qed.

(** * Index arithmetic of row-major buffers *)

Lemma raster_index_inj (w x y x' y' : nat) :
  x < w → x' < w → y * w + x = y' * w + x' → y = y' ∧ x = x'.
Proof.
  intros Hx Hx' Heq.
  assert (y = y') as ->; [|lia].
  destruct (Nat.lt_trichotomy y y') as [Hlt|[->|Hlt]]; [|done|]; nia.
Qed.

Lemma raster_index_lt (w h x y : nat) : x < w → y < h → y * w + x < w * h.
Proof. intros. nia. Qed.

Section Diffusion.

Context {num : Type} `{Number num}.

Lemma read_add_at (p : list num) (n j : nat) (v : num) :
  n < length p →
  read_f32 (add_at p n v) j =
    if decide (j = n) then fround (read_f32 p n + v)%js else read_f32 p j.
Proof.
  intros Hn. unfold add_at, read_f32 at 1. case_decide as Hj.
  - subst j. by rewrite list_lookup_insert_eq.
  - by rewrite list_lookup_insert_ne.
Qed.

Lemma length_add_at (p : list num) (n : nat) (v : num) : length (add_at p n v) = length p.
Proof. apply length_insert. Qed.

Lemma length_diffuseColor (err : Color) (df : num) (p : list num) (n : nat) (wgt : Z) :
  length (diffuseColor err df p n wgt) = length p.
Proof. unfold diffuseColor. by rewrite !length_add_at. Qed.

Lemma length_diffuseColor_if (b : bool) (err : Color) (df : num) (p : list num)
    (n : nat) (wgt : Z) :
  length (if b then diffuseColor err df p n wgt else p) = length p.
Proof. destruct b; [apply length_diffuseColor|done]. Qed.

(** One neighbour update, read back by pixel coordinates. *)
Lemma read_diffuseColor (err : Color) (df : num) (p : list num) (w xn yn x' y' c : nat) (wgt : Z) :
  xn < w → x' < w → c < 3 → (yn * w + xn) * 3 + 2 < length p →
  read_f32 (diffuseColor err df p ((yn * w + xn) * 3) wgt) ((y' * w + x') * 3 + c) =
    if decide (x' = xn ∧ y' = yn)
    then fround (read_f32 p ((y' * w + x') * 3 + c) + channel c err * of_Z wgt * df)%js
    else read_f32 p ((y' * w + x') * 3 + c).
Proof.
  intros Hxn Hx' Hc Hlen. unfold diffuseColor.
  rewrite !read_add_at by (rewrite ?length_add_at; lia).
  destruct (decide (x' = xn ∧ y' = yn)) as [[-> ->]|Hpix].
  - assert (c = 0 ∨ c = 1 ∨ c = 2) as [->|[->| ->]] by lia; cbn [channel].
    + rewrite Nat.add_0_r. repeat (case_decide; try lia). done.
    + repeat (case_decide; try lia). done.
    + repeat (case_decide; try lia). done.
  - assert (y' * w + x' ≠ yn * w + xn) as Hne.
    { intros Heq. apply raster_index_inj in Heq as [-> ->]; [|done..]. by apply Hpix. }
    repeat (case_decide; try lia). done.
Qed.

Lemma read_diffuseColor_if (b : bool) (err : Color) (df : num) (p : list num)
    (w xn yn x' y' c : nat) (wgt : Z) :
  x' < w → c < 3 → (b = true → xn < w ∧ (yn * w + xn) * 3 + 2 < length p) →
  read_f32 (if b then diffuseColor err df p ((yn * w + xn) * 3) wgt else p)
           ((y' * w + x') * 3 + c) =
    if decide (b = true ∧ x' = xn ∧ y' = yn)
    then fround (read_f32 p ((y' * w + x') * 3 + c) + channel c err * of_Z wgt * df)%js
    else read_f32 p ((y' * w + x') * 3 + c).
Proof.
  intros Hx' Hc Hb. destruct b.
  - destruct Hb as [? ?]; [done|]. rewrite read_diffuseColor by done.
    repeat case_decide; first [done | exfalso; intuition congruence].
  - case_decide; first [done | exfalso; intuition congruence].
Qed.

(** The colour variant: what one turn of the double loop does to the
    scratch buffer. *)
Lemma ditherColorPixel_scratch (w h : nat) (palette : list Color) (factor : num)
    (pixelData : list num) (d : list Z) (x y : nat) (newColor : Color) :
  x < w → y < h → length pixelData = w * h * 3 →
  findClosestColor (scratchColor pixelData w (y, x)) palette = Some newColor →
  ∃ pixelData' d',
    ditherColorPixel w h palette factor (pixelData, d) y x = Some (pixelData', d') ∧
    length pixelData' = length pixelData ∧
    ∀ x' y' c, x' < w → y' < h → c < 3 →
      read_f32 pixelData' ((y' * w + x') * 3 + c) =
        match fsWeight (Z.of_nat x' - Z.of_nat x) (Z.of_nat y' - Z.of_nat y) with
        | Some weight =>
            fround (read_f32 pixelData ((y' * w + x') * 3 + c) +
                    channel c (colorError (scratchColor pixelData w (y, x)) newColor) *
                    of_Z weight * (factor / of_Z 16))%js
        | None => read_f32 pixelData ((y' * w + x') * 3 + c)
        end.
Proof.
  intros Hx Hy Hlen Hfind. unfold ditherColorPixel.
  unfold scratchColor in Hfind. cbn [fst snd] in Hfind. rewrite Hfind. cbn [mbind option_bind].
  eexists _, _. split; [reflexivity|]. 
  fold (colorError (scratchColor pixelData w (y, x)) newColor).
  set (err := colorError _ _). set (df := (factor / of_Z 16)%js).
  split.
  { by rewrite !length_diffuseColor_if. }
  intros x' y' c Hx' Hy' Hc.
  assert (Hbound : ∀ xn yn, xn < w → yn < h → (yn * w + xn) * 3 + 2 < w * h * 3).
  { intros xn yn ? ?. pose proof (raster_index_lt w h xn yn). lia. }
  replace ((y * w + x) * 3 + w * 3 + 3) with (((y + 1) * w + (x + 1)) * 3) by lia.
  replace ((y * w + x) * 3 + w * 3) with (((y + 1) * w + x) * 3) by lia.
  replace ((y * w + x) * 3 + 3) with ((y * w + (x + 1)) * 3) by lia.
  destruct (decide (0 < x)) as [Hx0|Hx0].
  - replace (((y + 1) * w + x) * 3 - 3) with (((y + 1) * w + (x - 1)) * 3) by lia.
    rewrite !read_diffuseColor_if;
      try done;
      try (intros Hb%bool_decide_eq_true; rewrite ?length_diffuseColor_if, Hlen;
           split; [lia|apply Hbound; lia]).
    unfold fsWeight.
    repeat (case_bool_decide || case_decide); try done; try lia; naive_solver lia.
  - rewrite (bool_decide_eq_false_2 (y + 1 < h ∧ 0 < x)) by lia.
    rewrite !read_diffuseColor_if;
      try done;
      try (intros Hb%bool_decide_eq_true; rewrite ?length_diffuseColor_if, Hlen;
           split; [lia|apply Hbound; lia]).
    unfold fsWeight.
    repeat (case_bool_decide || case_decide); try done; try lia; naive_solver lia.
Qed.

Lemma length_add_at_if (b : bool) (p : list num) (n : nat) (v : num) :
  length (if b then add_at p n v else p) = length p.
Proof. destruct b; [apply length_add_at|done]. Qed.

Lemma read_add_at_if (b : bool) (p : list num) (w xn yn x' y' : nat) (v : num) :
  x' < w → (b = true → xn < w ∧ yn * w + xn < length p) →
  read_f32 (if b then add_at p (yn * w + xn) v else p) (y' * w + x') =
    if decide (b = true ∧ x' = xn ∧ y' = yn)
    then fround (read_f32 p (y' * w + x') + v)%js
    else read_f32 p (y' * w + x').
Proof.
  intros Hx' Hb. destruct b.
  - destruct Hb as [Hxn Hlen]; [done|]. rewrite read_add_at by done.
    destruct (decide (x' = xn ∧ y' = yn)) as [[-> ->]|Hpix].
    + rewrite decide_True by done. by rewrite decide_True by done.
    + rewrite decide_False; [by rewrite decide_False by tauto|].
      intros Heq. apply raster_index_inj in Heq as [-> ->]; [|done..]. by apply Hpix.
  - by rewrite decide_False by (intros [? _]; done).
Qed.

Lemma read_add_at_pixel (p : list num) (w xn yn x' y' : nat) (v : num) :
  x' < w → xn < w → yn * w + xn < length p →
  read_f32 (add_at p (yn * w + xn) v) (y' * w + x') =
    if decide (x' = xn ∧ y' = yn)
    then fround (read_f32 p (y' * w + x') + v)%js
    else read_f32 p (y' * w + x').
Proof.
  intros Hx' Hxn Hlen.
  rewrite (read_add_at_if true) by done.
  destruct (decide (x' = xn ∧ y' = yn)).
  - by rewrite decide_True by done.
  - by rewrite decide_False by tauto.
Qed.

(** The black-and-white variant: what one turn of the double loop does to
    the scratch buffer. *)
Lemma ditherBWPixel_scratch (w h : nat) (factor : num) (darkColor lightColor : Color)
    (grayscale : list num) (d : list Z) (x y : nat) :
  x < w → y < h → length grayscale = w * h →
  let oldPixel := read_f32 grayscale (y * w + x) in
  let newPixelValue := if (oldPixel >? decimal 1275 1)%js then of_Z 255 else of_Z 0 in
  let quantError := (oldPixel - newPixelValue)%js in
  let grayscale' := (ditherBWPixel w h factor darkColor lightColor (grayscale, d) y x).1 in
  length grayscale' = length grayscale ∧
  ∀ x' y', x' < w → y' < h →
    read_f32 grayscale' (y' * w + x') =
      match fsWeight (Z.of_nat x' - Z.of_nat x) (Z.of_nat y' - Z.of_nat y) with
      | Some weight =>
          fround (read_f32 grayscale (y' * w + x') +
                  quantError * factor / of_Z 16 * of_Z weight)%js
      | None => read_f32 grayscale (y' * w + x')
      end.
Proof.
  intros Hx Hy Hlen oldPixel newPixelValue quantError. unfold ditherBWPixel.
  fold oldPixel. fold newPixelValue. fold quantError. cbv zeta. cbn [fst].
  set (de := (quantError * factor / of_Z 16)%js).
  assert (Hbound : ∀ xn yn, xn < w → yn < h → yn * w + xn < w * h).
  { intros xn yn ? ?. by apply raster_index_lt. }
  replace (y * w + x + w + 1) with ((y + 1) * w + (x + 1)) by lia.
  replace (y * w + x + w) with ((y + 1) * w + x) in * by lia.
  replace (y * w + x + 1) with (y * w + (x + 1)) by lia.
  destruct (bool_decide (y + 1 < h)) eqn:Hyh.
  - apply bool_decide_eq_true in Hyh.
    split; [by rewrite length_add_at_if, length_add_at, !length_add_at_if|].
    intros x' y' Hx' Hy'.
    rewrite read_add_at_if; [|done|];
      [|intros Hb%bool_decide_eq_true;
        rewrite length_add_at, !length_add_at_if, Hlen; split; [lia|apply Hbound; lia]].
    rewrite read_add_at_pixel; [|done..|];
      [|rewrite !length_add_at_if, Hlen; apply Hbound; lia].
    destruct (decide (0 < x)) as [Hx0|Hx0].
    + replace ((y + 1) * w + x - 1) with ((y + 1) * w + (x - 1)) by lia.
      rewrite !read_add_at_if; try done;
        try (intros Hb%bool_decide_eq_true;
             rewrite ?length_add_at_if, Hlen; split; [lia|apply Hbound; lia]).
      unfold fsWeight.
      repeat (case_bool_decide || case_decide); try done; try lia;
        try (exfalso; naive_solver lia).
    + rewrite (bool_decide_eq_false_2 (0 < x)) by lia.
      rewrite !read_add_at_if; try done;
        try (intros Hb%bool_decide_eq_true;
             rewrite ?length_add_at_if, Hlen; split; [lia|apply Hbound; lia]).
      unfold fsWeight.
      repeat (case_bool_decide || case_decide); try done; try lia;
        try (exfalso; naive_solver lia).
  - apply bool_decide_eq_false in Hyh.
    split; [by rewrite length_add_at_if|].
    intros x' y' Hx' Hy'.
    rewrite !read_add_at_if; try done;
      try (intros Hb%bool_decide_eq_true;
           rewrite ?length_add_at_if, Hlen; split; [lia|apply Hbound; lia]).
    unfold fsWeight.
    repeat (case_bool_decide || case_decide); try done; try lia;
      try (exfalso; naive_solver lia).
Qed.

End Diffusion.

(** * Loops in raster order *)

Lemma foldl_bind {A B C : Type} (g : A → C → A) (k : B → list C) (l : list B) (a : A) :
  foldl g a (l ≫= k) = foldl (λ a b, foldl g a (k b)) a l.
Proof.
  revert a. induction l as [|b l IH]; intros a; [done|].
  cbn. by rewrite foldl_app, IH.
Qed.

Lemma foldlM_app {A B : Type} (f : A → B → option A) (l k : list B) (a : A) :
  foldlM f a (l ++ k) = foldlM f a l ≫= λ a', foldlM f a' k.
Proof.
  revert a. induction l as [|b l IH]; intros a; [done|].
  cbn. destruct (f a b) as [a'|]; [apply IH|done].
Qed.

Lemma foldlM_bind {A B C : Type} (g : A → C → option A) (k : B → list C) (l : list B) (a : A) :
  foldlM g a (l ≫= k) = foldlM (λ a b, foldlM g a (k b)) a l.
Proof.
  revert a. induction l as [|b l IH]; intros a; [done|].
  cbn. rewrite foldlM_app. destruct (foldlM g a (k b)) as [a'|]; [apply IH|done].
Qed.

Lemma foldl_ext {A B : Type} (f g : A → B → A) (l : list B) (a : A) :
  (∀ a b, f a b = g a b) → foldl f a l = foldl g a l.
Proof.
  intros Hfg. revert a. induction l as [|b l IH]; intros a; [done|].
  cbn. by rewrite Hfg, IH.
Qed.

Lemma foldlM_ext {A B : Type} (f g : A → B → option A) (l : list B) (a : A) :
  (∀ a b, f a b = g a b) → foldlM f a l = foldlM g a l.
Proof.
  intros Hfg. revert a. induction l as [|b l IH]; intros a; [done|].
  cbn. rewrite Hfg. destruct (g a b); [apply IH|done].
Qed.

Lemma foldl_raster {A : Type} (f : A → nat → nat → A) (w h : nat) (a : A) :
  foldl (λ a y, foldl (λ a x, f a y x) a (seq 0 w)) a (seq 0 h)
  = foldl (λ a p, f a p.1 p.2) a (raster w h).
Proof.
  unfold raster. rewrite foldl_bind. apply foldl_ext.
  intros a' y. by rewrite foldl_bind.
Qed.

Lemma foldlM_raster {A : Type} (f : A → nat → nat → option A) (w h : nat) (a : A) :
  foldlM (λ a y, foldlM (λ a x, f a y x) a (seq 0 w)) a (seq 0 h)
  = foldlM (λ a p, f a p.1 p.2) a (raster w h).
Proof.
  unfold raster. rewrite foldlM_bind. apply foldlM_ext.
  intros a' y. rewrite foldlM_bind. apply foldlM_ext.
  intros a'' x. cbn. by destruct (f a'' y x).
Qed.

Lemma elem_of_raster (w h y x : nat) : (y, x) ∈ raster w h ↔ y < h ∧ x < w.
Proof.
  unfold raster. rewrite list_elem_of_bind. split.
  - intros (y' & Hin & Hy'%elem_of_seq). apply list_elem_of_bind in Hin as (x' & Hin & Hx'%elem_of_seq).
    apply list_elem_of_singleton in Hin as [= -> ->]. lia.
  - intros [Hy Hx]. exists y. split; [|apply elem_of_seq; lia].
    apply list_elem_of_bind. exists x. split; [by apply list_elem_of_singleton|apply elem_of_seq; lia].
Qed.

(** An invariant of a loop whose body may throw: it holds of the elements
    already visited, and the loop does not throw. *)
Lemma foldlM_invariant {A B : Type} (f : A → B → option A) (P : list B → A → Prop)
    (l : list B) (a : A) :
  P [] a →
  (∀ pre b a, P pre a → b ∈ l → ∃ a', f a b = Some a' ∧ P (pre ++ [b]) a') →
  ∃ a', foldlM f a l = Some a' ∧ P l a'.
Proof.
  intros Hinit Hstep.
  assert (∀ suf pre a, pre ++ suf = l → P pre a → ∃ a', foldlM f a suf = Some a' ∧ P l a') as Hgen.
  { induction suf as [|b suf IH]; intros pre a0 Hl HP.
    - rewrite app_nil_r in Hl. subst pre. by exists a0.
    - destruct (Hstep pre b a0 HP) as (a1 & Hf & HP1).
      { rewrite <-Hl. apply elem_of_app. right. apply list_elem_of_here. }
      cbn. rewrite Hf. cbn. apply (IH (pre ++ [b])); [|done].
      by rewrite <-app_assoc. }
  by apply (Hgen l []).
Qed.

Lemma foldl_invariant {A B : Type} (f : A → B → A) (P : list B → A → Prop)
    (l : list B) (a : A) :
  P [] a →
  (∀ pre b a, P pre a → b ∈ l → P (pre ++ [b]) (f a b)) →
  P l (foldl f a l).
Proof.
  intros Hinit Hstep.
  assert (∀ suf pre a, pre ++ suf = l → P pre a → P l (foldl f a suf)) as Hgen.
  { induction suf as [|b suf IH]; intros pre a0 Hl HP.
    - rewrite app_nil_r in Hl. by subst pre.
    - cbn. apply (IH (pre ++ [b])); [by rewrite <-app_assoc|].
      apply Hstep; [done|]. rewrite <-Hl. apply elem_of_app. right. apply list_elem_of_here. }
  by apply (Hgen l []).
Qed.

(** * The nearest palette colour is a palette colour *)

Section Closest.

Context {num : Type} `{Number num}.

Lemma findClosestColor_loop_elem (color : Color) (l : list Color) (st : option Color * option num) :
  (foldl (findClosestColor_step color) st l).1 = st.1 ∨
  ∃ p, p ∈ l ∧ (foldl (findClosestColor_step color) st l).1 = Some p.
Proof.
  revert st. induction l as [|q l IH]; intros st; [by left|].
  cbn [foldl]. destruct (IH (findClosestColor_step color st q)) as [Heq|(p & Hin & Heq)].
  - rewrite Heq. unfold findClosestColor_step.
    destruct (closer _ _); [|by left].
    right. exists q. split; [apply list_elem_of_here|done].
  - right. exists p. split; [by apply list_elem_of_further|done].
Qed.

Lemma findClosestColor_elem (color : Color) (palette : list Color) :
  palette ≠ [] → ∃ c, findClosestColor color palette = Some c ∧ c ∈ palette.
Proof.
  intros Hne. unfold findClosestColor.
  destruct (findClosestColor_loop_elem color palette (head palette, None))
    as [Heq|(p & Hin & Heq)].
  - destruct palette as [|p palette]; [done|].
    exists p. split; [by rewrite Heq|apply list_elem_of_here].
  - by exists p.
Qed.

End Closest.

(** * Palette dithering: the image data *)

Lemma pixel_index_split (w h j : nat) :
  j < w * h → ∃ y x, y < h ∧ x < w ∧ j = y * w + x.
Proof.
  intros Hj. assert (0 < w) by nia.
  exists (j `div` w), (j `mod` w). split_and!.
  - apply Nat.Div0.div_lt_upper_bound. lia.
  - apply Nat.mod_upper_bound. lia.
  - rewrite (Nat.div_mod_eq j w) at 1. lia.
Qed.

Section DitherData.

Context {num : Type} `{Number num}.

(** The three stores of a quantised colour at pixel [k]. *)
Lemma lookup_store_pixel (d : list Z) (k k' c : nat) (v0 v1 v2 : Z) :
  k * 4 + 2 < length d → c < 4 →
  <[k * 4 + 2 := v2]> (<[k * 4 + 1 := v1]> (<[k * 4 := v0]> d)) !! (k' * 4 + c) =
    if decide (k' = k ∧ c < 3)
    then Some (match c with 0 => v0 | 1 => v1 | _ => v2 end)
    else d !! (k' * 4 + c).
Proof.
  intros Hlen Hc. case_decide as Hk.
  - destruct Hk as [-> Hc3].
    assert (c = 0 ∨ c = 1 ∨ c = 2) as [->|[->| ->]] by lia.
    + rewrite Nat.add_0_r, !list_lookup_insert_ne by lia.
      apply list_lookup_insert_eq. lia.
    + rewrite list_lookup_insert_ne by lia.
      apply list_lookup_insert_eq. rewrite length_insert. lia.
    + apply list_lookup_insert_eq. rewrite !length_insert. lia.
  - rewrite !list_lookup_insert_ne; [done|lia..].
Qed.

(** The image data after one turn of the double loop. *)
Lemma ditherColorPixel_data (w h : nat) (palette : list Color) (factor : num)
    (pixelData : list num) (d : list Z) (x y : nat) (newColor : Color) :
  findClosestColor (scratchColor pixelData w (y, x)) palette = Some newColor →
  ∃ pixelData',
    ditherColorPixel w h palette factor (pixelData, d) y x =
      Some (pixelData',
            <[(y * w + x) * 4 + 2 := to_uint8_clamped newColor.2]>
              (<[(y * w + x) * 4 + 1 := to_uint8_clamped newColor.1.2]>
                 (<[(y * w + x) * 4 := to_uint8_clamped newColor.1.1]> d))).
Proof.
  intros Hfind. unfold ditherColorPixel.
  unfold scratchColor in Hfind. cbn [fst snd] in Hfind. rewrite Hfind.
  cbn [mbind option_bind]. by eexists.
Qed.

(** The double loop under an invariant [I] of the scratch buffer that
    makes the quantiser return a colour satisfying [Q]: the loop does not
    throw, every pixel ends as a stored colour satisfying [Q], and the
    alpha channels are untouched. *)
Lemma ditherColorLoop_invariant (w h : nat) (palette : list Color) (factor : num)
    (I : list num → Prop) (Q : Color → Prop) (pixelData : list num) (d : list Z) :
  (∀ pd, I pd → length pd = w * h * 3) →
  (∀ pd x y, I pd → x < w → y < h →
     ∃ newColor, findClosestColor (scratchColor pd w (y, x)) palette = Some newColor ∧
                 Q newColor) →
  (∀ pd d0 x y pd' d', I pd → x < w → y < h →
     ditherColorPixel w h palette factor (pd, d0) y x = Some (pd', d') → I pd') →
  I pixelData → length d = w * h * 4 →
  ∃ pixelData' d',
    ditherColorLoop w h palette factor (pixelData, d) = Some (pixelData', d') ∧
    I pixelData' ∧
    length d' = length d ∧
    (∀ k, d' !! (k * 4 + 3) = d !! (k * 4 + 3)) ∧
    ∀ x y, x < w → y < h →
      ∃ c, Q c ∧
        d' !! ((y * w + x) * 4) = Some (storedColor c).1.1 ∧
        d' !! ((y * w + x) * 4 + 1) = Some (storedColor c).1.2 ∧
        d' !! ((y * w + x) * 4 + 2) = Some (storedColor c).2.
Proof.
  intros HIlen HQ HI HI0 Hld. unfold ditherColorLoop. rewrite foldlM_raster.
  destruct (foldlM_invariant
    (λ st p, ditherColorPixel w h palette factor st p.1 p.2)
    (λ pre st, I st.1 ∧ length st.2 = w * h * 4 ∧
       (∀ k, st.2 !! (k * 4 + 3) = d !! (k * 4 + 3)) ∧
       ∀ p, p ∈ pre → p.2 < w →
         ∃ c, Q c ∧
           st.2 !! ((p.1 * w + p.2) * 4) = Some (storedColor c).1.1 ∧
           st.2 !! ((p.1 * w + p.2) * 4 + 1) = Some (storedColor c).1.2 ∧
           st.2 !! ((p.1 * w + p.2) * 4 + 2) = Some (storedColor c).2)
    (raster w h) (pixelData, d)) as ([pd' d'] & Hrun & HI' & Hld' & Halpha & Hpix).
  - split_and!; [done..|]. intros p Hp. by apply elem_of_nil in Hp.
  - intros pre [y x] [pd0 d0] (HIpd & Hl2 & Halpha & IH) [Hy Hx]%elem_of_raster.
    cbn [fst snd] in *.
    destruct (HQ pd0 x y HIpd Hx Hy) as (newColor & Hfind & HQc).
    destruct (ditherColorPixel_data w h palette factor pd0 d0 x y newColor Hfind)
      as (pd1 & Hstep).
    eexists. split; [done|]. cbn [fst snd].
    assert (Hin_range : (y * w + x) * 4 + 2 < length d0).
    { pose proof (raster_index_lt w h x y Hx Hy). lia. }
    split_and!.
    + by eapply HI.
    + by rewrite !length_insert.
    + intros k. rewrite lookup_store_pixel by (done || lia).
      rewrite decide_False by lia. apply Halpha.
    + unfold storedColor in *. cbn [fst snd] in *.
      intros [y' x'] [Hp| ->%list_elem_of_singleton]%elem_of_app Hx'; cbn [fst snd] in *.
      * destruct (decide (y' * w + x' = y * w + x)) as [Heq|Hneq].
        -- exists newColor. split; [done|].
           rewrite Heq. rewrite <-(Nat.add_0_r ((y * w + x) * 4)) at 1.
           rewrite !lookup_store_pixel by (done || lia).
           by rewrite !decide_True by lia.
        -- destruct (IH (y', x') Hp Hx') as (c & Hc & H0 & H1 & H2).
           exists c. split; [done|]. cbn [fst snd] in *.
           rewrite <-(Nat.add_0_r ((y' * w + x') * 4)) at 1.
           rewrite !lookup_store_pixel by (done || lia).
           rewrite !decide_False by lia. by rewrite Nat.add_0_r.
      * exists newColor. split; [done|].
        rewrite <-(Nat.add_0_r ((y * w + x) * 4)) at 1.
        rewrite !lookup_store_pixel by (done || lia).
        by rewrite !decide_True by lia.
  - exists pd', d'. cbn [fst snd] in *. split_and!; [done|done|lia|done|].
    intros x y Hx Hy. apply (Hpix (y, x)); [|done]. by apply elem_of_raster.
Qed.

(** Every pixel holds a stored palette colour, and the loop never throws
    on a non-empty palette. *)
Lemma ditherColorLoop_palette (w h : nat) (palette : list Color) (factor : num)
    (pixelData : list num) (d : list Z) :
  palette ≠ [] → length pixelData = w * h * 3 → length d = w * h * 4 →
  ∃ pixelData' d',
    ditherColorLoop w h palette factor (pixelData, d) = Some (pixelData', d') ∧
    length d' = length d ∧
    (∀ k, d' !! (k * 4 + 3) = d !! (k * 4 + 3)) ∧
    ∀ x y, x < w → y < h →
      ∃ c, c ∈ palette ∧
        d' !! ((y * w + x) * 4) = Some (storedColor c).1.1 ∧
        d' !! ((y * w + x) * 4 + 1) = Some (storedColor c).1.2 ∧
        d' !! ((y * w + x) * 4 + 2) = Some (storedColor c).2.
Proof.
  intros Hne Hlp Hld.
  destruct (ditherColorLoop_invariant w h palette factor
              (λ pd, length pd = w * h * 3) (λ c, c ∈ palette) pixelData d)
    as (pd' & d' & Hrun & _ & Hrest); [done| | |done|done|by exists pd', d'].
  - intros pd x y _ _ _. by apply findClosestColor_elem.
  - intros pd d0 x y pd1 d1 Hl Hx Hy Hstep.
    destruct (findClosestColor_elem (scratchColor pd w (y, x)) palette Hne)
      as (newColor & Hfind & _).
    destruct (ditherColorPixel_scratch w h palette factor pd d0 x y newColor)
      as (pd2 & d2 & Hstep' & Hl' & _); [done..|].
    rewrite Hstep in Hstep'. injection Hstep' as -> ->. lia.
Qed.

End DitherData.

Section InitScratch.

Context {num : Type} `{Number num}.

Lemma initPixelData_spec (d : list Z) (cells n : nat) :
  let pixelData :=
    foldl (λ pixelData i,
             <[i * 3 + 2 := fround (read_u8 d (i * 4 + 2))]>
               (<[i * 3 + 1 := fround (read_u8 d (i * 4 + 1))]>
                  (<[i * 3 := fround (read_u8 d (i * 4))]> pixelData)))
          (replicate cells (of_Z 0)) (seq 0 n) in
  length pixelData = cells ∧
  ∀ k c, c < 3 → k * 3 + c < cells →
    pixelData !! (k * 3 + c) =
      Some (if decide (k < n) then fround (read_u8 d (k * 4 + c)) else of_Z 0).
Proof.
  induction n as [|n [IHlen IH]]; cbn zeta.
  - split; [apply length_replicate|]. intros k c Hc Hlt.
    rewrite decide_False by lia. by apply lookup_replicate_2.
  - rewrite seq_S, foldl_app. cbn [foldl Nat.add]. cbn zeta in IHlen, IH.
    set (p := foldl _ _ (seq 0 n)) in *.
    split; [by rewrite !length_insert|].
    intros k c Hc Hlt. destruct (decide (k = n)) as [->|Hne].
    + rewrite decide_True by lia.
      assert (c = 0 ∨ c = 1 ∨ c = 2) as [->|[->| ->]] by lia.
      * rewrite !Nat.add_0_r, !list_lookup_insert_ne by lia.
        apply list_lookup_insert_eq. lia.
      * rewrite list_lookup_insert_ne by lia.
        apply list_lookup_insert_eq. rewrite length_insert. lia.
      * apply list_lookup_insert_eq. rewrite !length_insert. lia.
    + rewrite !list_lookup_insert_ne by lia. rewrite IH by done.
      f_equal. repeat case_decide; done || lia.
Qed.

Lemma length_initPixelData (d : list Z) (w h : nat) :
  length (initPixelData d w h) = w * h * 3.
Proof. apply (initPixelData_spec d (w * h * 3) (w * h)). Qed.

Lemma read_initPixelData (d : list Z) (w h k c : nat) :
  c < 3 → k < w * h →
  read_f32 (initPixelData d w h) (k * 3 + c) = fround (read_u8 d (k * 4 + c)).
Proof.
  intros Hc Hk. unfold read_f32, initPixelData.
  destruct (initPixelData_spec d (w * h * 3) (w * h)) as [_ Hread].
  rewrite Hread by lia. by rewrite decide_True by done.
Qed.

Lemma applyDitheringColor_palette (d : list Z) (w h : nat) (palette : list Color)
    (factor : num) :
  palette ≠ [] → length d = w * h * 4 →
  ∃ out,
    applyDitheringColor d w h palette factor = Some out ∧
    length out = length d ∧
    (∀ k, out !! (k * 4 + 3) = d !! (k * 4 + 3)) ∧
    ∀ x y, x < w → y < h →
      ∃ c, c ∈ palette ∧
        out !! ((y * w + x) * 4) = Some (storedColor c).1.1 ∧
        out !! ((y * w + x) * 4 + 1) = Some (storedColor c).1.2 ∧
        out !! ((y * w + x) * 4 + 2) = Some (storedColor c).2.
Proof.
  intros Hne Hlen. unfold applyDitheringColor.
  destruct (ditherColorLoop_palette w h palette factor (initPixelData d w h) d)
    as (pd' & d' & Hrun & Hrest); [done|apply length_initPixelData|done|].
  exists d'. by rewrite Hrun.
Qed.

End InitScratch.

(** * Bytes are stored faithfully *)

Lemma Qred_inject_Z (z : Z) : Qred (inject_Z z) = inject_Z z.
Proof.
  unfold inject_Z, Qred. cbn [Qnum Qden].
  pose proof (Z.ggcd_correct_divisors z 1) as Hdiv.
  pose proof (Z.ggcd_gcd z 1) as Hgcd. rewrite Z.gcd_1_r in Hgcd.
  destruct (Z.ggcd z 1) as [g [a b]]. cbn [fst snd] in *. subst g.
  destruct Hdiv as [-> Hb]. assert (b = 1%Z) as -> by lia.
  by rewrite Z.mul_1_l.
Qed.

Lemma byte_faithful_exact : byte_faithful (num := Qc).
Proof.
  intros b Hb. cbn. unfold Exact.to_uint8_clamped, Exact.of_Z, Exact.round_half_even.
  cbn [this Q2Qc]. rewrite Qred_inject_Z, Qfloor_Z.
  assert ((inject_Z b - inject_Z b ?= 1 # 2)%Q = Lt) as ->.
  { apply (proj1 (Qlt_alt _ _)). lra. }
  unfold clamp_uint8. lia.
Qed.

Lemma byte_faithful_binary64 : byte_faithful (num := float).
Proof.
  assert (all_bytes (λ b, Z.eqb (to_uint8_clamped (num := float) (of_Z b)) b) = true)
    as Hall by (vm_compute; reflexivity).
  unfold all_bytes in Hall.
  intros b Hb. apply Z.eqb_eq.
  rewrite forallb_forall in Hall. apply Hall.
  apply list_elem_of_In, elem_of_seqZ. lia.
Qed.

(** * Exact arithmetic *)

Lemma exact_ltb_lt (a b : Qc) : Exact.ltb a b = true ↔ (a < b)%Qc.
Proof.
  unfold Exact.ltb, Qclt, Qccompare. rewrite Qlt_alt.
  destruct (a ?= b)%Q; split; congruence.
Qed.

Lemma exact_ltb_ge (a b : Qc) : Exact.ltb a b = false ↔ (b <= a)%Qc.
Proof.
  rewrite <-not_true_iff_false, exact_ltb_lt. split.
  - apply Qcnot_lt_le.
  - intros Hle Hlt. by apply (Qcle_not_lt _ _ Hle).
Qed.

Lemma exact_eqb_eq (a b : Qc) : Exact.eqb a b = true ↔ a = b.
Proof.
  unfold Exact.eqb, Qccompare. split.
  - destruct (a ?= b)%Q eqn:Hc; try done. intros _.
    apply Qc_is_canon. by apply Qeq_alt.
  - intros ->. assert ((b ?= b)%Q = Eq) as -> by (by apply Qeq_alt). done.
Qed.

Lemma Qc_square_nonneg (a : Qc) : (0 <= a * a)%Qc.
Proof.
  unfold Qcle. cbn. rewrite !Qred_correct. nra.
Qed.

Lemma Qc_square_zero (a : Qc) : (a * a = 0)%Qc → a = 0%Qc.
Proof.
  intros Hsq. apply Qc_is_canon. 
  assert (a * a == 0)%Q as Hq.
  { rewrite <-(Qred_correct (a * a)). by injection Hsq as ->. }
  cbn. by destruct (Qmult_integral _ _ Hq).
Qed.

Lemma Qc_sum_squares_zero (a b c : Qc) :
  (a * a + b * b + c * c <= 0)%Qc → a = 0%Qc ∧ b = 0%Qc ∧ c = 0%Qc.
Proof.
  intros Hle.
  pose proof (Qc_square_nonneg a) as Ha.
  pose proof (Qc_square_nonneg b) as Hb.
  pose proof (Qc_square_nonneg c) as Hc.
  assert (a * a = 0 ∧ b * b = 0 ∧ c * c = 0)%Qc as (Ha0 & Hb0 & Hc0).
  { set (x := (a * a)%Qc) in *. set (y := (b * b)%Qc) in *. set (z := (c * c)%Qc) in *.
    clearbody x y z. unfold Qcle in *. cbn in *.
    rewrite !Qred_correct in Hle.
    change (Qred 0) with 0%Q in *.
    split_and!; apply Qc_is_canon; cbn; change (Qred 0) with 0%Q; lra. }
  auto using Qc_square_zero.
Qed.

Lemma Qc_minus_zero (a b : Qc) : (a - b = 0)%Qc → a = b.
Proof. intros Hz. rewrite <-(Qcplus_0_l b), <-Hz. ring. Qed.

Section ClosestExact.

Implicit Types (color r p : Color (num := Qc)).

Lemma distance_self color : distance color color = 0%Qc.
Proof. unfold distance, pow2. cbn. ring. Qed.

Lemma distance_le_zero color r : (distance color r <= 0)%Qc → r = color.
Proof.
  unfold distance, pow2. cbn. intros (H1 & H2 & H3)%Qc_sum_squares_zero.
  apply Qc_minus_zero in H1, H2, H3.
  destruct color as [[c1 c2] c3], r as [[r1 r2] r3]. cbn in *. congruence.
Qed.

Lemma findClosestColor_loop color (palette : list Color) :
  closest_so_far color palette palette
    (foldl (findClosestColor_step color) (head palette, None) palette).
Proof.
  apply (foldl_invariant (findClosestColor_step color) (closest_so_far color palette)).
  { by left. }
  intros pre b st [[-> ->]|(i & r & Hi & -> & Hmin & Hfirst)] _.
  - right. exists 0, b. split_and!; [done|done| |].
    + intros p ->%list_elem_of_singleton. apply Qcle_refl.
    + intros j p Hj. lia.
  - right. unfold findClosestColor_step. cbn [snd closer].
    change (nlt (distance color b) (distance color r))
      with (Exact.ltb (distance color b) (distance color r)).
    destruct (Exact.ltb _ _) eqn:Hlt.
    + apply exact_ltb_lt in Hlt.
      exists (length pre), b. split_and!.
      * by rewrite lookup_app_r, Nat.sub_diag by lia.
      * done.
      * intros p [Hp| ->%list_elem_of_singleton]%elem_of_app; [|apply Qcle_refl].
        apply Qclt_le_weak, Qclt_le_trans with (distance color r); auto.
      * intros j p Hj Hp. rewrite lookup_app_l in Hp by done.
        apply Qclt_le_trans with (distance color r); [done|].
        apply Hmin. by eapply list_elem_of_lookup_2.
    + apply exact_ltb_ge in Hlt.
      exists i, r. split_and!.
      * apply lookup_app_l_Some. done.
      * done.
      * intros p [Hp| ->%list_elem_of_singleton]%elem_of_app; auto.
      * intros j p Hj Hp. apply (Hfirst j); [done|].
        rewrite lookup_app_l in Hp; [done|]. apply lookup_lt_Some in Hi. lia.
Qed.

Lemma findClosestColor_first_nearest color (palette : list Color) :
  palette ≠ [] →
  ∃ i r,
    findClosestColor color palette = Some r ∧
    palette !! i = Some r ∧
    (∀ p, p ∈ palette → (distance color r <= distance color p)%Qc) ∧
    (∀ j p, j < i → palette !! j = Some p → (distance color r < distance color p)%Qc) ∧
    (color ∈ palette → r = color).
Proof.
  intros Hne. unfold findClosestColor.
  destruct (findClosestColor_loop color palette)
    as [[-> _]|(i & r & Hi & -> & Hmin & Hfirst)]; [done|].
  exists i, r. split_and!; try done.
  intros Hin. apply distance_le_zero.
  rewrite <-(distance_self color). by apply Hmin.
Qed.

End ClosestExact.

(** * The order of binary64 *)

Lemma rank_lt_irrefl (a : Z * Z * Z) : ¬ rank_lt a a.
Proof. unfold rank_lt. lia. Qed.

Lemma rank_lt_trans (a b c : Z * Z * Z) : rank_lt a b → rank_lt b c → rank_lt a c.
Proof. unfold rank_lt. lia. Qed.

Lemma rank_lt_total (a b : Z * Z * Z) : rank_lt a b ∨ a = b ∨ rank_lt b a.
Proof.
  destruct a as [[a1 a2] a3], b as [[b1 b2] b3]. unfold rank_lt. cbn [fst snd].
  destruct (Z.lt_trichotomy a1 b1) as [?|[->|?]]; [lia| |lia].
  destruct (Z.lt_trichotomy a2 b2) as [?|[->|?]]; [lia| |lia].
  destruct (Z.lt_trichotomy a3 b3) as [?|[->|?]]; [lia|auto|lia].
Qed.

(** [SFltb] is the strict order of the ranks. *)
Lemma SFltb_rank (x y : spec_float) :
  SFltb x y = true ↔
  ∃ a b, float_rank x = Some a ∧ float_rank y = Some b ∧ rank_lt a b.
Proof.
  unfold SFltb, rank_lt.
  destruct x as [[]|[]| |[] mx ex], y as [[]|[]| |[] my ey]; cbn [SFcompare float_rank];
    try (split; [done|intros (a & b & [= <-] & [= <-] & Hlt); cbn in Hlt; lia]);
    try (split; [intros _; eexists _, _; split_and!; [done..|]; cbn; lia|done]);
    try (split; [done|by intros (a & b & ? & ? & _)]).
  - destruct (Z.compare_spec ex ey) as [->|Hlt|Hgt].
    + change (Pos.compare_cont Eq mx my) with (Pos.compare mx my).
      destruct (Pos.compare_spec mx my) as [->|Hm|Hm]; cbn [CompOpp].
      * split; [done|intros (a & b & [= <-] & [= <-] & Hlt); cbn in Hlt; lia].
      * split; [done|intros (a & b & [= <-] & [= <-] & Hlt); cbn in Hlt; lia].
      * split; [intros _; eexists _, _; split_and!; [done..|]; cbn; lia|done].
    + split; [done|intros (a & b & [= <-] & [= <-] & Hlt'); cbn in Hlt'; lia].
    + split; [intros _; eexists _, _; split_and!; [done..|]; cbn; lia|done].
  - destruct (Z.compare_spec ex ey) as [->|Hlt|Hgt].
    + change (Pos.compare_cont Eq mx my) with (Pos.compare mx my).
      destruct (Pos.compare_spec mx my) as [->|Hm|Hm].
      * split; [done|intros (a & b & [= <-] & [= <-] & Hlt); cbn in Hlt; lia].
      * split; [intros _; eexists _, _; split_and!; [done..|]; cbn; lia|done].
      * split; [done|intros (a & b & [= <-] & [= <-] & Hlt); cbn in Hlt; lia].
    + split; [intros _; eexists _, _; split_and!; [done..|]; cbn; lia|done].
    + split; [done|intros (a & b & [= <-] & [= <-] & Hlt'); cbn in Hlt'; lia].
Qed.

Lemma binary64_ltb_lt (x y : float) : PrimFloat.ltb x y = true ↔ float_lt x y.
Proof. rewrite ltb_spec. apply SFltb_rank. Qed.

Lemma binary64_is_nan (x : float) :
  is_nan x = true ↔ float_rank (Prim2SF x) = None.
Proof.
  unfold is_nan. rewrite FloatAxioms.eqb_spec. unfold SFeqb.
  destruct (Prim2SF x) as [[]|[]| |[] m e]; cbn [SFcompare float_rank negb]; try done.
  - change (Pos.compare_cont Eq m m) with (Pos.compare m m).
    rewrite Z.compare_refl, Pos.compare_refl. done.
  - change (Pos.compare_cont Eq m m) with (Pos.compare m m).
    rewrite Z.compare_refl, Pos.compare_refl. done.
Qed.

Lemma binary64_rank_infinity : float_rank (Prim2SF infinity) = Some (2, 0, 0)%Z.
Proof. reflexivity. Qed.

Lemma float_rank_le_infinity (x : spec_float) (a : Z * Z * Z) :
  float_rank x = Some a → rank_lt a (2, 0, 0)%Z ∨ a = (2, 0, 0)%Z.
Proof.
  destruct x as [[]|[]| |[] m e]; cbn; intros [= <-]; unfold rank_lt; cbn; auto; lia.
Qed.

Lemma binary64_ltb_irrefl (x : float) : PrimFloat.ltb x x = false.
Proof.
  apply not_true_iff_false. rewrite binary64_ltb_lt.
  intros (a & b & Ha & Hb & Hlt). rewrite Ha in Hb. injection Hb as <-.
  by apply rank_lt_irrefl in Hlt.
Qed.

Lemma binary64_ltb_trans (x y z : float) :
  PrimFloat.ltb x y = true → PrimFloat.ltb y z = true → PrimFloat.ltb x z = true.
Proof.
  rewrite !binary64_ltb_lt. intros (a & b & Ha & Hb & Hab) (b' & c & Hb' & Hc & Hbc).
  rewrite Hb in Hb'. injection Hb' as <-.
  exists a, c. split_and!; [done..|]. by eapply rank_lt_trans.
Qed.

(** [x < y] and not [z < y], with [z] a number, give [x < z]. *)
Lemma binary64_ltb_le_trans (x y z : float) :
  PrimFloat.ltb x y = true → PrimFloat.ltb z y = false → is_nan z = false →
  PrimFloat.ltb x z = true.
Proof.
  rewrite <-!not_true_iff_false, binary64_is_nan, !binary64_ltb_lt.
  intros (a & b & Ha & Hb & Hab) Hzy Hz.
  destruct (float_rank (Prim2SF z)) as [c|] eqn:Hc; [|done].
  exists a, c. split_and!; [done..|].
  destruct (rank_lt_total c b) as [Hlt|[->|Hlt]]; [|done|by eapply rank_lt_trans].
  destruct Hzy. by exists c, b.
Qed.

(** A number that is not below [Infinity] is [Infinity] or [NaN]: nothing
    is above it. *)
Lemma binary64_not_lt_infinity (x y : float) :
  PrimFloat.ltb x infinity = false → PrimFloat.ltb x y = false.
Proof.
  rewrite <-!not_true_iff_false, !binary64_ltb_lt.
  intros Hinf (a & b & Ha & Hb & Hab). apply Hinf.
  exists a, (2, 0, 0)%Z. split_and!; [done..|].
  destruct (float_rank_le_infinity _ _ Hb) as [Hlt| ->]; [by eapply rank_lt_trans|done].
Qed.

Lemma binary64_not_lt_infinity_r (x y : float) :
  PrimFloat.ltb x infinity = false → PrimFloat.ltb y infinity = false →
  PrimFloat.ltb y x = false.
Proof.
  rewrite <-!not_true_iff_false, !binary64_ltb_lt.
  intros Hx Hy (b & a & Hb & Ha & Hba). apply Hy.
  exists b, (2, 0, 0)%Z. split_and!; [done..|].
  destruct (float_rank_le_infinity _ _ Ha) as [Hlt| ->]; [by eapply rank_lt_trans|done].
Qed.

Lemma binary64_lt_infinity_cases (x y : float) :
  PrimFloat.ltb x infinity = false → PrimFloat.ltb y infinity = true →
  PrimFloat.ltb y x = true ∨ is_nan x = true.
Proof.
  intros Hx Hy.
  destruct (is_nan x) eqn:Hnan; [by right|left].
  eapply binary64_ltb_le_trans; [done| |done]. done.
Qed.

Lemma binary64_ltb_not_nan (x y : float) : PrimFloat.ltb x y = true → is_nan x = false.
Proof.
  rewrite binary64_ltb_lt, <-not_true_iff_false, binary64_is_nan.
  intros (a & b & Ha & _). by rewrite Ha.
Qed.

(** * The nearest colour on binary64 *)

Section ClosestBinary64.

Implicit Types (color r p : Color (num := float)).

(** After the loop of [findClosestColor]: no entry is nearer than the one
    returned, and every entry before it is farther or at no distance
    ([NaN]). *)
Lemma findClosestColor_binary64 color (palette : list Color) :
  palette ≠ [] →
  ∃ i r,
    findClosestColor color palette = Some r ∧
    palette !! i = Some r ∧
    (∀ p, p ∈ palette → (distance color p <? distance color r)%js = false) ∧
    (∀ j p, j < i → palette !! j = Some p →
       (distance color r <? distance color p)%js = true ∨
       is_nan (distance color p) = true).
Proof.
  intros Hne. unfold findClosestColor.
  pose proof (foldl_invariant (findClosestColor_step color)
    (λ pre st,
       (st = (head palette, None) ∧
        ∀ p, p ∈ pre → PrimFloat.ltb (distance color p) infinity = false) ∨
       ∃ i r, pre !! i = Some r ∧ st = (Some r, Some (distance color r)) ∧
         (∀ p, p ∈ pre → PrimFloat.ltb (distance color p) (distance color r) = false) ∧
         (∀ j p, j < i → pre !! j = Some p →
            PrimFloat.ltb (distance color r) (distance color p) = true ∨
            is_nan (distance color p) = true))
    palette (head palette, None)) as Hinv.
  destruct Hinv as [[Hst Hall]|(i & r & Hi & Hst & Hmin & Hfirst)].
  - left. split; [done|]. intros p Hp. by apply elem_of_nil in Hp.
  - intros pre b st [[-> Hall]|(i & r & Hi & -> & Hmin & Hfirst)] _;
      unfold findClosestColor_step; cbn [snd closer].
    + change (lt_infinity (distance color b))
        with (PrimFloat.ltb (distance color b) infinity).
      destruct (PrimFloat.ltb (distance color b) infinity) eqn:Hb.
      * right. exists (length pre), b. split_and!.
        -- by rewrite lookup_app_r, Nat.sub_diag by lia.
        -- done.
        -- intros p [Hp| ->%list_elem_of_singleton]%elem_of_app.
           ++ apply binary64_not_lt_infinity. by apply Hall.
           ++ apply binary64_ltb_irrefl.
        -- intros j p Hj Hp. rewrite lookup_app_l in Hp by done.
           apply binary64_lt_infinity_cases; [|done].
           apply Hall. by eapply list_elem_of_lookup_2.
      * left. split; [done|].
        intros p [Hp| ->%list_elem_of_singleton]%elem_of_app; auto.
    + change (nlt (distance color b) (distance color r))
        with (PrimFloat.ltb (distance color b) (distance color r)).
      destruct (PrimFloat.ltb (distance color b) (distance color r)) eqn:Hb.
      * right. exists (length pre), b. split_and!.
        -- by rewrite lookup_app_r, Nat.sub_diag by lia.
        -- done.
        -- intros p [Hp| ->%list_elem_of_singleton]%elem_of_app;
             [|apply binary64_ltb_irrefl].
           apply not_true_iff_false. intros Hpb.
           pose proof (binary64_ltb_trans _ _ _ Hpb Hb) as Hpr.
           rewrite Hmin in Hpr; done.
        -- intros j p Hj Hp. rewrite lookup_app_l in Hp by done.
           destruct (is_nan (distance color p)) eqn:Hnan; [by right|left].
           eapply binary64_ltb_le_trans; [done| |done].
           apply Hmin. by eapply list_elem_of_lookup_2.
      * right. exists i, r. split_and!.
        -- by apply lookup_app_l_Some.
        -- done.
        -- intros p [Hp| ->%list_elem_of_singleton]%elem_of_app; auto.
        -- intros j p Hj Hp. apply (Hfirst j); [done|].
           rewrite lookup_app_l in Hp; [done|]. apply lookup_lt_Some in Hi. lia.
  - destruct palette as [|r palette]; [done|].
    exists 0, r. rewrite Hst. split_and!; [done|done| |intros j p Hj; lia].
    intros p Hp. apply binary64_not_lt_infinity_r; apply Hall; [apply list_elem_of_here|done].
  - exists i, r. rewrite Hst. done.
Qed.

End ClosestBinary64.

(** * Palette dithering of a uniform palette colour *)

Lemma fsWeight_cases (dx dy weight : Z) :
  fsWeight dx dy = Some weight → weight ∈ [7; 3; 5; 1]%Z.
Proof.
  unfold fsWeight. repeat case_bool_decide; intros [= <-]; repeat constructor.
Qed.

Section UniformDither.

Context {num : Type} `{Number num}.

Lemma channel_colorError (k : nat) (old new : Color) :
  channel k (colorError old new) = (channel k old - channel k new)%js.
Proof. by destruct k as [|[|k]]. Qed.

Lemma scratch_cell_split (w h j : nat) :
  j < w * h * 3 → ∃ y x k, y < h ∧ x < w ∧ k < 3 ∧ j = (y * w + x) * 3 + k.
Proof.
  intros Hj.
  destruct (pixel_index_split w h (j `div` 3)) as (y & x & Hy & Hx & Hdiv).
  { apply Nat.Div0.div_lt_upper_bound. lia. }
  exists y, x, (j `mod` 3). split_and!; [done..| |].
  - apply Nat.mod_upper_bound. lia.
  - rewrite <-Hdiv. rewrite (Nat.div_mod_eq j 3) at 1. lia.
Qed.

Lemma read_scratchColor (pixelData : list num) (w y x k : nat) :
  k < 3 → read_f32 pixelData ((y * w + x) * 3 + k) = channel k (scratchColor pixelData w (y, x)).
Proof.
  intros Hk. unfold scratchColor. cbn [fst snd].
  destruct k as [|[|[|k]]]; cbn [channel fst snd]; [by rewrite Nat.add_0_r|done..|lia].
Qed.

Variables (w h : nat) (palette : list (Color (num := num))) (factor : num).
Variable c : Color (num := num).

(** The quantiser maps the colour to itself, and adding a diffused zero
    error to a channel of the colour gives the channel back. *)
Hypothesis quantise_fixed : findClosestColor c palette = Some c.
Hypothesis diffuse_zero :
  ∀ k weight, k < 3 → weight ∈ [7; 3; 5; 1]%Z →
    fround (channel k c + (channel k c - channel k c) * of_Z weight * (factor / of_Z 16))%js
    = channel k c.

Lemma ditherColorLoop_uniform (pixelData : list num) (d : list Z) :
  length pixelData = w * h * 3 → length d = w * h * 4 →
  (∀ y x, y < h → x < w → scratchColor pixelData w (y, x) = c) →
  ∃ d',
    ditherColorLoop w h palette factor (pixelData, d) = Some (pixelData, d') ∧
    length d' = length d ∧
    (∀ k, d' !! (k * 4 + 3) = d !! (k * 4 + 3)) ∧
    ∀ k, k < w * h →
      d' !! (k * 4) = Some (storedColor c).1.1 ∧
      d' !! (k * 4 + 1) = Some (storedColor c).1.2 ∧
      d' !! (k * 4 + 2) = Some (storedColor c).2.
Proof.
  intros Hlp Hld Hscratch.
  destruct (ditherColorLoop_invariant w h palette factor
              (λ pd, pd = pixelData) (λ c', c' = c) pixelData d)
    as (pd' & d' & Hrun & -> & Hlen & Halpha & Hpix); [| | |done|done|].
  - by intros pd ->.
  - intros pd x y -> Hx Hy. exists c. by rewrite Hscratch.
  - intros pd d0 x y pd1 d1 -> Hx Hy Hstep.
    destruct (ditherColorPixel_scratch w h palette factor pixelData d0 x y c)
      as (pd2 & d2 & Hstep' & Hl1 & Hread); [done..|by rewrite Hscratch|].
    rewrite Hstep in Hstep'. injection Hstep' as -> ->.
    apply list_eq. intros j.
    destruct (decide (j < w * h * 3)) as [Hj|Hj];
      [|by rewrite !lookup_ge_None_2 by lia].
    destruct (scratch_cell_split w h j Hj) as (y' & x' & k & Hy' & Hx' & Hk & ->).
    specialize (Hread x' y' k Hx' Hy' Hk).
    assert (read_f32 pd2 ((y' * w + x') * 3 + k)
            = read_f32 pixelData ((y' * w + x') * 3 + k)) as Heq.
    { rewrite Hread. destruct (fsWeight _ _) as [weight|] eqn:Hw; [|done].
      rewrite channel_colorError, !read_scratchColor, !Hscratch by done.
      apply diffuse_zero; [done|]. by eapply fsWeight_cases. }
    unfold read_f32 in Heq.
    destruct (lookup_lt_is_Some_2 pd2 ((y' * w + x') * 3 + k)) as [v1 Hv1]; [lia|].
    destruct (lookup_lt_is_Some_2 pixelData ((y' * w + x') * 3 + k)) as [v Hv]; [lia|].
    rewrite Hv1, Hv in *. cbn in Heq. by subst.
  - exists d'. split_and!; [done..|].
    intros k Hk. destruct (pixel_index_split w h k Hk) as (y & x & Hy & Hx & ->).
    destruct (Hpix x y Hx Hy) as (c' & -> & Hrgb). done.
Qed.

End UniformDither.

Section UniformSource.

Context {num : Type} `{Number num}.

Lemma read_u8_uniformBuffer (r g b : Z) (alphas : list Z) (k j : nat) :
  j < 3 → k < length alphas →
  read_u8 (uniformBuffer r g b alphas) (k * 4 + j) =
    channel j (of_Z r, of_Z g, of_Z b).
Proof.
  intros Hj Hk. unfold read_u8. rewrite lookup_uniformBuffer by lia.
  destruct (lookup_lt_is_Some_2 alphas k Hk) as [a ->].
  by destruct j as [|[|[|j]]]; [..|lia].
Qed.

(** A uniform source whose colour the quantiser maps to itself, with
    stores that keep the colour: the output is the source. *)
Lemma applyDitheringColor_uniform (r g b : Z) (alphas : list Z) (w h : nat)
    (palette : list Color) (factor : num) :
  let c : Color := (of_Z r, of_Z g, of_Z b) in
  length alphas = w * h →
  storedColor c = (r, g, b) →
  (∀ k, k < 3 → fround (channel k c) = channel k c) →
  findClosestColor c palette = Some c →
  (∀ k weight, k < 3 → weight ∈ [7; 3; 5; 1]%Z →
     fround (channel k c + (channel k c - channel k c) * of_Z weight * (factor / of_Z 16))%js
     = channel k c) →
  applyDitheringColor (uniformBuffer r g b alphas) w h palette factor
    = Some (uniformBuffer r g b alphas).
Proof.
  intros c Hlen Hstored Hfround Hfixed Hzero. unfold applyDitheringColor.
  set (d := uniformBuffer r g b alphas).
  assert (Hld : length d = w * h * 4) by (subst d; rewrite length_uniformBuffer; lia).
  destruct (ditherColorLoop_uniform w h palette factor c Hfixed Hzero
              (initPixelData d w h) d) as (d' & -> & Hlen' & Halpha & Hrgb);
    [apply length_initPixelData|done| |].
  - intros y x Hy Hx. unfold scratchColor. cbn [fst snd].
    pose proof (raster_index_lt w h x y Hx Hy) as Hk.
    rewrite <-(Nat.add_0_r ((y * w + x) * 3)) at 1.
    rewrite !read_initPixelData by (done || lia). subst d.
    rewrite !read_u8_uniformBuffer by lia.
    rewrite !Hfround by lia. done.
  - cbn. f_equal. apply buffer_eq; [done|].
    intros k j Hj Hlt. rewrite Hlen', Hld in Hlt.
    destruct (Hrgb k) as (H0 & H1 & H2); [lia|].
    rewrite Hstored in H0, H1, H2. cbn [fst snd] in *.
    subst d. rewrite lookup_uniformBuffer by done.
    destruct (lookup_lt_is_Some_2 alphas k) as [a Ha]; [lia|].
    destruct j as [|[|[|[|j]]]]; [..|lia].
    + by rewrite Nat.add_0_r, H0, Ha.
    + by rewrite H1, Ha.
    + by rewrite H2, Ha.
    + by rewrite Halpha, lookup_uniformBuffer, Ha by lia.
Qed.

End UniformSource.

(** On exact arithmetic: any palette that contains the colour. *)
Lemma applyDitheringColor_uniform_exact (r g b : Z) (alphas : list Z) (w h : nat)
    (palette : list (Color (num := Qc))) (factor : Qc) :
  (0 ≤ r ≤ 255)%Z → (0 ≤ g ≤ 255)%Z → (0 ≤ b ≤ 255)%Z →
  length alphas = w * h →
  (of_Z r, of_Z g, of_Z b) ∈ palette →
  applyDitheringColor (uniformBuffer r g b alphas) w h palette factor
    = Some (uniformBuffer r g b alphas).
Proof.
  intros Hr Hg Hb Hlen Hin. apply applyDitheringColor_uniform; [done| |done| |].
  - unfold storedColor. cbn [fst snd]. by rewrite !byte_faithful_exact.
  - destruct (findClosestColor_first_nearest (of_Z r, of_Z g, of_Z b) palette)
      as (i & c' & Hfind & _ & _ & _ & Heq).
    { intros ->. by apply elem_of_nil in Hin. }
    by rewrite Hfind, (Heq Hin).
  - intros k weight _ _. cbn. ring.
Qed.

(** * IEEE binary64 arithmetic *)

Lemma binary64_finite_cases (x : float) :
  is_finite x = true →
  (∃ s, Prim2SF x = S754_zero s) ∨ (∃ s m e, Prim2SF x = S754_finite s m e).
Proof.
  unfold is_finite, is_nan, is_infinity. rewrite !FloatAxioms.eqb_spec, abs_spec.
  destruct (Prim2SF x) as [s|s| |s m e]; [by eauto|..|by eauto 10].
  - intros Hfin. exfalso. by destruct s.
  - intros Hfin. exfalso. done.
Qed.

(** A zero times a finite number is a zero. *)
Lemma binary64_zero_mul (x : float) :
  is_finite x = true → (0 * x = 0 ∨ 0 * x = -0)%float.
Proof.
  intros Hfin.
  assert (∃ s, Prim2SF (0 * x) = S754_zero s) as [s Hs].
  { rewrite mul_spec. change (Prim2SF 0) with (S754_zero false).
    destruct (binary64_finite_cases x Hfin) as [[s ->]|(s & m & e & ->)]; by eexists. }
  rewrite <-(SF2Prim_Prim2SF (0 * x)), Hs. destruct s; [by right|by left].
Qed.

Lemma byte_checks_all : all_bytes byte_checks = true.
Proof. vm_compute. reflexivity. Qed.

Lemma byte_checks_spec (vb : Z) :
  (0 ≤ vb ≤ 255)%Z →
  let v : float := of_Z vb in
  (∀ weight, weight ∈ [7; 3; 5; 1]%Z → ((v - v) * of_Z weight)%float = 0%float) ∧
  fround (v + 0)%float = v ∧ fround (v + -0)%float = v ∧ fround v = v.
Proof.
  intros Hvb v. pose proof byte_checks_all as Hall. unfold all_bytes in Hall.
  rewrite forallb_forall in Hall. specialize (Hall vb).
  unfold byte_checks in Hall. fold v in Hall.
  rewrite !andb_true_iff, !Leibniz.eqb_spec, forallb_forall in Hall.
  destruct Hall as [[[Hw H0] Hn0] Hf]; [apply list_elem_of_In, elem_of_seqZ; lia|].
  split_and!; [|done..].
  intros weight Hin. apply Leibniz.eqb_spec, Hw. by apply list_elem_of_In.
Qed.

(** On binary64: a palette whose quantiser maps the colour to itself, and
    a finite diffusion factor. *)
Lemma applyDitheringColor_uniform_binary64 (r g b : Z) (alphas : list Z) (w h : nat)
    (palette : list (Color (num := float))) (factor : float) :
  (0 ≤ r ≤ 255)%Z → (0 ≤ g ≤ 255)%Z → (0 ≤ b ≤ 255)%Z →
  length alphas = w * h →
  is_finite (factor / of_Z 16)%float = true →
  findClosestColor (of_Z r, of_Z g, of_Z b) palette = Some (of_Z r, of_Z g, of_Z b) →
  applyDitheringColor (uniformBuffer r g b alphas) w h palette factor
    = Some (uniformBuffer r g b alphas).
Proof.
  intros Hr Hg Hb Hlen Hfin Hfixed.
  assert (∀ k, k < 3 → ∃ vb, (0 ≤ vb ≤ 255)%Z ∧
            channel (num := float) k (of_Z r, of_Z g, of_Z b) = of_Z vb) as Hch.
  { intros [|[|[|k]]] Hk; [by exists r|by exists g|by exists b|lia]. }
  apply applyDitheringColor_uniform; [done| | |done|].
  - unfold storedColor. cbn [fst snd]. by rewrite !byte_faithful_binary64.
  - intros k Hk. destruct (Hch k Hk) as (vb & Hvb & ->).
    by apply (byte_checks_spec vb).
  - intros k weight Hk Hweight. destruct (Hch k Hk) as (vb & Hvb & ->).
    destruct (byte_checks_spec vb Hvb) as (Hw & H0 & Hn0 & _).
    change (fround (Binary64.of_Z vb +
              (Binary64.of_Z vb - Binary64.of_Z vb) * Binary64.of_Z weight *
              (factor / Binary64.of_Z 16))%float = Binary64.of_Z vb).
    change (Binary64.of_Z vb) with (of_Z (num := float) vb).
    change (Binary64.of_Z weight) with (of_Z (num := float) weight).
    rewrite (Hw weight Hweight).
    destruct (binary64_zero_mul (factor / Binary64.of_Z 16) Hfin) as [-> | ->]; done.
Qed.

Lemma JUSTICE_PALETTE_fixed_binary64 (c : Color (num := float)) :
  c ∈ JUSTICE_PALETTE → findClosestColor c JUSTICE_PALETTE = Some c.
Proof.
  unfold JUSTICE_PALETTE. rewrite !elem_of_cons, elem_of_nil.
  intros [->|[->|[->|[->|[]]]]]; vm_compute; reflexivity.
Qed.

(** * Block sums *)

(** A guarded loop over [seq a n] only runs on the indices below the
    bound. *)
Lemma foldl_seq_clip {A : Type} (f g : A → nat → A) (bound a n : nat) (acc : A) :
  (∀ acc i, i < bound → f acc i = g acc i) →
  (∀ acc i, bound ≤ i → f acc i = acc) →
  foldl f acc (seq a n) = foldl g acc (seq a (Nat.min (a + n) bound - a)).
Proof.
  intros Hin Hout. revert a acc. induction n as [|n IH]; intros a acc.
  - by replace (Nat.min (a + 0) bound - a) with 0 by lia.
  - cbn [seq foldl]. destruct (decide (a < bound)) as [Ha|Ha].
    + replace (Nat.min (a + S n) bound - a) with (S (Nat.min (S a + n) bound - S a)) by lia.
      cbn [seq foldl]. rewrite Hin by done. apply IH.
    + rewrite Hout by lia. rewrite IH.
      replace (Nat.min (S a + n) bound - S a) with 0 by lia.
      by replace (Nat.min (a + S n) bound - a) with 0 by lia.
Qed.

Lemma length_bind_const {A B : Type} (f : A → list B) (l : list A) (c : nat) :
  (∀ a, length (f a) = c) → length (l ≫= f) = length l * c.
Proof.
  intros Hf. induction l as [|a l IH]; [done|].
  cbn. rewrite length_app, Hf. f_equal. apply IH.
Qed.

Lemma length_clippedBlock (w h x y size : nat) :
  length (clippedBlock w h x y size)
  = (Nat.min (y + size) h - y) * (Nat.min (x + size) w - x).
Proof.
  unfold clippedBlock.
  rewrite (length_bind_const _ _ (Nat.min (x + size) w - x)), length_seq; [done|].
  intros blockY. rewrite (length_bind_const _ _ 1), length_seq; [lia|done].
Qed.

Lemma elem_of_clippedBlock (w h x y size blockY blockX : nat) :
  (blockY, blockX) ∈ clippedBlock w h x y size ↔
  (y ≤ blockY < y + size ∧ blockY < h) ∧ (x ≤ blockX < x + size ∧ blockX < w).
Proof.
  unfold clippedBlock. rewrite list_elem_of_bind. split.
  - intros (by' & Hin & Hby%elem_of_seq).
    apply list_elem_of_bind in Hin as (bx' & Hin & Hbx%elem_of_seq).
    apply list_elem_of_singleton in Hin as [= -> ->]. lia.
  - intros [Hy Hx]. exists blockY. split; [|apply elem_of_seq; lia].
    apply list_elem_of_bind. exists blockX.
    split; [by apply list_elem_of_singleton|apply elem_of_seq; lia].
Qed.

Section Blocks.

Context {num : Type} `{Number num}.

Lemma colorBlockStep_in (data : list Z) (w h : nat) acc (blockY blockX : nat) :
  blockX < w → blockY < h →
  colorBlockStep data w h acc blockY blockX = colorAdd data w acc (blockY, blockX).
Proof.
  intros Hx Hy. unfold colorBlockStep, colorAdd. destruct acc as [[[tr tg] tb] n].
  by rewrite bool_decide_eq_true_2.
Qed.

Lemma colorBlockStep_out (data : list Z) (w h : nat) acc (blockY blockX : nat) :
  w ≤ blockX ∨ h ≤ blockY → colorBlockStep data w h acc blockY blockX = acc.
Proof.
  intros Hout. unfold colorBlockStep. destruct acc as [[[tr tg] tb] n].
  by rewrite bool_decide_eq_false_2 by lia.
Qed.

Lemma brightnessBlockStep_in (data : list Z) (w h : nat) acc (blockY blockX : nat) :
  blockX < w → blockY < h →
  brightnessBlockStep data w h acc blockY blockX = brightnessAdd data w acc (blockY, blockX).
Proof.
  intros Hx Hy. unfold brightnessBlockStep, brightnessAdd. destruct acc as [t n].
  by rewrite bool_decide_eq_true_2.
Qed.

Lemma brightnessBlockStep_out (data : list Z) (w h : nat) acc (blockY blockX : nat) :
  w ≤ blockX ∨ h ≤ blockY → brightnessBlockStep data w h acc blockY blockX = acc.
Proof.
  intros Hout. unfold brightnessBlockStep. destruct acc as [t n].
  by rewrite bool_decide_eq_false_2 by lia.
Qed.

(** A guarded double loop over a block is the plain loop over the clipped
    block. *)
Lemma block_loop_clipped {A : Type} (step : A → nat → nat → A) (add : A → nat * nat → A)
    (w h x y size : nat) (acc : A) :
  (∀ acc blockY blockX, blockX < w → blockY < h →
     step acc blockY blockX = add acc (blockY, blockX)) →
  (∀ acc blockY blockX, w ≤ blockX ∨ h ≤ blockY → step acc blockY blockX = acc) →
  foldl (λ acc blockY, foldl (λ acc blockX, step acc blockY blockX) acc (seq x size))
        acc (seq y size)
  = foldl add acc (clippedBlock w h x y size).
Proof.
  intros Hin Hout. unfold clippedBlock. rewrite foldl_bind.
  apply (foldl_seq_clip _ _ h).
  - intros acc' blockY Hy. rewrite foldl_bind.
    apply (foldl_seq_clip _ _ w).
    + intros acc'' blockX Hx. by apply Hin.
    + intros acc'' blockX Hx. apply Hout. by left.
  - intros acc' blockY Hy.
    rewrite (foldl_seq_clip _ (λ acc _, acc) 0); [|lia|].
    + by replace (Nat.min (x + size) 0 - x) with 0 by lia.
    + intros acc'' blockX _. apply Hout. by right.
Qed.

Lemma colorBlock_clipped (data : list Z) (w h x y size : nat) :
  colorBlock data w h x y size
  = foldl (colorAdd data w) (of_Z 0, of_Z 0, of_Z 0, 0) (clippedBlock w h x y size).
Proof.
  unfold colorBlock. apply block_loop_clipped.
  - intros. by apply colorBlockStep_in.
  - intros. by apply colorBlockStep_out.
Qed.

Lemma brightnessBlock_clipped (data : list Z) (w h x y size : nat) :
  brightnessBlock data w h x y size
  = foldl (brightnessAdd data w) (of_Z 0, 0) (clippedBlock w h x y size).
Proof.
  unfold brightnessBlock. apply block_loop_clipped.
  - intros. by apply brightnessBlockStep_in.
  - intros. by apply brightnessBlockStep_out.
Qed.

Lemma foldl_seq_shift {A : Type} (f : A → nat → A) (a n : nat) (acc : A) :
  foldl (λ acc i, f acc (a + i)) acc (seq 0 n) = foldl f acc (seq a n).
Proof.
  revert acc. induction n as [|n IH]; intros acc; [done|].
  rewrite !seq_S, !foldl_app. cbn. by rewrite IH.
Qed.

Lemma asciiBlock_clipped (data : list Z) (w h x y size : nat) :
  asciiBlock data w h x y size
  = foldl (brightnessAdd data w) (of_Z 0, 0) (clippedBlock w h x y size).
Proof.
  rewrite <-brightnessBlock_clipped. unfold asciiBlock, brightnessBlock.
  rewrite <-(foldl_seq_shift _ y). apply foldl_ext. intros acc j.
  by rewrite <-(foldl_seq_shift _ x).
Qed.

Lemma colorAdd_count (data : list Z) (w : nat) (l : list (nat * nat)) acc :
  (foldl (colorAdd data w) acc l).2 = acc.2 + length l.
Proof.
  revert acc. induction l as [|p l IH]; intros acc; [cbn; lia|].
  cbn [foldl]. rewrite IH. cbn. lia.
Qed.

Lemma brightnessAdd_count (data : list Z) (w : nat) (l : list (nat * nat)) acc :
  (foldl (brightnessAdd data w) acc l).2 = acc.2 + length l.
Proof.
  revert acc. induction l as [|p l IH]; intros acc; [cbn; lia|].
  cbn [foldl]. rewrite IH. cbn. lia.
Qed.

End Blocks.

(** * CMYK conversion *)

Lemma exact_min_cases (a b : Qc) :
  (Exact.min a b = a ∧ (a <= b)%Qc) ∨ (Exact.min a b = b ∧ (b < a)%Qc).
Proof.
  unfold Exact.min. destruct (Exact.ltb b a) eqn:Hlt.
  - right. split; [done|]. by apply exact_ltb_lt.
  - left. split; [done|]. by apply exact_ltb_ge.
Qed.

Lemma Qc_le_Q (a b : Qc) : (a <= b)%Qc ↔ (a <= b)%Q.
Proof. done. Qed.

Lemma Qc_lt_Q (a b : Qc) : (a < b)%Qc ↔ (a < b)%Q.
Proof. done. Qed.

Lemma this_of_Z (z : Z) : this (Exact.of_Z z) = inject_Z z.
Proof. unfold Exact.of_Z. cbn. apply Qred_inject_Z. Qed.

(** The operations of [Qc] read in [Q]. *)
Ltac to_Q :=
  rewrite ?Qc_le_Q, ?Qc_lt_Q in *;
  cbn [this Qcplus Qcminus Qcmult Qcdiv Qcopp Qcinv Q2Qc nadd nsub nmul ndiv of_Z exact] in *;
  rewrite ?this_of_Z, ?Qred_correct in *.

Lemma cmyk_component_range (v : Qc) :
  (0 <= v)%Qc → (v <= Exact.of_Z 255)%Qc →
  (0 <= Exact.of_Z 1 - v / Exact.of_Z 255)%Qc ∧ (Exact.of_Z 1 - v / Exact.of_Z 255 <= Exact.of_Z 1)%Qc.
Proof.
  intros H0 H255. unfold Qcminus, Qcdiv. to_Q.
  change (this 0%Qc) with 0%Q in *.
  assert (/ inject_Z 255 == 1 # 255)%Q as -> by reflexivity.
  change (inject_Z 255) with (255 # 1)%Q in *. change (inject_Z 1) with 1%Q.
  split; lra.
Qed.

Lemma cmyk_key_range (r g b : Qc) :
  (0 <= r)%Qc → (r <= Exact.of_Z 255)%Qc →
  (0 <= g)%Qc → (g <= Exact.of_Z 255)%Qc →
  (0 <= b)%Qc → (b <= Exact.of_Z 255)%Qc →
  (0 <= cmyk_key r g b)%Qc ∧ (cmyk_key r g b <= Exact.of_Z 1)%Qc.
Proof.
  intros. unfold cmyk_key. cbn [nmin nsub ndiv of_Z exact].
  pose proof (cmyk_component_range r) as Hr.
  pose proof (cmyk_component_range g) as Hg.
  pose proof (cmyk_component_range b) as Hb.
  destruct (exact_min_cases (Exact.of_Z 1 - r / Exact.of_Z 255) (Exact.of_Z 1 - g / Exact.of_Z 255))
    as [[-> _]|[-> _]];
  match goal with |- context [Exact.min ?x ?y] =>
    destruct (exact_min_cases x y) as [[-> _]|[-> _]] end; auto.
Qed.

(** On exact arithmetic the normalisation step divides by a positive
    number. *)
Lemma rgbToCmyk_exact (r g b : Qc) :
  (0 <= r)%Qc → (r <= Exact.of_Z 255)%Qc →
  (0 <= g)%Qc → (g <= Exact.of_Z 255)%Qc →
  (0 <= b)%Qc → (b <= Exact.of_Z 255)%Qc →
  let k := cmyk_key r g b in
  (k = of_Z 1 → rgbToCmyk r g b = (of_Z 0, of_Z 0, of_Z 0, of_Z 1)) ∧
  (k ≠ of_Z 1 →
     (0 < cmyk_divisor r g b)%Qc ∧ cmyk_divisor r g b ≠ 0%Qc ∧
     rgbToCmyk r g b =
       (((of_Z 1 - r / of_Z 255) - k) / cmyk_divisor r g b,
        ((of_Z 1 - g / of_Z 255) - k) / cmyk_divisor r g b,
        ((of_Z 1 - b / of_Z 255) - k) / cmyk_divisor r g b,
        k)%js).
Proof.
  intros Hr0 Hr Hg0 Hg Hb0 Hb k.
  destruct (cmyk_key_range r g b) as [Hk0 Hk1]; [done..|]. fold k in Hk0, Hk1.
  unfold rgbToCmyk. fold (cmyk_key r g b). fold k.
  change (neq k (of_Z 1)) with (Exact.eqb k (Exact.of_Z 1)).
  destruct (Exact.eqb k (Exact.of_Z 1)) eqn:Heq.
  { apply exact_eqb_eq in Heq. split; [done|]. intros Hk. by destruct Hk. }
  assert (k ≠ Exact.of_Z 1) as Hne.
  { intros Hk. apply exact_eqb_eq in Hk. congruence. }
  split; [by intros Hk|].
  - intros Hk.
    assert (Hpos : (0 < cmyk_divisor r g b)%Qc).
    { unfold cmyk_divisor. fold k. cbn [nsub of_Z exact].
      destruct (Qcle_lt_or_eq _ _ Hk1) as [Hlt|Heq']; [|done].
      unfold Qcminus. to_Q. change (this 0%Qc) with 0%Q.
      lra. }
    split_and!; [done| |done].
    intros Hz. rewrite Hz in Hpos. by apply Qclt_not_eq in Hpos.
Qed.

Lemma rgbToCmyk_black_exact :
  rgbToCmyk (num := Qc) (of_Z 0) (of_Z 0) (of_Z 0) = (of_Z 0, of_Z 0, of_Z 0, of_Z 1).
Proof. vm_compute. reflexivity. Qed.

Lemma rgbToCmyk_black_binary64 :
  rgbToCmyk (num := float) (of_Z 0) (of_Z 0) (of_Z 0) = (of_Z 0, of_Z 0, of_Z 0, of_Z 1).
Proof. vm_compute. reflexivity. Qed.

Lemma binary64_min_cases (a b : float) : Binary64.min a b = a ∨ Binary64.min a b = b.
Proof. unfold Binary64.min. repeat case_match; auto. Qed.

Lemma cmyk_byte_check_all : all_bytes cmyk_byte_check = true.
Proof. vm_compute. reflexivity. Qed.

Lemma rgbToCmyk_bytes_binary64 (r g b : Z) :
  (0 ≤ r ≤ 255)%Z → (0 ≤ g ≤ 255)%Z → (0 ≤ b ≤ 255)%Z →
  (cmyk_key (num := float) (of_Z r) (of_Z g) (of_Z b) =? of_Z 1)%js = false →
  (cmyk_divisor (num := float) (of_Z r) (of_Z g) (of_Z b) =? of_Z 0)%js = false.
Proof.
  intros Hr Hg Hb. unfold cmyk_divisor, cmyk_key. cbn [nmin neq nsub ndiv of_Z binary64].
  pose proof cmyk_byte_check_all as Hall. unfold all_bytes in Hall.
  rewrite forallb_forall in Hall.
  assert (∀ vb, (0 ≤ vb ≤ 255)%Z → cmyk_byte_check vb = true) as Hcheck.
  { intros vb Hvb. apply Hall, list_elem_of_In, elem_of_seqZ. lia. }
  pose proof (Hcheck r Hr) as Hcr. pose proof (Hcheck g Hg) as Hcg.
  pose proof (Hcheck b Hb) as Hcb.
  unfold cmyk_byte_check in Hcr, Hcg, Hcb. cbn [neq nsub ndiv of_Z binary64] in Hcr, Hcg, Hcb.
  set (cr := (Binary64.of_Z 1 - Binary64.of_Z r / Binary64.of_Z 255)%float) in *.
  set (cg := (Binary64.of_Z 1 - Binary64.of_Z g / Binary64.of_Z 255)%float) in *.
  set (cb := (Binary64.of_Z 1 - Binary64.of_Z b / Binary64.of_Z 255)%float) in *.
  destruct (binary64_min_cases cr cg) as [-> | ->];
    match goal with |- context [Binary64.min ?x ?y] =>
      destruct (binary64_min_cases x y) as [-> | ->] end;
    intros Hk; match goal with Hc : (_ || _) = true |- context [PrimFloat.eqb (_ - ?c) _] =>
      match type of Hc with context [PrimFloat.eqb c _] =>
        rewrite Hk in Hc; cbn [orb] in Hc; by apply negb_true_iff in Hc end end.
Qed.

(** * ASCII art: the symbol index *)

Lemma asciiChars_nonempty (userChars : list codeunit) : 0 < length (asciiChars userChars).
Proof. unfold asciiChars. case_bool_decide; [done|cbn; lia]. Qed.

Lemma jsint_min_le (a : jsint) (b z : Z) : jsint_min a b = JInt z → (z ≤ b)%Z.
Proof. destruct a; cbn; intros [= <-]; lia. Qed.

(** The quantised step of a brightness in [0, 255] with [n >= 1] steps lies
    in [0, n - 1]. *)
Lemma ascii_step_range (avgBrightness : Qc) (n : Z) :
  (0 <= avgBrightness)%Qc → (avgBrightness <= Exact.of_Z 255)%Qc → (1 ≤ n)%Z →
  (0 ≤ Qfloor (avgBrightness * Exact.of_Z n / Exact.of_Z 256)%Qc ≤ n - 1)%Z.
Proof.
  intros H0 H255 Hn. unfold Qcdiv. to_Q. change (this 0%Qc) with 0%Q in *.
  assert (/ inject_Z 256 == 1 # 256)%Q as -> by reflexivity.
  change (inject_Z 255) with (255 # 1)%Q in *.
  set (q := this avgBrightness) in *. clearbody q.
  assert (Hn' : (1 <= inject_Z n)%Q).
  { change 1%Q with (inject_Z 1). by rewrite <-Zle_Qle. }
  set (nq := inject_Z n) in *.
  assert (0 <= q * nq * (1 # 256))%Q as Hlo by nra.
  assert (q * nq * (1 # 256) < nq)%Q as Hhi by nra.
  split.
  - change 0%Z with (Qfloor 0). by apply Qfloor_resp_le.
  - assert (Qfloor (q * nq * (1 # 256)) < n)%Z; [|lia].
    rewrite Zlt_Qlt. fold nq.
    apply Qle_lt_trans with (q * nq * (1 # 256))%Q; [apply Qfloor_le|done].
Qed.

Lemma asciiCharIndex_exact (avgBrightness : Qc) (n : Z) (userChars : list codeunit) :
  (0 <= avgBrightness)%Qc → (avgBrightness <= Exact.of_Z 255)%Qc → (1 ≤ n)%Z →
  let chars := asciiChars userChars in
  let step := Qfloor (avgBrightness * Exact.of_Z n / Exact.of_Z 256)%Qc in
  let index := Z.min step (Z.of_nat (length chars) - 1) in
  asciiCharIndex avgBrightness (of_Z n) chars = JInt index ∧
  (0 ≤ index ≤ Z.of_nat (length chars) - 1)%Z ∧
  (index ≤ n - 1)%Z ∧
  is_Some (char_at chars (JInt index)) ∧
  (avgBrightness = 0%Qc → index = 0%Z).
Proof.
  intros H0 H255 Hn chars step index.
  pose proof (ascii_step_range avgBrightness n H0 H255 Hn) as Hstep. fold step in Hstep.
  pose proof (asciiChars_nonempty userChars) as Hlen. fold chars in Hlen.
  split; [done|]. split; [lia|]. split; [lia|]. split.
  - unfold char_at. destruct (Z.leb_spec 0 index) as [_|?]; [|lia].
    apply lookup_lt_is_Some_2. lia.
  - intros ->. subst index step. rewrite Qcmult_0_l. unfold Qcdiv. rewrite Qcmult_0_l.
    change (Qfloor 0%Qc) with 0%Z. lia.
Qed.

Lemma ascii_step_check_all : forallb ascii_step_check (seqZ 1 4096) = true.
Proof. vm_compute. reflexivity. Qed.

Lemma asciiCharIndex_binary64 (n : Z) (userChars : list codeunit) :
  (1 ≤ n ≤ 4096)%Z →
  let chars := asciiChars userChars in
  asciiCharIndex (num := float) (of_Z 0) (of_Z n) chars = JInt 0 ∧
  ∃ index, asciiCharIndex (num := float) (of_Z 255) (of_Z n) chars = JInt index ∧
           (0 ≤ index ≤ n - 1)%Z ∧ (index ≤ Z.of_nat (length chars) - 1)%Z ∧
           is_Some (char_at chars (JInt index)).
Proof.
  intros Hn chars. pose proof ascii_step_check_all as Hall.
  rewrite forallb_forall in Hall. specialize (Hall n).
  pose proof (asciiChars_nonempty userChars) as Hlen. fold chars in Hlen.
  unfold ascii_step_check, asciiCharIndex in *.
  destruct (floor _) as [lo| | |]; [|by discriminate Hall; apply list_elem_of_In, elem_of_seqZ; lia..].
  destruct (floor _) as [hi| | |]; [|by discriminate Hall; apply list_elem_of_In, elem_of_seqZ; lia..].
  rewrite !andb_true_iff, !Z.eqb_eq, Z.leb_le in Hall.
  destruct Hall as [[-> Hhi] Hle]; [apply list_elem_of_In, elem_of_seqZ; lia|].
  cbn [jsint_min]. split.
  - f_equal. lia.
  - exists (Z.min hi (Z.of_nat (length chars) - 1)).
    assert (0 ≤ hi)%Z by (subst hi; apply Z.div_pos; lia).
    split; [done|]. split; [lia|]. split; [lia|].
    unfold char_at. destruct (Z.leb_spec 0 (Z.min hi (Z.of_nat (length chars) - 1))) as [_|?];
      [|lia].
    apply lookup_lt_is_Some_2. lia.
Qed.

(** * CRT modulation *)

(** A double loop in raster order whose body writes the four bytes of its
    pixel with values that do not depend on the buffer being written. *)
Lemma raster_writer (step : list Z → nat → nat → list Z) (val : nat → nat → nat → Z)
    (w h : nat) (buffer : list Z) :
  (∀ d y x, length (step d y x) = length d) →
  (∀ d y x j, (y * w + x) * 4 ≤ j < (y * w + x) * 4 + 4 ∨ step d y x !! j = d !! j) →
  (∀ d y x j, j < 4 → (y * w + x) * 4 + j < length d →
     step d y x !! ((y * w + x) * 4 + j) = Some (val y x j)) →
  length buffer = w * h * 4 →
  let out := foldl (λ d y, foldl (λ d x, step d y x) d (seq 0 w)) buffer (seq 0 h) in
  length out = length buffer ∧
  ∀ y x j, y < h → x < w → j < 4 → out !! ((y * w + x) * 4 + j) = Some (val y x j).
Proof.
  intros Hlen Hframe Hwrite Hbuf out. subst out. rewrite foldl_raster.
  destruct (foldl_invariant (λ d p, step d p.1 p.2)
    (λ pre d, length d = length buffer ∧
       ∀ y x j, (y, x) ∈ pre → x < w → j < 4 →
         d !! ((y * w + x) * 4 + j) = Some (val y x j))
    (raster w h) buffer) as [Hl Hout].
  - split; [done|]. intros y x j Hin. by apply elem_of_nil in Hin.
  - intros pre [y x] d [Hl IH] [Hy Hx]%elem_of_raster. cbn [fst snd].
    split; [by rewrite Hlen|].
    intros y' x' j Hin Hx' Hj.
    destruct (decide (y' * w + x' = y * w + x)) as [Heq|Hne].
    + apply raster_index_inj in Heq as [-> ->]; [|done..].
      apply Hwrite; [done|]. pose proof (raster_index_lt w h x y Hx Hy). lia.
    + destruct (Hframe d y x ((y' * w + x') * 4 + j)) as [?| ->]; [lia|].
      apply elem_of_app in Hin as [Hin|[= -> ->]%list_elem_of_singleton]; [|done].
      by apply IH.
  - split; [done|]. intros y x j Hy Hx Hj. apply Hout; [|done..]. by apply elem_of_raster.
Qed.

Section Crt.

Context {num : Type} `{Number num}.
Variable sin : num → num.

Lemma crtPixel_lookup (originalData : list Z) (w : nat) (amplitude frequency aberration : num)
    (d : list Z) (y x j : nat) :
  j < 4 → (y * w + x) * 4 + j < length d →
  crtPixel sin originalData w amplitude frequency aberration d y x !! ((y * w + x) * 4 + j)
  = Some (crtValue sin originalData w amplitude frequency aberration y x j).
Proof.
  intros Hj Hlt. unfold crtPixel, crtValue.
  destruct j as [|[|[|[|j]]]]; [..|lia].
  - rewrite Nat.add_0_r, !list_lookup_insert_ne by lia.
    apply list_lookup_insert_eq. lia.
  - rewrite !list_lookup_insert_ne by lia.
    apply list_lookup_insert_eq. rewrite !length_insert. lia.
  - rewrite !list_lookup_insert_ne by lia.
    apply list_lookup_insert_eq. rewrite !length_insert. lia.
  - apply list_lookup_insert_eq. rewrite !length_insert. lia.
Qed.

(** The processed buffer before the scanlines. *)
Lemma crt_first_pass (originalData : list Z) (w h : nat)
    (amplitude frequency aberration : num) :
  let out :=
    foldl (λ processedData y,
             foldl (λ processedData x,
                      crtPixel sin originalData w amplitude frequency aberration
                               processedData y x)
                   processedData (seq 0 w))
          (replicate (w * h * 4) 0%Z) (seq 0 h) in
  length out = w * h * 4 ∧
  ∀ y x j, y < h → x < w → j < 4 →
    out !! ((y * w + x) * 4 + j)
    = Some (crtValue sin originalData w amplitude frequency aberration y x j).
Proof.
  intros out.
  destruct (raster_writer
    (crtPixel sin originalData w amplitude frequency aberration)
    (crtValue sin originalData w amplitude frequency aberration)
    w h (replicate (w * h * 4) 0%Z)) as [Hlen Hout].
  - intros d y x. unfold crtPixel. by rewrite !length_insert.
  - intros d y x j.
    destruct (decide ((y * w + x) * 4 ≤ j < (y * w + x) * 4 + 4)); [by left|right].
    unfold crtPixel. by rewrite !list_lookup_insert_ne by lia.
  - intros d y x j Hj Hlt. by apply crtPixel_lookup.
  - apply length_replicate.
  - split; [|done]. fold out in Hlen. by rewrite Hlen, length_replicate.
Qed.

(** Without scanlines the effect returns the first pass; its alpha
    channels are 255 whatever the parameters. *)
Lemma CRT_MODULATION_no_scanlines (originalData : list Z) (w h : nat)
    (amplitude frequency aberration scanlineOpacity : num) :
  (scanlineOpacity >? of_Z 0)%js = false →
  let out := CRT_MODULATION sin originalData w h amplitude frequency aberration
                            scanlineOpacity in
  length out = w * h * 4 ∧
  ∀ y x j, y < h → x < w → j < 4 →
    out !! ((y * w + x) * 4 + j)
    = Some (crtValue sin originalData w amplitude frequency aberration y x j).
Proof.
  intros Hop. unfold CRT_MODULATION. rewrite Hop. apply crt_first_pass.
Qed.

End Crt.

Lemma lookup_opaque (data : list Z) (k j : nat) :
  j < 4 →
  opaque data !! (k * 4 + j) = (λ b, if decide (j = 3) then 255%Z else b) <$> data !! (k * 4 + j).
Proof.
  intros Hj. unfold opaque. rewrite list_lookup_imap.
  destruct (data !! (k * 4 + j)) as [b|]; [|done].
  cbn [fmap option_fmap option_map]. f_equal.
  rewrite (Nat.add_comm (k * 4)), Nat.Div0.mod_add, Nat.mod_small by done.
  case_bool_decide; case_decide; done.
Qed.

Lemma length_opaque (data : list Z) : length (opaque data) = length data.
Proof. apply length_imap. Qed.

Lemma exact_round_of_Z (z : Z) : round (num := Qc) (of_Z z) = JInt z.
Proof.
  change (round (of_Z z)) with (JInt (Qfloor (Exact.of_Z z + (1 # 2))%Q)). f_equal.
  rewrite this_of_Z. apply Z.le_antisymm.
  - assert (Qfloor (inject_Z z + (1 # 2)) < z + 1)%Z; [|lia].
    rewrite Zlt_Qlt, inject_Z_plus.
    apply Qle_lt_trans with (inject_Z z + (1 # 2))%Q; [apply Qfloor_le|].
    change (inject_Z 1) with 1%Q. lra.
  - rewrite <-(Qfloor_Z z) at 1. apply Qfloor_resp_le. lra.
Qed.

(** On exact arithmetic, with no amplitude and no aberration every channel
    samples its own column. *)
Lemma getPixel_own_column (data : list Z) (w x y : nat) (s frequency : Qc) :
  x < w →
  let offsetY := (s * 0)%Qc in
  getPixel data w (of_Z (Z.of_nat x) - (offsetY + of_Z 0))%js y = pixelColor data w (y, x) ∧
  getPixel data w (of_Z (Z.of_nat x) - offsetY)%js y = pixelColor data w (y, x) ∧
  getPixel data w (of_Z (Z.of_nat x) - (offsetY - of_Z 0))%js y = pixelColor data w (y, x).
Proof.
  intros Hx offsetY.
  assert (Hown : getPixel (num := Qc) data w (of_Z (Z.of_nat x)) y = pixelColor data w (y, x)).
  { unfold getPixel, pixelColor. rewrite exact_round_of_Z. cbn [jsint_min jsint_max fst snd].
    rewrite Z.min_l, Z.max_r, Nat2Z.id by lia. done. }
  subst offsetY. cbn [nsub nadd of_Z exact].
  replace (Exact.of_Z (Z.of_nat x) - (s * 0 + Exact.of_Z 0))%Qc with (Exact.of_Z (Z.of_nat x))
    by (change (Exact.of_Z 0) with 0%Qc; ring).
  replace (Exact.of_Z (Z.of_nat x) - s * 0)%Qc with (Exact.of_Z (Z.of_nat x)) by ring.
  replace (Exact.of_Z (Z.of_nat x) - (s * 0 - Exact.of_Z 0))%Qc with (Exact.of_Z (Z.of_nat x))
    by (change (Exact.of_Z 0) with 0%Qc; ring).
  done.
Qed.

Lemma bytes_lookup (data : list Z) (i : nat) (b : Z) :
  bytes data → data !! i = Some b → (0 ≤ b ≤ 255)%Z.
Proof. intros Hb Hi. by apply (Forall_lookup_1 _ _ _ _ Hb Hi). Qed.

(** The CRT effect with no amplitude, no aberration and no scanlines, on
    exact arithmetic: the source with every alpha channel forced to 255. *)
Lemma CRT_MODULATION_identity_exact (sin : Qc → Qc) (frequency : Qc)
    (data : list Z) (w h : nat) :
  length data = w * h * 4 → bytes data →
  CRT_MODULATION sin data w h (of_Z 0) frequency (of_Z 0) (of_Z 0) = opaque data.
Proof.
  intros Hlen Hbytes.
  destruct (CRT_MODULATION_no_scanlines sin data w h (of_Z 0) frequency (of_Z 0) (of_Z 0))
    as [Hl Hout]; [done|].
  apply buffer_eq; [by rewrite length_opaque, Hl, Hlen|].
  intros k j Hj Hlt. rewrite Hl in Hlt.
  destruct (pixel_index_split w h k) as (y & x & Hy & Hx & ->); [lia|].
  rewrite Hout, lookup_opaque by done.
  destruct (lookup_lt_is_Some_2 data ((y * w + x) * 4 + j)) as [b Hb]; [lia|].
  rewrite Hb. cbn [fmap option_fmap option_map]. f_equal.
  unfold crtValue.
  destruct (getPixel_own_column data w x y (sin (of_Z (Z.of_nat y) * frequency)%js) frequency Hx)
    as (Hr & Hg & Hbl).
  change (of_Z 0) with 0%Qc in *.
  cbn [nmul nsub nadd exact] in *.
  assert (Hread : ∀ i b', data !! i = Some b' → to_uint8_clamped (read_u8 (num := Qc) data i) = b').
  { intros i b' Hi. unfold read_u8. rewrite Hi. cbn [from_option].
    apply byte_faithful_exact. by eapply bytes_lookup. }
  destruct j as [|[|[|[|j]]]]; [..|lia].
  - rewrite Hr. unfold pixelColor. cbn [fst snd]. rewrite Nat.add_0_r in Hb. by apply Hread.
  - rewrite Hg. unfold pixelColor. cbn [fst snd]. by apply Hread.
  - rewrite Hbl. unfold pixelColor. cbn [fst snd]. by apply Hread.
  - by rewrite decide_True.
Qed.

(** * Integers in binary64 *)

Lemma digits2_pos_iter_xO (p n : positive) :
  digits2_pos (Pos.iter xO p n) = (digits2_pos p + n)%positive.
Proof.
  induction n as [|n IH] using Pos.peano_ind.
  - cbn. lia.
  - rewrite Pos.iter_succ. cbn [digits2_pos]. rewrite IH. lia.
Qed.

Lemma Zpos_iter_xO (p n : positive) :
  Z.pos (Pos.iter xO p n) = (Z.pos p * 2 ^ Z.pos n)%Z.
Proof.
  induction n as [|n IH] using Pos.peano_ind.
  - cbn. lia.
  - rewrite Pos.iter_succ, Pos2Z.inj_xO, IH, Pos2Z.inj_succ, Z.pow_succ_r by lia. lia.
Qed.

Lemma digits2_pos_bounds (p : positive) :
  (2 ^ (Z.pos (digits2_pos p) - 1) ≤ Z.pos p < 2 ^ Z.pos (digits2_pos p))%Z.
Proof.
  induction p as [p IH|p IH|]; cbn [digits2_pos]; [| |cbn; lia].
  - rewrite Pos2Z.inj_succ, (Pos2Z.inj_xI p).
    replace (Z.succ (Z.pos (digits2_pos p)) - 1)%Z with (Z.succ (Z.pos (digits2_pos p) - 1)) by lia.
    rewrite !Z.pow_succ_r by lia.
    set (lo := (2 ^ (Z.pos (digits2_pos p) - 1))%Z) in *.
    set (hi := (2 ^ Z.pos (digits2_pos p))%Z) in *. clearbody lo hi. lia.
  - rewrite Pos2Z.inj_succ, (Pos2Z.inj_xO p).
    replace (Z.succ (Z.pos (digits2_pos p)) - 1)%Z with (Z.succ (Z.pos (digits2_pos p) - 1)) by lia.
    rewrite !Z.pow_succ_r by lia.
    set (lo := (2 ^ (Z.pos (digits2_pos p) - 1))%Z) in *.
    set (hi := (2 ^ Z.pos (digits2_pos p))%Z) in *. clearbody lo hi. lia.
Qed.

Lemma digits2_pos_le_53 (p : positive) :
  (Z.pos p < 2 ^ 53)%Z → (Z.pos (digits2_pos p) ≤ 53)%Z.
Proof.
  intros Hp. pose proof (digits2_pos_bounds p) as [Hlo _].
  destruct (Z.le_gt_cases (Z.pos (digits2_pos p)) 53) as [?|Hgt]; [done|].
  assert (2 ^ 53 ≤ 2 ^ (Z.pos (digits2_pos p) - 1))%Z by (apply Z.pow_le_mono_r; lia).
  lia.
Qed.

(** A mantissa of 53 digits needs no rounding. *)
Lemma binary_round_aux_canonical (m : positive) (e : Z) :
  Z.pos (digits2_pos m) = 53%Z → (-1074 ≤ e ≤ 971)%Z →
  binary_round_aux prec emax false (Z.pos m) e loc_Exact = S754_finite false m e.
Proof.
  intros Hd He. unfold binary_round_aux, shr_fexp, fexp, emin. cbn [Zdigits2 shr_record_of_loc].
  rewrite Hd. replace (Z.max (53 + e - prec) (3 - emax - prec) - e)%Z with 0%Z
    by (unfold prec, emax; lia).
  cbn [shr shr_m loc_of_shr_record round_nearest_even Zdigits2 shr_record_of_loc].
  rewrite Hd. replace (Z.max (53 + e - prec) (3 - emax - prec) - e)%Z with 0%Z
    by (unfold prec, emax; lia).
  cbn [shr shr_m]. rewrite (proj2 (Z.leb_le e (emax - prec))) by (unfold prec, emax; lia).
  done.
Qed.

(** The float of a positive integer below 2^53: its mantissa and exponent
    denote the integer. *)
Lemma binary64_of_Z_pos (p : positive) :
  (Z.pos p < 2 ^ 53)%Z →
  ∃ m e, Prim2SF (Binary64.of_Z (Z.pos p)) = S754_finite false m e ∧
         (-52 ≤ e ≤ 0)%Z ∧ Z.pos m = (Z.pos p * 2 ^ (- e))%Z.
Proof.
  intros Hp. pose proof (digits2_pos_le_53 p Hp) as Hd.
  assert (∃ m e, binary_normalize prec emax (Z.pos p) 0 false = S754_finite false m e ∧
                 Z.pos (digits2_pos m) = 53%Z ∧
                 (-52 ≤ e ≤ 0)%Z ∧ Z.pos m = (Z.pos p * 2 ^ (- e))%Z) as (m & e & Hn & Hdm & He & Hm).
  { unfold binary_normalize, binary_round, shl_align, fexp, emin.
    rewrite Z.add_0_r, Z.sub_0_r.
    replace (Z.max (Z.pos (digits2_pos p) - prec) (3 - emax - prec))
      with (Z.pos (digits2_pos p) - 53)%Z by (unfold prec, emax; lia).
    destruct (Z.pos (digits2_pos p) - 53)%Z as [|k|k] eqn:Hk; [|lia|].
    - exists p, 0%Z. rewrite binary_round_aux_canonical by lia.
      split_and!; [done|lia|lia|lia|]. cbn. lia.
    - exists (Pos.iter xO p k), (Z.neg k).
      assert (Z.pos (digits2_pos (Pos.iter xO p k)) = 53%Z) as Hd'.
      { rewrite digits2_pos_iter_xO. lia. }
      rewrite binary_round_aux_canonical by (done || lia).
      split_and!; [done|done|lia|lia|].
      rewrite Zpos_iter_xO. done. }
  exists m, e. split; [|done]. unfold Binary64.of_Z. rewrite Hn.
  apply Prim2SF_SF2Prim. unfold valid_binary, bounded, canonical_mantissa, fexp, emin.
  rewrite Hdm. apply andb_true_iff. split.
  - apply Z.eqb_eq. unfold prec, emax. lia.
  - apply Z.leb_le. unfold prec, emax. lia.
Qed.

Lemma SFround_integer (m : positive) (e z : Z) :
  (e ≤ 0)%Z → Z.pos m = (z * 2 ^ (- e))%Z →
  Binary64.SFround (S754_finite false m e) = JInt z.
Proof.
  intros He Hm. unfold Binary64.SFround, Binary64.signed. cbn [cond_Zopp].
  destruct (Z.leb_spec 0 e) as [He0|He0].
  - assert (e = 0%Z) as -> by lia. cbn [Z.opp] in Hm. rewrite Z.shiftl_0_r. f_equal. lia.
  - f_equal. rewrite Z.shiftr_div_pow2 by lia. rewrite Hm.
    assert (0 < 2 ^ (- e - 1))%Z as Hpos by (apply Z.pow_pos_nonneg; lia).
    assert (2 ^ (- e) = 2 * 2 ^ (- e - 1))%Z as Hpow.
    { rewrite <-Z.pow_succ_r by lia. f_equal. lia. }
    rewrite Z.div_add_l by lia. rewrite Z.div_small by lia. lia.
Qed.

(** [Math.round(x - z)] for an integer [x] below 2^53 and a zero [z]. *)
Lemma binary64_round_sub_zero (x : nat) (z : float) (s : bool) :
  (Z.of_nat x < 2 ^ 53)%Z → Prim2SF z = S754_zero s →
  round (num := float) (of_Z (Z.of_nat x) - z)%js = JInt (Z.of_nat x).
Proof.
  intros Hx Hz. change (Binary64.SFround (Prim2SF (Binary64.of_Z (Z.of_nat x) - z)%float)
                        = JInt (Z.of_nat x)).
  rewrite sub_spec, Hz. unfold SF64sub.
  destruct (Z.of_nat x) as [|p|p] eqn:Hp; [|clear Hp|lia].
  - change (Prim2SF (Binary64.of_Z 0)) with (S754_zero false). by destruct s.
  - destruct (binary64_of_Z_pos p Hx) as (m & e & -> & He & Hm).
    cbn [SFsub]. apply SFround_integer; [lia|done].
Qed.

(** A finite number times [+0] is a zero, and a zero plus or minus [+0] is
    a zero. *)
Lemma binary64_mul_zero (x : float) :
  is_finite x = true → ∃ s, Prim2SF (x * of_Z 0)%js = S754_zero s.
Proof.
  intros Hfin. change (∃ s, Prim2SF (x * Binary64.of_Z 0)%float = S754_zero s).
  rewrite mul_spec. change (Prim2SF (Binary64.of_Z 0)) with (S754_zero false).
  destruct (binary64_finite_cases x Hfin) as [[s ->]|(s & m & e & ->)]; by eexists.
Qed.

Lemma binary64_zero_add_sub (z : float) (s : bool) :
  Prim2SF z = S754_zero s →
  (∃ s', Prim2SF (z + of_Z 0)%js = S754_zero s') ∧
  (∃ s', Prim2SF (z - of_Z 0)%js = S754_zero s').
Proof.
  intros Hz. split.
  - change (∃ s', Prim2SF (z + Binary64.of_Z 0)%float = S754_zero s').
    rewrite add_spec, Hz. change (Prim2SF (Binary64.of_Z 0)) with (S754_zero false).
    destruct s; by eexists.
  - change (∃ s', Prim2SF (z - Binary64.of_Z 0)%float = S754_zero s').
    rewrite sub_spec, Hz. change (Prim2SF (Binary64.of_Z 0)) with (S754_zero false).
    destruct s; by eexists.
Qed.

(** On binary64, with no amplitude and no aberration every channel samples
    its own column, as long as the sine is finite and the column index is
    below 2^53. *)
Lemma getPixel_own_column_binary64 (data : list Z) (w x y : nat) (s : float) :
  x < w → (Z.of_nat w ≤ 2 ^ 53)%Z → is_finite s = true →
  let offsetY := (s * of_Z 0)%js in
  getPixel data w (of_Z (Z.of_nat x) - (offsetY + of_Z 0))%js y = pixelColor data w (y, x) ∧
  getPixel data w (of_Z (Z.of_nat x) - offsetY)%js y = pixelColor data w (y, x) ∧
  getPixel data w (of_Z (Z.of_nat x) - (offsetY - of_Z 0))%js y = pixelColor data w (y, x).
Proof.
  intros Hx Hw Hfin offsetY.
  destruct (binary64_mul_zero s Hfin) as [s0 Hz]. fold offsetY in Hz.
  destruct (binary64_zero_add_sub offsetY s0 Hz) as [[s1 Hadd] [s2 Hsub]].
  assert (Hown : ∀ (z : float) (sz : bool), Prim2SF z = S754_zero sz →
            getPixel data w (of_Z (Z.of_nat x) - z)%js y = pixelColor data w (y, x)).
  { intros z sz Hsz. unfold getPixel, pixelColor.
    rewrite (binary64_round_sub_zero x z sz) by (done || lia).
    cbn [jsint_min jsint_max fst snd].
    rewrite Z.min_l, Z.max_r, Nat2Z.id by lia. done. }
  split; [by apply (Hown _ s1)|]. split; [by apply (Hown _ s0)|by apply (Hown _ s2)].
Qed.

(** The CRT effect with no amplitude, no aberration and no scanlines, on
    binary64: the source with every alpha channel forced to 255. *)
Lemma CRT_MODULATION_identity_binary64 (sin : float → float) (frequency : float)
    (data : list Z) (w h : nat) :
  length data = w * h * 4 → bytes data → (Z.of_nat w ≤ 2 ^ 53)%Z →
  (∀ y, y < h → is_finite (sin (of_Z (Z.of_nat y) * frequency)%js) = true) →
  CRT_MODULATION sin data w h (of_Z 0) frequency (of_Z 0) (of_Z 0) = opaque data.
Proof.
  intros Hlen Hbytes Hw Hsin.
  destruct (CRT_MODULATION_no_scanlines sin data w h (of_Z 0) frequency (of_Z 0) (of_Z 0))
    as [Hl Hout]; [done|].
  apply buffer_eq; [by rewrite length_opaque, Hl, Hlen|].
  intros k j Hj Hlt. rewrite Hl in Hlt.
  destruct (pixel_index_split w h k) as (y & x & Hy & Hx & ->); [lia|].
  rewrite Hout, lookup_opaque by done.
  destruct (lookup_lt_is_Some_2 data ((y * w + x) * 4 + j)) as [b Hb]; [lia|].
  rewrite Hb. cbn [fmap option_fmap option_map]. f_equal.
  unfold crtValue.
  destruct (getPixel_own_column_binary64 data w x y (sin (of_Z (Z.of_nat y) * frequency)%js)
              Hx Hw (Hsin y Hy)) as (Hr & Hg & Hbl).
  assert (Hread : ∀ i b', data !! i = Some b' →
            to_uint8_clamped (read_u8 (num := float) data i) = b').
  { intros i b' Hi. unfold read_u8. rewrite Hi. cbn [from_option].
    apply byte_faithful_binary64. by eapply bytes_lookup. }
  destruct j as [|[|[|[|j]]]]; [..|lia].
  - rewrite Hr. unfold pixelColor. cbn [fst snd]. rewrite Nat.add_0_r in Hb. by apply Hread.
  - rewrite Hg. unfold pixelColor. cbn [fst snd]. by apply Hread.
  - rewrite Hbl. unfold pixelColor. cbn [fst snd]. by apply Hread.
  - by rewrite decide_True.
Qed.

(** * What the block effects paint *)

Section BlockEffects.

Context {num : Type} `{Number num}.

Lemma PIXELATE_rects (data : list Z) (w h pixelSize : nat) (rect : fillRect) :
  rect ∈ PIXELATE data w h pixelSize →
  let size := Nat.max 1 pixelSize in
  ∃ x y,
    x ∈ blockStarts w size ∧ y ∈ blockStarts h size ∧
    let region := clippedBlock w h x y size in
    let totals := foldl (colorAdd data w) (of_Z 0, of_Z 0, of_Z 0, 0) region in
    let count := of_Z (Z.of_nat (length region)) in
    0 < length region ∧
    rect = FillRect (Rgb (floor (totals.1.1.1 / count)%js)
                         (floor (totals.1.1.2 / count)%js)
                         (floor (totals.1.2 / count)%js))
                    x y size size.
Proof.
  intros Hin size. unfold PIXELATE in Hin. fold size in Hin.
  apply list_elem_of_bind in Hin as (y & Hin & Hy).
  apply list_elem_of_bind in Hin as (x & Hin & Hx).
  exists x, y. split; [done|]. split; [done|]. cbv zeta.
  rewrite colorBlock_clipped in Hin.
  pose proof (colorAdd_count data w (clippedBlock w h x y size)
                (of_Z 0, of_Z 0, of_Z 0, 0)) as Hcount.
  destruct (foldl _ _ _) as [[[totalR totalG] totalB] count].
  cbn [fst snd] in *. rewrite Nat.add_0_l in Hcount. subst count.
  case_bool_decide; [|by apply elem_of_nil in Hin].
  apply list_elem_of_singleton in Hin. by split.
Qed.

Lemma DUOTONE_PIXELATE_rects (data : list Z) (w h pixelSize : nat) (threshold : num)
    (darkColor lightColor : list codeunit) (rect : fillRect) :
  rect ∈ DUOTONE_PIXELATE data w h pixelSize threshold darkColor lightColor →
  let size := Nat.max 1 pixelSize in
  ∃ x y,
    x ∈ blockStarts w size ∧ y ∈ blockStarts h size ∧
    let region := clippedBlock w h x y size in
    let total := foldl (brightnessAdd data w) (of_Z 0, 0) region in
    let avgBrightness := (total.1 / of_Z (Z.of_nat (length region)))%js in
    0 < length region ∧
    rect = FillRect (Css (if (avgBrightness <? threshold)%js then darkColor else lightColor))
                    x y size size.
Proof.
  intros Hin size. unfold DUOTONE_PIXELATE in Hin. fold size in Hin.
  apply list_elem_of_bind in Hin as (y & Hin & Hy).
  apply list_elem_of_bind in Hin as (x & Hin & Hx).
  exists x, y. split; [done|]. split; [done|]. cbv zeta.
  rewrite brightnessBlock_clipped in Hin.
  pose proof (brightnessAdd_count data w (clippedBlock w h x y size) (of_Z 0, 0)) as Hcount.
  destruct (foldl _ _ _) as [total count].
  cbn [fst snd] in *. rewrite Nat.add_0_l in Hcount. subst count.
  case_bool_decide; [|by apply elem_of_nil in Hin].
  apply list_elem_of_singleton in Hin. by split.
Qed.

Lemma JUSTICE_PALETTE_stored (c : Color) :
  byte_faithful → c ∈ JUSTICE_PALETTE →
  storedColor c ∈ [(13, 33, 108); (255, 147, 0); (215, 235, 188); (0, 0, 0)]%Z.
Proof.
  intros Hbf. unfold byte_faithful in Hbf. unfold JUSTICE_PALETTE.
  rewrite !elem_of_cons, !elem_of_nil.
  intros [->|[->|[->|[->|[]]]]]; cbv [storedColor fst snd];
    rewrite !Hbf by lia; auto 6.
Qed.

End BlockEffects.

(* ===================================================================== *)
(** * The claims *)
(* ===================================================================== *)

(** C1.  In both error-diffusion routines, one turn of the double loop at
    the pixel (x, y) changes the scratch buffer as follows, for every number
    arithmetic: the cell of an in-bounds pixel (x', y') receives the
    quantisation error (old scratch value minus quantised value) times the
    weight 7 (right), 3 (below-left), 5 (below) or 1 (below-right), over 16,
    times the factor, when (x', y') is that neighbour of (x, y); every other
    cell keeps its value.  Only in-bounds pixels have cells, so a neighbour
    outside the buffer receives nothing and no cell of another row or column
    stands in for it.  The loops visit the pixels in raster order. *)
Theorem error_diffusion_neighbours {num : Type} `{Number num}
    (w h x y : nat) (factor : num) :
  x < w → y < h →
  (∀ (palette : list Color) (pixelData : list num) (d : list Z),
     palette ≠ [] → length pixelData = w * h * 3 →
     ∃ newColor pixelData' d',
       findClosestColor (scratchColor pixelData w (y, x)) palette = Some newColor ∧
       ditherColorPixel w h palette factor (pixelData, d) y x = Some (pixelData', d') ∧
       length pixelData' = length pixelData ∧
       ∀ x' y' c, x' < w → y' < h → c < 3 →
         read_f32 pixelData' ((y' * w + x') * 3 + c) =
           match fsWeight (Z.of_nat x' - Z.of_nat x) (Z.of_nat y' - Z.of_nat y) with
           | Some weight =>
               fround (read_f32 pixelData ((y' * w + x') * 3 + c) +
                       channel c (colorError (scratchColor pixelData w (y, x)) newColor) *
                       of_Z weight * (factor / of_Z 16))%js
           | None => read_f32 pixelData ((y' * w + x') * 3 + c)
           end) ∧
  (∀ (darkColor lightColor : Color) (grayscale : list num) (d : list Z),
     length grayscale = w * h →
     let oldPixel := read_f32 grayscale (y * w + x) in
     let newPixelValue := if (oldPixel >? decimal 1275 1)%js then of_Z 255 else of_Z 0 in
     let quantError := (oldPixel - newPixelValue)%js in
     let grayscale' := (ditherBWPixel w h factor darkColor lightColor (grayscale, d) y x).1 in
     length grayscale' = length grayscale ∧
     ∀ x' y', x' < w → y' < h →
       read_f32 grayscale' (y' * w + x') =
         match fsWeight (Z.of_nat x' - Z.of_nat x) (Z.of_nat y' - Z.of_nat y) with
         | Some weight =>
             fround (read_f32 grayscale (y' * w + x') +
                     quantError * factor / of_Z 16 * of_Z weight)%js
         | None => read_f32 grayscale (y' * w + x')
         end) ∧
  (∀ (palette : list Color) st,
     ditherColorLoop w h palette factor st =
       foldlM (λ st p, ditherColorPixel w h palette factor st p.1 p.2) st (raster w h)) ∧
  (∀ (darkColor lightColor : Color) st,
     ditherBWLoop w h factor darkColor lightColor st =
       foldl (λ st p, ditherBWPixel w h factor darkColor lightColor st p.1 p.2) st (raster w h)).
Proof.
  intros Hx Hy. split_and!.
  - intros palette pixelData d Hne Hlen.
    destruct (findClosestColor_elem (scratchColor pixelData w (y, x)) palette Hne)
      as (newColor & Hfind & _).
    destruct (ditherColorPixel_scratch w h palette factor pixelData d x y newColor)
      as (pixelData' & d' & Hstep & Hrest); [done..|].
    by exists newColor, pixelData', d'.
  - intros darkColor lightColor grayscale d Hlen.
    by apply ditherBWPixel_scratch.
  - intros palette st. unfold ditherColorLoop. apply foldlM_raster.
  - intros darkColor lightColor st. unfold ditherBWLoop.
    apply (foldl_raster (λ st y x, ditherBWPixel w h factor darkColor lightColor st y x)).
Qed.

Lemma error_diffusion_neighbours_witness :
  1 < 3 ∧ 0 < 2 ∧
  read_f32 (num := float)
    (ditherBWPixel 3 2 (of_Z 1) (of_Z 0, of_Z 0, of_Z 0) (of_Z 255, of_Z 255, of_Z 255)
       (of_Z <$> [100; 200; 50; 10; 20; 30]%Z, replicate 24 0%Z) 0 1).1 (0 * 3 + 2)
  = (50 + (200 - 255) * 1 / 16 * 7)%float.
Proof.
  split; [lia|]. split; [lia|].
  destruct (error_diffusion_neighbours (num := float) 3 2 1 0 (of_Z 1)) as (_ & HBW & _);
    [lia..|].
  destruct (HBW (of_Z 0, of_Z 0, of_Z 0) (of_Z 255, of_Z 255, of_Z 255)
              (of_Z <$> [100; 200; 50; 10; 20; 30]%Z) (replicate 24 0%Z))
    as [_ Hread]; [reflexivity|].
  rewrite (Hread 2 0) by lia. vm_compute. reflexivity.
Defined.


(** C3.  A 4x4 buffer whose pixels are all (128, 128, 128), through
    Threshold with level 128: the luminance is exactly 128, which is not
    greater than the level, so every pixel becomes (0, 0, 0) and keeps its
    alpha channel.  This holds in IEEE binary64 arithmetic, the arithmetic of
    the engine, and in exact arithmetic. *)
Theorem threshold_mid_gray_4x4 (alphas : list Z) :
  length alphas = 4 * 4 →
  luminance (num := float) (of_Z 128) (of_Z 128) (of_Z 128) = of_Z 128 ∧
  (luminance (num := float) (of_Z 128) (of_Z 128) (of_Z 128) >? of_Z 128)%js = false ∧
  THRESHOLD (num := float) (uniformBuffer 128 128 128 alphas) (of_Z 128)
    = uniformBuffer 0 0 0 alphas ∧
  THRESHOLD (num := Qc) (uniformBuffer 128 128 128 alphas) (of_Z 128)
    = uniformBuffer 0 0 0 alphas.
Proof.
  intros _. split_and!.
  - apply luminance_gray_binary64.
  - vm_compute. reflexivity.
  - apply threshold_uniform_gray; vm_compute; reflexivity.
  - apply threshold_uniform_gray; vm_compute; reflexivity.
Qed.

Lemma threshold_mid_gray_4x4_witness :
  length (replicate 16 77%Z) = 4 * 4 ∧
  THRESHOLD (num := float) (uniformBuffer 128 128 128 (replicate 16 77%Z)) (of_Z 128)
    = uniformBuffer 0 0 0 (replicate 16 77%Z).
Proof.
  split; [reflexivity|].
  apply (threshold_mid_gray_4x4 (replicate 16 77%Z)). reflexivity.
Defined.






(** C6.  A source whose pixels all carry one colour (r, g, b), a member of
    the dithering palette, comes out of the palette-dithering routine
    unchanged: every pixel keeps that colour (and its alpha channel), because
    the quantisation error is zero at every pixel.  On exact arithmetic this
    holds for every palette that contains the colour and every factor.  On
    binary64 it holds for every palette whose quantiser maps the colour to
    itself and every factor whose sixteenth is finite, and so for the built-in
    effect on each of the four colours of its palette. *)
Theorem uniform_palette_color_is_fixed (r g b : Z) (alphas : list Z) (w h : nat) :
  (0 ≤ r ≤ 255)%Z → (0 ≤ g ≤ 255)%Z → (0 ≤ b ≤ 255)%Z →
  length alphas = w * h →
  (∀ (palette : list (Color (num := Qc))) (factor : Qc),
     (of_Z r, of_Z g, of_Z b) ∈ palette →
     applyDitheringColor (uniformBuffer r g b alphas) w h palette factor
       = Some (uniformBuffer r g b alphas)) ∧
  (∀ (palette : list (Color (num := float))) (factor : float),
     is_finite (factor / of_Z 16)%js = true →
     findClosestColor (of_Z r, of_Z g, of_Z b) palette = Some (of_Z r, of_Z g, of_Z b) →
     applyDitheringColor (uniformBuffer r g b alphas) w h palette factor
       = Some (uniformBuffer r g b alphas)) ∧
  (∀ factor : float,
     is_finite (factor / of_Z 16)%js = true →
     (of_Z r, of_Z g, of_Z b) ∈ JUSTICE_PALETTE (num := float) →
     DITHER_PALETTE (uniformBuffer r g b alphas) w h factor
       = Some (uniformBuffer r g b alphas)).
Proof.
  intros Hr Hg Hb Hlen. split_and!.
  - intros palette factor Hin. by apply applyDitheringColor_uniform_exact.
  - intros palette factor Hfin Hfixed. by apply applyDitheringColor_uniform_binary64.
  - intros factor Hfin Hin. unfold DITHER_PALETTE.
    apply applyDitheringColor_uniform_binary64; [done..|].
    by apply JUSTICE_PALETTE_fixed_binary64.
Qed.

Lemma uniform_palette_color_is_fixed_witness :
  DITHER_PALETTE (num := float) (uniformBuffer 215 235 188 [255; 128; 0; 7; 9; 255]%Z) 3 2
    (decimal 85 2)
  = Some (uniformBuffer 215 235 188 [255; 128; 0; 7; 9; 255]%Z).
Proof.
  destruct (uniform_palette_color_is_fixed 215 235 188 [255; 128; 0; 7; 9; 255]%Z 3 2)
    as (_ & _ & Hbuiltin); [lia|lia|lia|reflexivity|].
  apply Hbuiltin; [vm_compute; reflexivity|].
  unfold JUSTICE_PALETTE. do 2 apply list_elem_of_further. apply list_elem_of_here.
Defined.

(** C7.  For every colour and every non-empty palette, [findClosestColor]
    returns the palette entry of least squared Euclidean distance over the
    three channels, and among the entries at that distance the first in
    palette order.  On exact arithmetic: no entry is nearer than the result,
    every earlier entry is strictly farther, and a colour that is itself in
    the palette is returned.  On binary64, with the comparison of the code: no
    entry compares below the result, and the result compares below every
    earlier entry whose distance is a number. *)
Theorem findClosestColor_nearest_first (color : Color (num := Qc)) (palette : list Color) :
  palette ≠ [] →
  (∃ i r,
     findClosestColor color palette = Some r ∧
     palette !! i = Some r ∧
     (∀ p, p ∈ palette →
        distance color p =
          ((color.1.1 - p.1.1) * (color.1.1 - p.1.1) +
           (color.1.2 - p.1.2) * (color.1.2 - p.1.2) +
           (color.2 - p.2) * (color.2 - p.2))%Qc ∧
        (distance color r <= distance color p)%Qc) ∧
     (∀ j p, j < i → palette !! j = Some p → (distance color r < distance color p)%Qc) ∧
     (color ∈ palette → r = color)) ∧
  (∀ (color64 : Color (num := float)) (palette64 : list Color),
     palette64 ≠ [] →
     ∃ i r,
       findClosestColor color64 palette64 = Some r ∧
       palette64 !! i = Some r ∧
       (∀ p, p ∈ palette64 → (distance color64 p <? distance color64 r)%js = false) ∧
       (∀ j p, j < i → palette64 !! j = Some p →
          (distance color64 r <? distance color64 p)%js = true ∨
          is_nan (distance color64 p) = true)).
Proof.
  intros Hne. split; [|apply findClosestColor_binary64].
  destruct (findClosestColor_first_nearest color palette Hne)
    as (i & r & Hfind & Hi & Hmin & Hfirst & Hexact).
  exists i, r. split_and!; try done.
  intros p Hp. split; [done|]. by apply Hmin.
Qed.

Lemma findClosestColor_nearest_first_witness :
  findClosestColor (num := Qc) (of_Z 5, of_Z 0, of_Z 0)
    [(of_Z 10, of_Z 0, of_Z 0); (of_Z 0, of_Z 0, of_Z 0); (of_Z 5, of_Z 0, of_Z 0)]
  = Some (of_Z 5, of_Z 0, of_Z 0).
Proof.
  destruct (findClosestColor_nearest_first (of_Z 5, of_Z 0, of_Z 0)
    [(of_Z 10, of_Z 0, of_Z 0); (of_Z 0, of_Z 0, of_Z 0); (of_Z 5, of_Z 0, of_Z 0)])
    as ((i & r & -> & _ & _ & _ & Hexact) & _); [done|].
  f_equal. apply Hexact. do 2 apply list_elem_of_further. apply list_elem_of_here.
Defined.

(** C8.  [rgbToCmyk] returns (0, 0, 0, 1) on pure black, in binary64 and in
    exact arithmetic.  On exact arithmetic, for r, g, b in [0, 255], the key k
    lies in [0, 1]; when k is 1 the function returns (0, 0, 0, 1) without
    dividing, and otherwise the divisor 1 - k of the normalisation step is
    positive, so no division by zero is ever reached.  On binary64 the same
    holds of every triple of bytes: when k is not 1 the divisor is not
    zero. *)
Theorem rgbToCmyk_never_divides_by_zero (r g b : Qc) :
  (0 <= r)%Qc → (r <= of_Z 255)%Qc →
  (0 <= g)%Qc → (g <= of_Z 255)%Qc →
  (0 <= b)%Qc → (b <= of_Z 255)%Qc →
  rgbToCmyk (num := Qc) (of_Z 0) (of_Z 0) (of_Z 0) = (of_Z 0, of_Z 0, of_Z 0, of_Z 1) ∧
  rgbToCmyk (num := float) (of_Z 0) (of_Z 0) (of_Z 0) = (of_Z 0, of_Z 0, of_Z 0, of_Z 1) ∧
  (let k := cmyk_key r g b in
   ((0 <= k)%Qc ∧ (k <= of_Z 1)%Qc) ∧
   (k = of_Z 1 → rgbToCmyk r g b = (of_Z 0, of_Z 0, of_Z 0, of_Z 1)) ∧
   (k ≠ of_Z 1 →
      (0 < cmyk_divisor r g b)%Qc ∧ cmyk_divisor r g b ≠ 0%Qc ∧
      rgbToCmyk r g b =
        (((of_Z 1 - r / of_Z 255) - k) / cmyk_divisor r g b,
         ((of_Z 1 - g / of_Z 255) - k) / cmyk_divisor r g b,
         ((of_Z 1 - b / of_Z 255) - k) / cmyk_divisor r g b,
         k)%js)) ∧
  (∀ rb gb bb : Z,
     (0 ≤ rb ≤ 255)%Z → (0 ≤ gb ≤ 255)%Z → (0 ≤ bb ≤ 255)%Z →
     (cmyk_key (num := float) (of_Z rb) (of_Z gb) (of_Z bb) =? of_Z 1)%js = false →
     (cmyk_divisor (num := float) (of_Z rb) (of_Z gb) (of_Z bb) =? of_Z 0)%js = false).
Proof.
  intros Hr0 Hr Hg0 Hg Hb0 Hb.
  split; [apply rgbToCmyk_black_exact|].
  split; [apply rgbToCmyk_black_binary64|].
  split; [|apply rgbToCmyk_bytes_binary64].
  cbv zeta. split; [by apply cmyk_key_range|by apply rgbToCmyk_exact].
Qed.

Lemma rgbToCmyk_never_divides_by_zero_witness :
  (0 < cmyk_divisor (num := Qc) (of_Z 255) (of_Z 128) (of_Z 0))%Qc.
Proof.
  destruct (rgbToCmyk_never_divides_by_zero (of_Z 255) (of_Z 128) (of_Z 0))
    as (_ & _ & (_ & _ & Hdiv) & _); [done..|].
  apply Hdiv. intros Hk. apply (f_equal this) in Hk. vm_compute in Hk. discriminate Hk.
Defined.

(** C9.  For every number arithmetic and every non-empty palette,
    [findClosestColor] returns an entry of the palette; so the palette
    dithering routine does not throw and leaves, at every pixel, the bytes of
    a palette entry in the red, green and blue channels (and the alpha channel
    as it was).  For the built-in effect, when bytes are stored unchanged (as
    they are in binary64 and in exact arithmetic), every pixel is one of the
    four colours of JUSTICE_PALETTE. *)
Theorem dithering_output_in_palette {num : Type} `{Number num}
    (d : list Z) (w h : nat) (palette : list Color) (factor : num) :
  palette ≠ [] → length d = w * h * 4 →
  (∀ color, ∃ c, findClosestColor color palette = Some c ∧ c ∈ palette) ∧
  (∃ out,
     applyDitheringColor d w h palette factor = Some out ∧
     length out = length d ∧
     (∀ k, out !! (k * 4 + 3) = d !! (k * 4 + 3)) ∧
     ∀ x y, x < w → y < h →
       ∃ c, c ∈ palette ∧
         out !! ((y * w + x) * 4) = Some (storedColor c).1.1 ∧
         out !! ((y * w + x) * 4 + 1) = Some (storedColor c).1.2 ∧
         out !! ((y * w + x) * 4 + 2) = Some (storedColor c).2) ∧
  (byte_faithful (num := float) ∧ byte_faithful (num := Qc)) ∧
  (byte_faithful (num := num) →
   ∃ out,
     DITHER_PALETTE d w h factor = Some out ∧
     ∀ x y, x < w → y < h →
       ∃ c, c ∈ [(13, 33, 108); (255, 147, 0); (215, 235, 188); (0, 0, 0)]%Z ∧
         out !! ((y * w + x) * 4) = Some c.1.1 ∧
         out !! ((y * w + x) * 4 + 1) = Some c.1.2 ∧
         out !! ((y * w + x) * 4 + 2) = Some c.2).
Proof.
  intros Hne Hlen. split_and!.
  - intros color. by apply findClosestColor_elem.
  - by apply applyDitheringColor_palette.
  - apply byte_faithful_binary64.
  - apply byte_faithful_exact.
  - intros Hbf. unfold DITHER_PALETTE.
    destruct (applyDitheringColor_palette d w h JUSTICE_PALETTE factor)
      as (out & Hrun & _ & _ & Hpix); [done|done|].
    exists out. split; [done|]. intros x y Hx Hy.
    destruct (Hpix x y Hx Hy) as (c & Hc & Hrgb).
    exists (storedColor c). split; [|done]. by apply JUSTICE_PALETTE_stored.
Qed.

Lemma dithering_output_in_palette_witness :
  ∃ out,
    DITHER_PALETTE (num := float)
      [10; 200; 30; 255; 0; 0; 0; 255; 250; 140; 10; 255;
       100; 100; 100; 255; 200; 230; 180; 255; 20; 30; 100; 255]%Z 3 2 (of_Z 1) = Some out ∧
    ∀ x y, x < 3 → y < 2 →
      ∃ c, c ∈ [(13, 33, 108); (255, 147, 0); (215, 235, 188); (0, 0, 0)]%Z ∧
        out !! ((y * 3 + x) * 4) = Some c.1.1 ∧
        out !! ((y * 3 + x) * 4 + 1) = Some c.1.2 ∧
        out !! ((y * 3 + x) * 4 + 2) = Some c.2.
Proof.
  destruct (dithering_output_in_palette (num := float)
    [10; 200; 30; 255; 0; 0; 0; 255; 250; 140; 10; 255;
     100; 100; 100; 255; 200; 230; 180; 255; 20; 30; 100; 255]%Z 3 2
    JUSTICE_PALETTE (of_Z 1)) as (_ & _ & [Hbf _] & Hbuiltin); [done|reflexivity|].
  by apply Hbuiltin.
Defined.

(** C10.  The Grayscale effect keeps the length of the buffer and every
    alpha channel, and gives the red, green and blue channels of each pixel
    one common value: the luminance of the pixel, as a [Uint8ClampedArray]
    stores it, when it exceeds the level, and 0 otherwise.  This holds for
    every number arithmetic. *)
Theorem grayscale_preserves_alpha {num : Type} `{Number num} (data : list Z) (level : num) :
  length (GRAYSCALE data level) = length data ∧
  (∀ k, GRAYSCALE data level !! (k * 4 + 3) = data !! (k * 4 + 3)) ∧
  (∀ k c, c < 3 → k * 4 + c < length data →
     GRAYSCALE data level !! (k * 4 + c) =
       Some (to_uint8_clamped
               (if (pixelBrightness data k >? level)%js
                then pixelBrightness data k else of_Z 0))).
Proof. apply grayscale_spec. Qed.

(* ===================================================================== *)
(** * Further properties of the engine *)
(* ===================================================================== *)

(** ** Hexadecimal colours *)

Lemma hexDigitValue_range (c : codeunit) (v : Z) :
  hexDigitValue c = Some v → (0 ≤ v ≤ 15)%Z.
Proof.
  unfold hexDigitValue.
  repeat (destruct (_ && _) eqn:Hc;
          [apply andb_true_iff in Hc as [?%N.leb_le ?%N.leb_le]; intros [= <-]; lia|clear Hc]).
  done.
Qed.

Lemma hexByte_check_all : all_bytes hexByte_check = true.
Proof. vm_compute. reflexivity. Qed.

Lemma hexByte_spec (upper : bool) (v : Z) :
  (0 ≤ v ≤ 255)%Z →
  ∃ c1 c2, hexByte upper v = [c1; c2] ∧
    is_Some (hexDigitValue c1) ∧ is_Some (hexDigitValue c2) ∧
    parseInt16 [c1; c2] = v ∧ c1 ≠ 35%N.
Proof.
  intros Hv. pose proof hexByte_check_all as Hall. unfold all_bytes in Hall.
  rewrite forallb_forall in Hall.
  specialize (Hall v ltac:(apply list_elem_of_In, elem_of_seqZ; lia)).
  unfold hexByte_check in Hall. rewrite forallb_forall in Hall.
  specialize (Hall upper ltac:(destruct upper; cbn; tauto)).
  rewrite !andb_true_iff in Hall.
  destruct Hall as [[Hdig Hval] Hhash].
  exists (hexDigitChar upper (v `div` 16)), (hexDigitChar upper (v `mod` 16)).
  unfold hexByte in *. cbn [forallb] in Hdig, Hhash.
  rewrite !andb_true_iff in Hdig, Hhash.
  destruct Hdig as (H1%bool_decide_eq_true & H2%bool_decide_eq_true & _).
  destruct Hhash as (Hh%negb_true_iff%N.eqb_neq & _).
  split_and!; [done..| |done]. by apply Z.eqb_eq.
Qed.

Lemma hexGroups_Some (s : list codeunit) groups :
  hexGroups s = Some groups ↔
  ∃ r1 r2 g1 g2 b1 b2,
    s = [r1; r2; g1; g2; b1; b2] ∧ groups = ([r1; r2], [g1; g2], [b1; b2]) ∧
    Forall (λ c, is_Some (hexDigitValue c)) s.
Proof.
  split.
  - destruct s as [|r1 [|r2 [|g1 [|g2 [|b1 [|b2 [|? ?]]]]]]]; try done.
    unfold hexGroups. destruct (forallb _ _) eqn:Hall; [|done].
    intros [= <-]. exists r1, r2, g1, g2, b1, b2. split_and!; [done..|].
    apply Forall_forall. intros c Hc.
    rewrite forallb_forall in Hall. apply list_elem_of_In, Hall in Hc.
    by apply bool_decide_eq_true in Hc.
  - intros (r1 & r2 & g1 & g2 & b1 & b2 & -> & -> & Hall).
    unfold hexGroups.
    assert (forallb (λ c, bool_decide (is_Some (hexDigitValue c))) [r1; r2; g1; g2; b1; b2]
            = true) as ->; [|done].
    apply forallb_forall. intros c Hc%list_elem_of_In. apply bool_decide_eq_true.
    by eapply Forall_forall in Hall.
Qed.

Lemma hexGroups_length (s : list codeunit) : is_Some (hexGroups s) → length s = 6.
Proof.
  intros [groups (r1 & r2 & g1 & g2 & b1 & b2 & -> & _)%hexGroups_Some]. done.
Qed.

(** The pattern matches the strings of six digits, with at most one [#]
    before them. *)
Lemma hexExec_Some (hex : list codeunit) groups :
  hexExec hex = Some groups ↔
  ∃ body, (hex = body ∨ hex = 35%N :: body) ∧ hexGroups body = Some groups.
Proof.
  unfold hexExec. destruct hex as [|c rest].
  - split; [by exists []; split; [left|]|].
    intros (body & [<-|?] & Hg); done.
  - case_bool_decide as Hc.
    + subst c. destruct (hexGroups rest) as [g|] eqn:Hrest.
      * split.
        -- intros [= <-]. exists rest. split; [by right|done].
        -- intros (body & [<-|[= <-]] & Hg); [|congruence].
           assert (length (35%N :: rest) = 6) as Hl1 by (apply hexGroups_length; eauto).
           assert (length rest = 6) as Hl2 by (apply hexGroups_length; eauto).
           change (S (length rest) = 6) in Hl1. lia.
      * split.
        -- intros Hg. exists (35%N :: rest). split; [by left|done].
        -- intros (body & [<-|[= <-]] & Hg); [done|congruence].
    + split.
      * intros Hg. exists (c :: rest). split; [by left|done].
      * intros (body & [<-|[= ? ?]] & Hg); done.
Qed.

Lemma parseInt16_pair (c1 c2 : codeunit) (v1 v2 : Z) :
  hexDigitValue c1 = Some v1 → hexDigitValue c2 = Some v2 →
  parseInt16 [c1; c2] = (16 * v1 + v2)%Z.
Proof. intros H1 H2. unfold parseInt16. cbn. rewrite H1, H2. cbn. lia. Qed.

Lemma parseInt16_pair_range (c1 c2 : codeunit) :
  is_Some (hexDigitValue c1) → is_Some (hexDigitValue c2) →
  (0 ≤ parseInt16 [c1; c2] ≤ 255)%Z.
Proof.
  intros [v1 H1] [v2 H2]. rewrite (parseInt16_pair c1 c2 v1 v2) by done.
  apply hexDigitValue_range in H1, H2. lia.
Qed.

Lemma hexToRgb_hexColor (hash upper : bool) (r g b : Z) :
  (0 ≤ r ≤ 255)%Z → (0 ≤ g ≤ 255)%Z → (0 ≤ b ≤ 255)%Z →
  hexToRgb (hexColor hash upper r g b) = Some (r, g, b).
Proof.
  intros Hr Hg Hb.
  destruct (hexByte_spec upper r Hr) as (r1 & r2 & Her & Hr1 & Hr2 & Hrv & Hrh).
  destruct (hexByte_spec upper g Hg) as (g1 & g2 & Heg & Hg1 & Hg2 & Hgv & _).
  destruct (hexByte_spec upper b Hb) as (b1 & b2 & Heb & Hb1 & Hb2 & Hbv & _).
  unfold hexToRgb, hexColor. rewrite Her, Heg, Heb.
  assert (hexExec ((if hash then [35%N] else []) ++ [r1; r2] ++ [g1; g2] ++ [b1; b2])
          = Some ([r1; r2], [g1; g2], [b1; b2])) as ->.
  { apply hexExec_Some. exists [r1; r2; g1; g2; b1; b2]. split.
    - destruct hash; [by right|by left].
    - apply hexGroups_Some. exists r1, r2, g1, g2, b1, b2. split_and!; [done..|].
      repeat constructor; done. }
  by rewrite Hrv, Hgv, Hbv.
Qed.

(** X1.  [hexToRgb] reads back what a colour picker writes: for all bytes
    r, g and b, the string of their two-digit hexadecimal forms, in lower or
    in upper case, with or without the leading [#], parses to (r, g, b). *)
Theorem hexToRgb_round_trip (hash upper : bool) (r g b : Z) :
  (0 ≤ r ≤ 255)%Z → (0 ≤ g ≤ 255)%Z → (0 ≤ b ≤ 255)%Z →
  length (hexColor hash upper r g b) = (if hash then 7 else 6) ∧
  hexToRgb (hexColor hash upper r g b) = Some (r, g, b).
Proof.
  intros Hr Hg Hb. split; [by destruct hash|]. by apply hexToRgb_hexColor.
Qed.

Lemma hexToRgb_round_trip_witness :
  hexToRgb [35; 100; 51; 101; 48; 57; 57]%N = Some (211, 224, 153)%Z.
Proof.
  apply (hexToRgb_round_trip true false 211 224 153); lia.
Defined.

Lemma hexToRgb_Some (hex : list codeunit) (c : Z * Z * Z) :
  hexToRgb hex = Some c →
  ∃ r1 r2 g1 g2 b1 b2,
    (hex = [r1; r2; g1; g2; b1; b2] ∨ hex = [35%N; r1; r2; g1; g2; b1; b2]) ∧
    Forall (λ c, is_Some (hexDigitValue c)) [r1; r2; g1; g2; b1; b2] ∧
    c = (parseInt16 [r1; r2], parseInt16 [g1; g2], parseInt16 [b1; b2]).
Proof.
  unfold hexToRgb. destruct (hexExec hex) as [[[r g] b]|] eqn:Hexec; [|done].
  intros [= <-].
  apply hexExec_Some in Hexec as (body & Hhex & Hg).
  apply hexGroups_Some in Hg as (r1 & r2 & g1 & g2 & b1 & b2 & -> & [= -> -> ->] & Hall).
  exists r1, r2, g1, g2, b1, b2. split_and!; [|done..].
  destruct Hhex as [->| ->]; [by left|by right].
Qed.

(** X2.  [hexToRgb] accepts exactly the strings of six hexadecimal digits
    with at most one [#] before them, and nothing else: the empty string, the
    three-digit short form, a name such as [red], or eight digits give [null].
    A colour it returns has its three components between 0 and 255. *)
Theorem hexToRgb_accepts (hex : list codeunit) :
  (is_Some (hexToRgb hex) ↔
   ∃ body, (hex = body ∨ hex = 35%N :: body) ∧ length body = 6 ∧
           Forall (λ c, is_Some (hexDigitValue c)) body) ∧
  (∀ r g b, hexToRgb hex = Some (r, g, b) →
     (0 ≤ r ≤ 255)%Z ∧ (0 ≤ g ≤ 255)%Z ∧ (0 ≤ b ≤ 255)%Z) ∧
  (length hex ≠ 6 → length hex ≠ 7 → hexToRgb hex = None).
Proof.
  assert (Hiff : is_Some (hexToRgb hex) ↔
    ∃ body, (hex = body ∨ hex = 35%N :: body) ∧ length body = 6 ∧
            Forall (λ c, is_Some (hexDigitValue c)) body).
  { split.
    - intros [c (r1 & r2 & g1 & g2 & b1 & b2 & Hhex & Hall & _)%hexToRgb_Some].
      exists [r1; r2; g1; g2; b1; b2]. done.
    - intros (body & Hhex & Hlen & Hall).
      destruct body as [|r1 [|r2 [|g1 [|g2 [|b1 [|b2 [|? ?]]]]]]]; try done.
      unfold hexToRgb.
      assert (hexExec hex = Some ([r1; r2], [g1; g2], [b1; b2])) as ->; [|done].
      apply hexExec_Some. exists [r1; r2; g1; g2; b1; b2]. split; [done|].
      apply hexGroups_Some. by exists r1, r2, g1, g2, b1, b2. }
  split_and!; [done| |].
  - intros r g b (r1 & r2 & g1 & g2 & b1 & b2 & _ & Hall & [= -> -> ->])%hexToRgb_Some.
    rewrite !Forall_cons in Hall. destruct Hall as (? & ? & ? & ? & ? & ? & _).
    split_and!; by apply parseInt16_pair_range.
  - intros H6 H7. destruct (hexToRgb hex) as [c|] eqn:Hhex; [|done].
    destruct Hiff as [Hiff _].
    destruct Hiff as (body & [->| ->] & Hlen & _); [done| |]; cbn in *; lia.
Qed.

Lemma hexToRgb_accepts_witness : hexToRgb [35; 102; 102; 102]%N = None.
Proof.
  destruct (hexToRgb_accepts [35; 102; 102; 102]%N) as (_ & _ & Hnone).
  apply Hnone; cbn; lia.
Defined.

(** ** Palette dithering of an image already in the palette *)

Section DitherAt.

Context {num : Type} `{Number num}.

(** The double loop under an invariant [I] of the scratch buffer that makes
    the quantiser return, at each pixel, a colour satisfying [Q] there. *)
Lemma ditherColorLoop_invariant_at (w h : nat) (palette : list Color) (factor : num)
    (I : list num → Prop) (Q : nat → nat → Color → Prop) (pixelData : list num) (d : list Z) :
  (∀ pd x y, I pd → x < w → y < h →
     ∃ newColor, findClosestColor (scratchColor pd w (y, x)) palette = Some newColor ∧
                 Q y x newColor) →
  (∀ pd d0 x y pd' d', I pd → x < w → y < h →
     ditherColorPixel w h palette factor (pd, d0) y x = Some (pd', d') → I pd') →
  I pixelData → length d = w * h * 4 →
  ∃ pixelData' d',
    ditherColorLoop w h palette factor (pixelData, d) = Some (pixelData', d') ∧
    I pixelData' ∧
    length d' = length d ∧
    (∀ k, d' !! (k * 4 + 3) = d !! (k * 4 + 3)) ∧
    ∀ x y c, x < w → y < h → c < 3 →
      ∃ newColor, Q y x newColor ∧
        d' !! ((y * w + x) * 4 + c) = Some (to_uint8_clamped (channel c newColor)).
Proof.
  intros HQ HI HI0 Hld. unfold ditherColorLoop. rewrite foldlM_raster.
  destruct (foldlM_invariant
    (λ st p, ditherColorPixel w h palette factor st p.1 p.2)
    (λ pre st, I st.1 ∧ length st.2 = w * h * 4 ∧
       (∀ k, st.2 !! (k * 4 + 3) = d !! (k * 4 + 3)) ∧
       ∀ p c, p ∈ pre → p.2 < w → c < 3 →
         ∃ newColor, Q p.1 p.2 newColor ∧
           st.2 !! ((p.1 * w + p.2) * 4 + c) = Some (to_uint8_clamped (channel c newColor)))
    (raster w h) (pixelData, d)) as ([pd' d'] & Hrun & HI' & Hld' & Halpha & Hpix).
  - split_and!; [done..|]. intros p c Hp. by apply elem_of_nil in Hp.
  - intros pre [y x] [pd0 d0] (HIpd & Hl2 & Halpha & IH) [Hy Hx]%elem_of_raster.
    cbn [fst snd] in *.
    destruct (HQ pd0 x y HIpd Hx Hy) as (newColor & Hfind & HQc).
    destruct (ditherColorPixel_data w h palette factor pd0 d0 x y newColor Hfind)
      as (pd1 & Hstep).
    eexists. split; [done|]. cbn [fst snd].
    assert (Hin_range : (y * w + x) * 4 + 2 < length d0).
    { pose proof (raster_index_lt w h x y Hx Hy). lia. }
    assert (Hnew : ∀ c, c < 3 →
      <[(y * w + x) * 4 + 2 := to_uint8_clamped newColor.2]>
        (<[(y * w + x) * 4 + 1 := to_uint8_clamped newColor.1.2]>
           (<[(y * w + x) * 4 := to_uint8_clamped newColor.1.1]> d0))
        !! ((y * w + x) * 4 + c) = Some (to_uint8_clamped (channel c newColor))).
    { intros c Hc. rewrite lookup_store_pixel by (done || lia).
      rewrite decide_True by done. by destruct c as [|[|[|c]]]; [..|lia]. }
    split_and!.
    + by eapply HI.
    + by rewrite !length_insert.
    + intros k. rewrite lookup_store_pixel by (done || lia).
      rewrite decide_False by lia. apply Halpha.
    + intros [y' x'] c [Hp| ->%list_elem_of_singleton]%elem_of_app Hx' Hc;
        cbn [fst snd] in *.
      * destruct (decide (y' * w + x' = y * w + x)) as [Heq|Hneq].
        -- apply raster_index_inj in Heq as [-> ->]; [|done..].
           exists newColor. split; [done|]. by apply Hnew.
        -- destruct (IH (y', x') c Hp Hx' Hc) as (c' & Hc' & Hlook).
           exists c'. split; [done|]. cbn [fst snd] in *.
           rewrite lookup_store_pixel by (done || lia).
           by rewrite decide_False by lia.
      * exists newColor. split; [done|]. by apply Hnew.
  - exists pd', d'. cbn [fst snd] in *. split_and!; [done|done|lia|done|].
    intros x y c Hx Hy Hc. apply (Hpix (y, x)); [|done..]. by apply elem_of_raster.
Qed.

Variables (w h : nat) (palette : list (Color (num := num))) (factor : num).
Variable good : Color (num := num) → Prop.

(** The quantiser maps a good colour to itself, and adding a diffused zero
    error to a channel of a good colour gives the channel back. *)
Hypothesis quantise_fixed : ∀ c, good c → findClosestColor c palette = Some c.
Hypothesis diffuse_zero :
  ∀ c c' k weight, good c → good c' → k < 3 → weight ∈ [7; 3; 5; 1]%Z →
    fround (channel k c' + (channel k c - channel k c) * of_Z weight * (factor / of_Z 16))%js
    = channel k c'.

Lemma ditherColorLoop_fixed (pixelData : list num) (d : list Z) :
  length pixelData = w * h * 3 → length d = w * h * 4 →
  (∀ y x, y < h → x < w → good (scratchColor pixelData w (y, x))) →
  ∃ d',
    ditherColorLoop w h palette factor (pixelData, d) = Some (pixelData, d') ∧
    length d' = length d ∧
    (∀ k, d' !! (k * 4 + 3) = d !! (k * 4 + 3)) ∧
    ∀ x y c, x < w → y < h → c < 3 →
      d' !! ((y * w + x) * 4 + c)
      = Some (to_uint8_clamped (channel c (scratchColor pixelData w (y, x)))).
Proof.
  intros Hlp Hld Hgood.
  destruct (ditherColorLoop_invariant_at w h palette factor
              (λ pd, pd = pixelData) (λ y x c', c' = scratchColor pixelData w (y, x))
              pixelData d)
    as (pd' & d' & Hrun & -> & Hlen & Halpha & Hpix); [| |done|done|].
  - intros pd x y -> Hx Hy. eexists. split; [|done]. apply quantise_fixed. by apply Hgood.
  - intros pd d0 x y pd1 d1 -> Hx Hy Hstep.
    set (c := scratchColor pixelData w (y, x)).
    destruct (ditherColorPixel_scratch w h palette factor pixelData d0 x y c)
      as (pd2 & d2 & Hstep' & Hl1 & Hread); [done..|apply quantise_fixed; by apply Hgood|].
    rewrite Hstep in Hstep'. injection Hstep' as -> ->.
    apply list_eq. intros j.
    destruct (decide (j < w * h * 3)) as [Hj|Hj];
      [|by rewrite !lookup_ge_None_2 by lia].
    destruct (scratch_cell_split w h j Hj) as (y' & x' & k & Hy' & Hx' & Hk & ->).
    specialize (Hread x' y' k Hx' Hy' Hk).
    assert (read_f32 pd2 ((y' * w + x') * 3 + k)
            = read_f32 pixelData ((y' * w + x') * 3 + k)) as Heq.
    { rewrite Hread. destruct (fsWeight _ _) as [weight|] eqn:Hw; [|done].
      rewrite channel_colorError, read_scratchColor by done. fold c.
      apply diffuse_zero; [by apply Hgood|by apply Hgood|done|by eapply fsWeight_cases]. }
    unfold read_f32 in Heq.
    destruct (lookup_lt_is_Some_2 pd2 ((y' * w + x') * 3 + k)) as [v1 Hv1]; [lia|].
    destruct (lookup_lt_is_Some_2 pixelData ((y' * w + x') * 3 + k)) as [v Hv]; [lia|].
    rewrite Hv1, Hv in *. cbn in Heq. by subst.
  - exists d'. split_and!; [done..|].
    intros x y k Hx Hy Hk. destruct (Hpix x y k Hx Hy Hk) as (c' & -> & Hrgb). done.
Qed.

End DitherAt.

Section DitherFixed.

Context {num : Type} `{Number num}.

Lemma read_u8_lookup (d : list Z) (i : nat) (b : Z) :
  d !! i = Some b → read_u8 d i = of_Z b.
Proof. intros Hi. unfold read_u8. by rewrite Hi. Qed.

Lemma channel_pixelColor (d : list Z) (w y x c : nat) :
  c < 3 → channel c (pixelColor d w (y, x)) = read_u8 d ((y * w + x) * 4 + c).
Proof.
  intros Hc. unfold pixelColor. cbn [fst snd].
  destruct c as [|[|[|c]]]; cbn [channel fst snd]; [by rewrite Nat.add_0_r|done..|lia].
Qed.

Lemma color_eq_channels (c c' : Color (num := num)) :
  (∀ k, k < 3 → channel k c = channel k c') → c = c'.
Proof.
  intros Hk. destruct c as [[r g] b], c' as [[r' g'] b'].
  pose proof (Hk 0 ltac:(lia)). pose proof (Hk 1 ltac:(lia)). pose proof (Hk 2 ltac:(lia)).
  cbn in *. by subst.
Qed.

(** An image whose pixels the quantiser maps to themselves, with a zero
    error that diffuses to nothing, is left as it is. *)
Lemma applyDitheringColor_fixed (d : list Z) (w h : nat) (palette : list Color) (factor : num)
    (good : Color → Prop) :
  (∀ c, good c → findClosestColor c palette = Some c) →
  (∀ c c' k weight, good c → good c' → k < 3 → weight ∈ [7; 3; 5; 1]%Z →
     fround (channel k c' + (channel k c - channel k c) * of_Z weight * (factor / of_Z 16))%js
     = channel k c') →
  length d = w * h * 4 →
  (∀ y x, y < h → x < w → good (pixelColor d w (y, x))) →
  (∀ j b, d !! j = Some b → fround (of_Z b) = of_Z b ∧ to_uint8_clamped (of_Z b) = b) →
  applyDitheringColor d w h palette factor = Some d.
Proof.
  intros Hfixed Hzero Hlen Hgood Hbyte. unfold applyDitheringColor.
  assert (Hscratch : ∀ y x, y < h → x < w →
            scratchColor (initPixelData d w h) w (y, x) = pixelColor d w (y, x)).
  { intros y x Hy Hx. apply color_eq_channels. intros k Hk.
    pose proof (raster_index_lt w h x y Hx Hy) as Hlt.
    rewrite <-read_scratchColor, read_initPixelData, channel_pixelColor by done.
    destruct (lookup_lt_is_Some_2 d ((y * w + x) * 4 + k)) as [b Hb]; [lia|].
    rewrite (read_u8_lookup _ _ _ Hb). by apply (Hbyte _ _ Hb). }
  destruct (ditherColorLoop_fixed w h palette factor good Hfixed Hzero
              (initPixelData d w h) d) as (d' & -> & Hlen' & Halpha & Hrgb);
    [apply length_initPixelData|done| |].
  { intros y x Hy Hx. rewrite Hscratch by done. by apply Hgood. }
  cbn. f_equal. apply buffer_eq; [done|].
  intros k j Hj Hlt. rewrite Hlen', Hlen in Hlt.
  destruct (decide (j = 3)) as [->|Hj3]; [apply Halpha|].
  destruct (pixel_index_split w h k) as (y & x & Hy & Hx & ->); [lia|].
  rewrite Hrgb, Hscratch, channel_pixelColor by (done || lia).
  destruct (lookup_lt_is_Some_2 d ((y * w + x) * 4 + j)) as [b Hb]; [lia|].
  rewrite (read_u8_lookup _ _ _ Hb), Hb. f_equal. by apply (Hbyte _ _ Hb).
Qed.

(** With a palette of bytes stored unchanged, the output is an image of
    bytes whose pixels are palette colours. *)
Lemma applyDitheringColor_out (d : list Z) (w h : nat) (palette : list Color) (factor : num) :
  palette ≠ [] → bytePalette palette → byte_faithful →
  length d = w * h * 4 → bytes d →
  ∃ out,
    applyDitheringColor d w h palette factor = Some out ∧
    length out = w * h * 4 ∧ bytes out ∧
    (∀ k, out !! (k * 4 + 3) = d !! (k * 4 + 3)) ∧
    ∀ y x, y < h → x < w → pixelColor out w (y, x) ∈ palette.
Proof.
  intros Hne Hpal Hbf Hlen Hbytes.
  destruct (applyDitheringColor_palette d w h palette factor Hne Hlen)
    as (out & Hrun & Hlo & Halpha & Hpix).
  exists out. split_and!; [done|lia| |done|].
  - apply Forall_lookup. intros j b Hj.
    assert (j < w * h * 4) as Hlt by (apply lookup_lt_Some in Hj; lia).
    rewrite (Nat.div_mod_eq j 4), (Nat.mul_comm 4) in Hj.
    pose proof (Nat.mod_upper_bound j 4 ltac:(lia)) as Hm.
    destruct (decide (j `mod` 4 = 3)) as [H3|H3].
    + rewrite H3, Halpha in Hj. by eapply bytes_lookup.
    + destruct (pixel_index_split w h (j `div` 4)) as (y & x & Hy & Hx & Hk).
      { apply Nat.Div0.div_lt_upper_bound. lia. }
      rewrite Hk in Hj.
      destruct (Hpix x y Hx Hy) as (c & Hc & H0 & H1 & H2).
      destruct (Hpal c Hc) as (r & g & b' & Hrgb & ->).
      unfold bytes in Hrgb. rewrite !Forall_cons in Hrgb.
      destruct Hrgb as (Hr & Hg & Hb' & _).
      unfold storedColor, toColor in H0, H1, H2. cbn [fst snd] in *.
      unfold byte_faithful in Hbf. rewrite Hbf in H0, H1, H2 by done.
      assert (j `mod` 4 = 0 ∨ j `mod` 4 = 1 ∨ j `mod` 4 = 2) as [Hc'|[Hc'|Hc']] by lia;
        rewrite Hc' in Hj; rewrite ?Nat.add_0_r in Hj; congruence.
  - intros y x Hy Hx.
    destruct (Hpix x y Hx Hy) as (c & Hc & H0 & H1 & H2).
    destruct (Hpal c Hc) as (r & g & b' & Hrgb & ->).
    unfold bytes in Hrgb. rewrite !Forall_cons in Hrgb.
    destruct Hrgb as (Hr & Hg & Hb' & _).
    unfold storedColor, toColor in H0, H1, H2. cbn [fst snd] in *.
    unfold byte_faithful in Hbf. rewrite Hbf in H0, H1, H2 by done.
    assert (pixelColor out w (y, x) = toColor (r, g, b')) as ->; [|done].
    unfold pixelColor, toColor. cbn [fst snd].
    by rewrite (read_u8_lookup _ _ _ H0), (read_u8_lookup _ _ _ H1), (read_u8_lookup _ _ _ H2).
Qed.

Lemma JUSTICE_PALETTE_bytes : bytePalette JUSTICE_PALETTE.
Proof.
  intros c. unfold JUSTICE_PALETTE. rewrite !elem_of_cons, elem_of_nil.
  intros [->|[->|[->|[->|[]]]]]; eexists _, _, _; (split; [|reflexivity]);
    repeat constructor; lia.
Qed.

End DitherFixed.

(** On exact arithmetic: any palette. *)
Lemma applyDitheringColor_fixed_exact (d : list Z) (w h : nat)
    (palette : list (Color (num := Qc))) (factor : Qc) :
  length d = w * h * 4 → bytes d →
  (∀ y x, y < h → x < w → pixelColor d w (y, x) ∈ palette) →
  applyDitheringColor d w h palette factor = Some d.
Proof.
  intros Hlen Hbytes Hin.
  apply (applyDitheringColor_fixed d w h palette factor (λ c, c ∈ palette)); [| |done..|].
  - intros c Hc.
    destruct (findClosestColor_first_nearest c palette)
      as (i & c' & Hfind & _ & _ & _ & Heq).
    { intros ->. by apply elem_of_nil in Hc. }
    by rewrite Hfind, (Heq Hc).
  - intros c c' k weight _ _ _ _. cbn. ring.
  - intros j b Hj. split; [done|]. apply byte_faithful_exact. by eapply bytes_lookup.
Qed.

(** On binary64: the built-in palette and a finite diffusion factor. *)
Lemma DITHER_PALETTE_fixed_binary64 (d : list Z) (w h : nat) (factor : float) :
  is_finite (factor / of_Z 16)%float = true →
  length d = w * h * 4 → bytes d →
  (∀ y x, y < h → x < w → pixelColor (num := float) d w (y, x) ∈ JUSTICE_PALETTE) →
  DITHER_PALETTE d w h factor = Some d.
Proof.
  intros Hfin Hlen Hbytes Hin. unfold DITHER_PALETTE.
  assert (Hch : ∀ (c : Color (num := float)) k, c ∈ JUSTICE_PALETTE → k < 3 →
            ∃ vb, (0 ≤ vb ≤ 255)%Z ∧ channel k c = of_Z vb).
  { intros c k (r & g & b & Hrgb & ->)%JUSTICE_PALETTE_bytes Hk.
    unfold bytes in Hrgb. rewrite !Forall_cons in Hrgb. destruct Hrgb as (? & ? & ? & _).
    destruct k as [|[|[|k]]]; [by exists r|by exists g|by exists b|lia]. }
  apply (applyDitheringColor_fixed d w h JUSTICE_PALETTE factor (λ c, c ∈ JUSTICE_PALETTE));
    [| |done..|].
  - apply JUSTICE_PALETTE_fixed_binary64.
  - intros c c' k weight Hc Hc' Hk Hweight.
    destruct (Hch c k Hc Hk) as (vb & Hvb & ->).
    destruct (Hch c' k Hc' Hk) as (vb' & Hvb' & ->).
    destruct (byte_checks_spec vb Hvb) as (Hw & _).
    destruct (byte_checks_spec vb' Hvb') as (_ & H0 & Hn0 & _).
    change (fround (Binary64.of_Z vb' +
              (Binary64.of_Z vb - Binary64.of_Z vb) * Binary64.of_Z weight *
              (factor / Binary64.of_Z 16))%float = Binary64.of_Z vb').
    change (Binary64.of_Z vb) with (of_Z (num := float) vb).
    change (Binary64.of_Z vb') with (of_Z (num := float) vb').
    change (Binary64.of_Z weight) with (of_Z (num := float) weight).
    rewrite (Hw weight Hweight).
    destruct (binary64_zero_mul (factor / Binary64.of_Z 16) Hfin) as [-> | ->]; done.
  - intros j b Hj. assert (0 ≤ b ≤ 255)%Z as Hb by (by eapply bytes_lookup).
    split; [by apply (byte_checks_spec b)|by apply byte_faithful_binary64].
Qed.

(** X3.  An image whose pixels are all colours of the palette is a fixed
    point of palette dithering: every quantisation error is zero, nothing is
    diffused, and the routine returns the image as it was, alpha channels
    included.  This holds on exact arithmetic for every palette and factor,
    and on binary64 for the built-in palette and a finite factor. *)
Theorem palette_image_is_fixed (d : list Z) (w h : nat) :
  length d = w * h * 4 → bytes d →
  (∀ (palette : list (Color (num := Qc))) (factor : Qc),
     (∀ y x, y < h → x < w → pixelColor d w (y, x) ∈ palette) →
     applyDitheringColor d w h palette factor = Some d) ∧
  (∀ factor : float,
     is_finite (factor / of_Z 16)%float = true →
     (∀ y x, y < h → x < w → pixelColor (num := float) d w (y, x) ∈ JUSTICE_PALETTE) →
     DITHER_PALETTE d w h factor = Some d).
Proof.
  intros Hlen Hbytes. split.
  - intros palette factor Hin. by apply applyDitheringColor_fixed_exact.
  - intros factor Hfin Hin. by apply DITHER_PALETTE_fixed_binary64.
Qed.

Lemma palette_image_is_fixed_witness :
  DITHER_PALETTE (num := float) [13; 33; 108; 255; 0; 0; 0; 7]%Z 2 1 (of_Z 1)
  = Some [13; 33; 108; 255; 0; 0; 0; 7]%Z.
Proof.
  destruct (palette_image_is_fixed [13; 33; 108; 255; 0; 0; 0; 7]%Z 2 1) as [_ Hfloat].
  - reflexivity.
  - repeat constructor; lia.
  - apply Hfloat; [reflexivity|].
    intros y x Hy Hx. assert (y = 0) as -> by lia.
    destruct x as [|[|x]]; [|  |lia].
    + apply list_elem_of_here.
    + do 3 apply list_elem_of_further. apply list_elem_of_here.
Defined.

(** X4.  Palette dithering is idempotent: running it on its own output
    changes nothing.  On exact arithmetic this holds for every non-empty
    palette of bytes and every factor; on binary64 for the built-in effect
    and a finite factor. *)
Theorem palette_dithering_idempotent (d : list Z) (w h : nat) :
  length d = w * h * 4 → bytes d →
  (∀ (palette : list (Color (num := Qc))) (factor : Qc),
     palette ≠ [] → bytePalette palette →
     ∃ out, applyDitheringColor d w h palette factor = Some out ∧
            applyDitheringColor out w h palette factor = Some out) ∧
  (∀ factor : float,
     is_finite (factor / of_Z 16)%float = true →
     ∃ out, DITHER_PALETTE d w h factor = Some out ∧
            DITHER_PALETTE out w h factor = Some out).
Proof.
  intros Hlen Hbytes. split.
  - intros palette factor Hne Hpal.
    destruct (applyDitheringColor_out d w h palette factor Hne Hpal byte_faithful_exact
                Hlen Hbytes) as (out & Hrun & Hlo & Hbo & _ & Hin).
    exists out. split; [done|]. by apply applyDitheringColor_fixed_exact.
  - intros factor Hfin. unfold DITHER_PALETTE at 1.
    destruct (applyDitheringColor_out (num := float) d w h JUSTICE_PALETTE factor)
      as (out & Hrun & Hlo & Hbo & _ & Hin);
      [done|apply JUSTICE_PALETTE_bytes|apply byte_faithful_binary64|done..|].
    exists out. split; [done|]. by apply DITHER_PALETTE_fixed_binary64.
Qed.

Lemma palette_dithering_idempotent_witness :
  ∃ out, DITHER_PALETTE (num := float) [200; 100; 50; 255; 10; 20; 30; 9]%Z 2 1 (of_Z 1)
         = Some out ∧
         DITHER_PALETTE (num := float) out 2 1 (of_Z 1) = Some out.
Proof.
  destruct (palette_dithering_idempotent [200; 100; 50; 255; 10; 20; 30; 9]%Z 2 1)
    as [_ Hfloat].
  - reflexivity.
  - repeat constructor; lia.
  - apply Hfloat. reflexivity.
Defined.

(** ** Two-colour dithering *)

Section DitherBW.

Context {num : Type} `{Number num}.

Lemma initGrayscale_spec (d : list Z) (cells n : nat) :
  let grayscale :=
    foldl (λ grayscale index,
             let i := index * 4 in
             let brightness :=
               luminance (read_u8 d i) (read_u8 d (i + 1)) (read_u8 d (i + 2)) in
             <[index := fround brightness]> grayscale)
          (replicate cells (of_Z 0)) (seq 0 n) in
  length grayscale = cells ∧
  ∀ k, k < cells →
    grayscale !! k = Some (if decide (k < n) then fround (pixelBrightness d k) else of_Z 0).
Proof.
  induction n as [|n [IHlen IH]]; cbn zeta.
  - split; [apply length_replicate|]. intros k Hlt.
    rewrite decide_False by lia. by apply lookup_replicate_2.
  - rewrite seq_S, foldl_app. cbn [foldl Nat.add]. cbn zeta in IHlen, IH.
    set (p := foldl _ _ (seq 0 n)) in *.
    split; [by rewrite length_insert|].
    intros k Hlt. destruct (decide (k = n)) as [->|Hne].
    + rewrite decide_True by lia. apply list_lookup_insert_eq. lia.
    + rewrite list_lookup_insert_ne by lia. rewrite IH by done.
      f_equal. repeat case_decide; done || lia.
Qed.

Lemma length_initGrayscale (d : list Z) (w h : nat) :
  length (initGrayscale d w h) = w * h.
Proof. apply (initGrayscale_spec d (w * h) ((length d + 3) / 4)). Qed.

Lemma read_initGrayscale (d : list Z) (w h k : nat) :
  length d = w * h * 4 → k < w * h →
  read_f32 (initGrayscale d w h) k = fround (pixelBrightness d k).
Proof.
  intros Hlen Hk. unfold read_f32, initGrayscale.
  destruct (initGrayscale_spec d (w * h) ((length d + 3) / 4)) as [_ Hread].
  rewrite Hread by lia. rewrite decide_True; [done|].
  rewrite Hlen. apply Nat.div_le_lower_bound; lia.
Qed.

(** The image data after one turn of the double loop. *)
Lemma ditherBWPixel_data (w h : nat) (factor : num) (darkColor lightColor : Color)
    (grayscale : list num) (d : list Z) (x y : nat) :
  let useLightColor := (read_f32 grayscale (y * w + x) >? decimal 1275 1)%js in
  let c := if useLightColor then lightColor else darkColor in
  (ditherBWPixel w h factor darkColor lightColor (grayscale, d) y x).2 =
    <[(y * w + x) * 4 + 2 := to_uint8_clamped c.2]>
      (<[(y * w + x) * 4 + 1 := to_uint8_clamped c.1.2]>
         (<[(y * w + x) * 4 := to_uint8_clamped c.1.1]> d)).
Proof. cbv zeta. unfold ditherBWPixel. cbn [snd]. by destruct (_ >? _)%js. Qed.

(** The double loop under an invariant [I] of the scratch buffer that lets
    the choice between the two colours at each pixel satisfy [Q] there. *)
Lemma ditherBWLoop_invariant (w h : nat) (factor : num) (darkColor lightColor : Color)
    (I : list num → Prop) (Q : nat → nat → bool → Prop) (grayscale : list num) (d : list Z) :
  (∀ g d0 x y, I g → x < w → y < h →
     I (ditherBWPixel w h factor darkColor lightColor (g, d0) y x).1 ∧
     Q y x (read_f32 g (y * w + x) >? decimal 1275 1)%js) →
  I grayscale → length d = w * h * 4 →
  let out := ditherBWLoop w h factor darkColor lightColor (grayscale, d) in
  I out.1 ∧
  length out.2 = length d ∧
  (∀ k, out.2 !! (k * 4 + 3) = d !! (k * 4 + 3)) ∧
  ∀ x y, x < w → y < h →
    ∃ useLightColor : bool, Q y x useLightColor ∧
      ∀ c, c < 3 →
        out.2 !! ((y * w + x) * 4 + c)
        = Some (to_uint8_clamped
                  (channel c (if useLightColor then lightColor else darkColor))).
Proof.
  intros Hstep HI0 Hld out. subst out. unfold ditherBWLoop.
  rewrite (foldl_raster (λ st y x, ditherBWPixel w h factor darkColor lightColor st y x)).
  pose proof (foldl_invariant
    (λ st p, ditherBWPixel w h factor darkColor lightColor st p.1 p.2)
    (λ pre st, I st.1 ∧ length st.2 = w * h * 4 ∧
       (∀ k, st.2 !! (k * 4 + 3) = d !! (k * 4 + 3)) ∧
       ∀ p, p ∈ pre → p.2 < w →
         ∃ useLightColor : bool, Q p.1 p.2 useLightColor ∧
           ∀ c, c < 3 →
             st.2 !! ((p.1 * w + p.2) * 4 + c)
             = Some (to_uint8_clamped (channel c (if useLightColor then lightColor
                                                  else darkColor))))
    (raster w h) (grayscale, d)) as Hinv.
  destruct Hinv as (HI' & Hld' & Halpha & Hpix).
  - split_and!; [done..|]. intros p Hp. by apply elem_of_nil in Hp.
  - intros pre [y x] [g0 d0] (HIg & Hl2 & Halpha & IH) [Hy Hx]%elem_of_raster.
    cbn [fst snd] in *.
    destruct (Hstep g0 d0 x y HIg Hx Hy) as [HI1 HQ].
    pose proof (ditherBWPixel_data w h factor darkColor lightColor g0 d0 x y) as Hdata.
    cbv zeta in Hdata.
    set (u := (read_f32 g0 (y * w + x) >? decimal 1275 1)%js) in *.
    set (col := if u then lightColor else darkColor) in *.
    assert (Hin_range : (y * w + x) * 4 + 2 < length d0).
    { pose proof (raster_index_lt w h x y Hx Hy). lia. }
    assert (Hnew : ∀ c, c < 3 →
      (ditherBWPixel w h factor darkColor lightColor (g0, d0) y x).2
        !! ((y * w + x) * 4 + c) = Some (to_uint8_clamped (channel c col))).
    { intros c Hc. rewrite Hdata, lookup_store_pixel by (done || lia).
      rewrite decide_True by done. by destruct c as [|[|[|c]]]; [..|lia]. }
    split_and!.
    + done.
    + by rewrite Hdata, !length_insert.
    + intros k. rewrite Hdata, lookup_store_pixel by (done || lia).
      rewrite decide_False by lia. apply Halpha.
    + intros [y' x'] [Hp| ->%list_elem_of_singleton]%elem_of_app Hx';
        cbn [fst snd] in *.
      * destruct (decide (y' * w + x' = y * w + x)) as [Heq|Hneq].
        -- apply raster_index_inj in Heq as [-> ->]; [|done..].
           exists u. split; [done|]. by apply Hnew.
        -- destruct (IH (y', x') Hp Hx') as (u' & Hu' & Hlook).
           exists u'. split; [done|]. cbn [fst snd] in *. intros c Hc.
           rewrite Hdata, lookup_store_pixel by (done || lia).
           rewrite decide_False by lia. by apply Hlook.
      * exists u. split; [done|]. by apply Hnew.
  - split_and!; [done|lia|done|].
    intros x y Hx Hy. apply (Hpix (y, x)); [|done..]. by apply elem_of_raster.
Qed.

(** Every pixel ends as one of the two colours, as stored. *)
Lemma applyDitheringBW_two_tone (d : list Z) (w h : nat) (factor : num)
    (darkColor lightColor : Color) :
  length d = w * h * 4 →
  let out := applyDitheringBW d w h factor darkColor lightColor in
  length out = length d ∧
  (∀ k, out !! (k * 4 + 3) = d !! (k * 4 + 3)) ∧
  ∀ x y, x < w → y < h →
    ∃ c, (c = darkColor ∨ c = lightColor) ∧
      ∀ k, k < 3 → out !! ((y * w + x) * 4 + k) = Some (to_uint8_clamped (channel k c)).
Proof.
  intros Hlen out. subst out. unfold applyDitheringBW.
  destruct (ditherBWLoop_invariant w h factor darkColor lightColor
              (λ g, length g = w * h) (λ _ _ _, True) (initGrayscale d w h) d)
    as (_ & Hlo & Halpha & Hpix); [|apply length_initGrayscale|done|].
  - intros g d0 x y Hg Hx Hy. split; [|done].
    by destruct (ditherBWPixel_scratch w h factor darkColor lightColor g d0 x y) as [-> _].
  - split_and!; [done..|]. intros x y Hx Hy.
    destruct (Hpix x y Hx Hy) as (u & _ & Hlook).
    exists (if u then lightColor else darkColor). split; [destruct u; auto|done].
Qed.

(** The loop on a scratch buffer that one turn never changes: each pixel is
    chosen by its own scratch value. *)
Lemma ditherBWLoop_stable (w h : nat) (factor : num) (darkColor lightColor : Color)
    (grayscale : list num) (d : list Z) :
  length grayscale = w * h → length d = w * h * 4 →
  (∀ x y weight, x < w → y < h → weight ∈ [7; 3; 5; 1]%Z →
     let oldPixel := read_f32 grayscale (y * w + x) in
     let newPixelValue := if (oldPixel >? decimal 1275 1)%js then of_Z 255 else of_Z 0 in
     ∀ x' y', x' < w → y' < h →
       fround (read_f32 grayscale (y' * w + x') +
               (oldPixel - newPixelValue) * factor / of_Z 16 * of_Z weight)%js
       = read_f32 grayscale (y' * w + x')) →
  let out := (ditherBWLoop w h factor darkColor lightColor (grayscale, d)).2 in
  length out = length d ∧
  (∀ k, out !! (k * 4 + 3) = d !! (k * 4 + 3)) ∧
  ∀ x y c, x < w → y < h → c < 3 →
    out !! ((y * w + x) * 4 + c)
    = Some (to_uint8_clamped
              (channel c (if (read_f32 grayscale (y * w + x) >? decimal 1275 1)%js
                          then lightColor else darkColor))).
Proof.
  intros Hlg Hld Hzero out. subst out.
  destruct (ditherBWLoop_invariant w h factor darkColor lightColor
              (λ g, g = grayscale)
              (λ y x u, u = (read_f32 grayscale (y * w + x) >? decimal 1275 1)%js)
              grayscale d)
    as (_ & Hlo & Halpha & Hpix); [|done|done|].
  - intros g d0 x y -> Hx Hy. split; [|done].
    destruct (ditherBWPixel_scratch w h factor darkColor lightColor grayscale d0 x y)
      as [Hl1 Hread]; [done..|]. cbv zeta in Hl1, Hread.
    set (g1 := (ditherBWPixel w h factor darkColor lightColor (grayscale, d0) y x).1) in *.
    apply list_eq. intros j.
    destruct (decide (j < w * h)) as [Hj|Hj]; [|by rewrite !lookup_ge_None_2 by lia].
    destruct (pixel_index_split w h j Hj) as (y' & x' & Hy' & Hx' & ->).
    specialize (Hread x' y' Hx' Hy').
    assert (read_f32 g1 (y' * w + x') = read_f32 grayscale (y' * w + x')) as Heq.
    { rewrite Hread. destruct (fsWeight _ _) as [weight|] eqn:Hw; [|done].
      apply (Hzero x y weight); try done. by eapply fsWeight_cases. }
    unfold read_f32 in Heq.
    destruct (lookup_lt_is_Some_2 g1 (y' * w + x')) as [v1 Hv1]; [lia|].
    destruct (lookup_lt_is_Some_2 grayscale (y' * w + x')) as [v Hv]; [lia|].
    rewrite Hv1, Hv in *. cbn in Heq. by subst.
  - split_and!; [done..|]. intros x y c Hx Hy Hc.
    destruct (Hpix x y Hx Hy) as (u & -> & Hlook). by apply Hlook.
Qed.

End DitherBW.

Lemma hexToRgb_range (hex : list codeunit) (r g b : Z) :
  hexToRgb hex = Some (r, g, b) → (0 ≤ r ≤ 255)%Z ∧ (0 ≤ g ≤ 255)%Z ∧ (0 ≤ b ≤ 255)%Z.
Proof.
  intros (r1 & r2 & g1 & g2 & b1 & b2 & _ & Hall & [= -> -> ->])%hexToRgb_Some.
  rewrite !Forall_cons in Hall. destruct Hall as (? & ? & ? & ? & ? & ? & _).
  split_and!; by apply parseInt16_pair_range.
Qed.

Lemma hexToRgb_default_range (hex : list codeunit) (r0 g0 b0 : Z) :
  (0 ≤ r0 ≤ 255)%Z → (0 ≤ g0 ≤ 255)%Z → (0 ≤ b0 ≤ 255)%Z →
  let c := default (r0, g0, b0) (hexToRgb hex) in
  (0 ≤ c.1.1 ≤ 255)%Z ∧ (0 ≤ c.1.2 ≤ 255)%Z ∧ (0 ≤ c.2 ≤ 255)%Z.
Proof.
  intros Hr Hg Hb. destruct (hexToRgb hex) as [[[r g] b]|] eqn:Hhex; cbn; [|done].
  by apply (hexToRgb_range hex).
Qed.

Section DitherBWEffect.

Context {num : Type} `{Number num}.

Lemma stored_toColor (c : Z * Z * Z) (k : nat) :
  byte_faithful → (0 ≤ c.1.1 ≤ 255)%Z → (0 ≤ c.1.2 ≤ 255)%Z → (0 ≤ c.2 ≤ 255)%Z →
  to_uint8_clamped (channel k (toColor c))
  = match k with 0 => c.1.1 | 1 => c.1.2 | _ => c.2 end.
Proof.
  intros Hbf Hr Hg Hb. unfold byte_faithful in Hbf.
  destruct k as [|[|k]]; cbn [channel toColor fst snd]; by rewrite Hbf.
Qed.

(** X5.  Two-colour dithering gives every pixel one of its two colours and
    leaves every alpha channel and the length of the buffer as they were, for
    every number arithmetic.  In the effect, the two colours are those the
    hexadecimal parameters parse to, black and white standing in for a
    parameter that does not parse; when bytes are stored unchanged, every
    output pixel is exactly one of these two triples of bytes. *)
Theorem dither_bw_two_tone (d : list Z) (w h : nat) (factor : num) :
  length d = w * h * 4 →
  (∀ darkColor lightColor : Color,
     let out := applyDitheringBW d w h factor darkColor lightColor in
     length out = length d ∧
     (∀ k, out !! (k * 4 + 3) = d !! (k * 4 + 3)) ∧
     ∀ x y, x < w → y < h →
       ∃ c, (c = darkColor ∨ c = lightColor) ∧
         ∀ k, k < 3 → out !! ((y * w + x) * 4 + k) = Some (to_uint8_clamped (channel k c))) ∧
  (byte_faithful →
   ∀ darkColor lightColor : list codeunit,
     let dark := default (0, 0, 0)%Z (hexToRgb darkColor) in
     let light := default (255, 255, 255)%Z (hexToRgb lightColor) in
     let out := DITHER_BW d w h factor darkColor lightColor in
     length out = length d ∧
     (∀ k, out !! (k * 4 + 3) = d !! (k * 4 + 3)) ∧
     ∀ x y, x < w → y < h →
       ∃ c, (c = dark ∨ c = light) ∧
         out !! ((y * w + x) * 4) = Some c.1.1 ∧
         out !! ((y * w + x) * 4 + 1) = Some c.1.2 ∧
         out !! ((y * w + x) * 4 + 2) = Some c.2).
Proof.
  intros Hlen. split.
  - intros darkColor lightColor. by apply applyDitheringBW_two_tone.
  - intros Hbf darkColor lightColor dark light out. subst out. unfold DITHER_BW.
    fold dark. fold light.
    destruct (applyDitheringBW_two_tone d w h factor (toColor dark) (toColor light) Hlen)
      as (Hlo & Halpha & Hpix).
    pose proof (hexToRgb_default_range darkColor 0 0 0) as Hd.
    pose proof (hexToRgb_default_range lightColor 255 255 255) as Hl.
    cbv zeta in Hd, Hl. fold dark in Hd. fold light in Hl.
    destruct Hd as (? & ? & ?); [lia..|]. destruct Hl as (? & ? & ?); [lia..|].
    split_and!; [done..|]. intros x y Hx Hy.
    destruct (Hpix x y Hx Hy) as (c & Hc & Hlook).
    pose proof (Hlook 0 ltac:(lia)) as Hc0. rewrite Nat.add_0_r in Hc0.
    pose proof (Hlook 1 ltac:(lia)) as Hc1. pose proof (Hlook 2 ltac:(lia)) as Hc2.
    destruct Hc as [-> | ->]; [exists dark|exists light];
      rewrite stored_toColor in Hc0, Hc1, Hc2 by done; auto.
Qed.

End DitherBWEffect.

Lemma dither_bw_two_tone_witness :
  ∃ c, (c = (0, 0, 0)%Z ∨ c = (211, 224, 153)%Z) ∧
    DITHER_BW (num := float) [200; 200; 200; 9; 10; 10; 10; 8]%Z 2 1 (of_Z 1)
      [35; 102; 102]%N [35; 100; 51; 101; 48; 57; 57]%N !! 4 = Some c.1.1.
Proof.
  destruct (dither_bw_two_tone (num := float) [200; 200; 200; 9; 10; 10; 10; 8]%Z 2 1
              (of_Z 1)) as [_ Hhex]; [reflexivity|].
  destruct (Hhex byte_faithful_binary64 [35; 102; 102]%N [35; 100; 51; 101; 48; 57; 57]%N)
    as (_ & _ & Hpix).
  destruct (Hpix 1 0) as (c & Hc & H0 & _); [lia..|]. exists c. split; [exact Hc|exact H0].
Defined.

(** ** Two-colour dithering without diffusion *)

Section DitherBWStable.

Context {num : Type} `{Number num}.

(** On a scratch buffer that no turn changes, each pixel is chosen by its
    own brightness. *)
Lemma applyDitheringBW_stable (d : list Z) (w h : nat) (factor : num)
    (darkColor lightColor : Color) :
  length d = w * h * 4 →
  (∀ k k' weight, k < w * h → k' < w * h → weight ∈ [7; 3; 5; 1]%Z →
     let oldPixel := fround (pixelBrightness d k) in
     let newPixelValue := if (oldPixel >? decimal 1275 1)%js then of_Z 255 else of_Z 0 in
     fround (fround (pixelBrightness d k') +
             (oldPixel - newPixelValue) * factor / of_Z 16 * of_Z weight)%js
     = fround (pixelBrightness d k')) →
  let out := applyDitheringBW d w h factor darkColor lightColor in
  length out = length d ∧
  (∀ k, out !! (k * 4 + 3) = d !! (k * 4 + 3)) ∧
  ∀ k c, k < w * h → c < 3 →
    out !! (k * 4 + c)
    = Some (to_uint8_clamped
              (channel c (if (fround (pixelBrightness d k) >? decimal 1275 1)%js
                          then lightColor else darkColor))).
Proof.
  intros Hlen Hzero out. subst out. unfold applyDitheringBW.
  destruct (ditherBWLoop_stable w h factor darkColor lightColor (initGrayscale d w h) d)
    as (Hlo & Halpha & Hpix); [apply length_initGrayscale|done| |].
  - intros x y weight Hx Hy Hweight oldPixel newPixelValue x' y' Hx' Hy'.
    subst newPixelValue oldPixel.
    pose proof (raster_index_lt w h x y Hx Hy).
    pose proof (raster_index_lt w h x' y' Hx' Hy').
    rewrite !read_initGrayscale by done. by apply Hzero.
  - split_and!; [done..|]. intros k c Hk Hc.
    destruct (pixel_index_split w h k Hk) as (y & x & Hy & Hx & ->).
    rewrite Hpix, read_initGrayscale by done. done.
Qed.

Lemma pixelBrightness_gray (d : list Z) (k : nat) (v : Z) :
  d !! (k * 4) = Some v → d !! (k * 4 + 1) = Some v → d !! (k * 4 + 2) = Some v →
  pixelBrightness d k = luminance (of_Z v) (of_Z v) (of_Z v).
Proof.
  intros H0 H1 H2. unfold pixelBrightness.
  by rewrite (read_u8_lookup _ _ _ H0), (read_u8_lookup _ _ _ H1), (read_u8_lookup _ _ _ H2).
Qed.

Variable factor : num.

Hypothesis black_is_dark : (grayBrightness (num := num) 0 >? decimal 1275 1)%js = false.
Hypothesis white_is_light : (grayBrightness (num := num) 255 >? decimal 1275 1)%js = true.
Hypothesis diffuse_zero :
  ∀ v v' weight, (v = 0 ∨ v = 255)%Z → (v' = 0 ∨ v' = 255)%Z → weight ∈ [7; 3; 5; 1]%Z →
    let brightness := grayBrightness (num := num) v in
    let neighbour := grayBrightness (num := num) v' in
    fround (neighbour + (brightness - (if (brightness >? decimal 1275 1)%js
                                       then of_Z 255 else of_Z 0)) *
                        factor / of_Z 16 * of_Z weight)%js = neighbour.
Hypothesis store_black : to_uint8_clamped (of_Z 0) = 0%Z.
Hypothesis store_white : to_uint8_clamped (of_Z 255) = 255%Z.

Lemma applyDitheringBW_black_white (d : list Z) (w h : nat) :
  length d = w * h * 4 → blackWhite d (w * h) →
  applyDitheringBW d w h factor (toColor (0, 0, 0)%Z) (toColor (255, 255, 255)%Z) = d.
Proof.
  intros Hlen Hbw.
  assert (Hbright : ∀ k, k < w * h → ∃ v, (v = 0 ∨ v = 255)%Z ∧
            fround (pixelBrightness d k) = grayBrightness v ∧
            ∀ c, c < 3 → d !! (k * 4 + c) = Some v).
  { intros k Hk. destruct (Hbw k Hk) as (v & Hv & H0 & H1 & H2).
    exists v. split_and!; [done| |].
    - unfold grayBrightness. by rewrite (pixelBrightness_gray d k v).
    - intros [|[|[|c]]] Hc; [by rewrite Nat.add_0_r|done..|lia]. }
  destruct (applyDitheringBW_stable d w h factor (toColor (0, 0, 0)%Z)
              (toColor (255, 255, 255)%Z) Hlen) as (Hlo & Halpha & Hpix).
  - intros k k' weight Hk Hk' Hweight. cbv zeta.
    destruct (Hbright k Hk) as (v & Hv & -> & _).
    destruct (Hbright k' Hk') as (v' & Hv' & -> & _).
    by apply diffuse_zero.
  - apply buffer_eq; [done|].
    intros k c Hc Hlt. rewrite Hlo, Hlen in Hlt.
    destruct (decide (c = 3)) as [->|Hc3]; [apply Halpha|].
    destruct (Hbright k) as (v & Hv & Hb & Hd); [lia|].
    rewrite Hpix, Hb, Hd by lia. f_equal.
    destruct Hv as [-> | ->].
    + rewrite black_is_dark. by destruct c as [|[|c]].
    + rewrite white_is_light. by destruct c as [|[|c]].
Qed.

End DitherBWStable.

Lemma applyDitheringBW_black_white_exact (d : list Z) (w h : nat) (factor : Qc) :
  length d = w * h * 4 → blackWhite d (w * h) →
  applyDitheringBW d w h factor (toColor (0, 0, 0)%Z) (toColor (255, 255, 255)%Z) = d.
Proof.
  assert (H0 : luminance (num := Qc) (of_Z 0) (of_Z 0) (of_Z 0) = of_Z 0)
    by (apply Qc_is_canon; vm_compute; reflexivity).
  assert (H255 : luminance (num := Qc) (of_Z 255) (of_Z 255) (of_Z 255) = of_Z 255)
    by (apply Qc_is_canon; vm_compute; reflexivity).
  apply applyDitheringBW_black_white.
  - vm_compute. reflexivity.
  - vm_compute. reflexivity.
  - intros v v' weight Hv Hv' _. unfold grayBrightness. cbv zeta. cbn [fround exact].
    assert ((luminance (num := Qc) (of_Z v) (of_Z v) (of_Z v)
             - (if (luminance (num := Qc) (of_Z v) (of_Z v) (of_Z v) >? decimal 1275 1)%js
                then of_Z 255 else of_Z 0))%js = 0%Qc) as ->.
    { destruct Hv as [-> | ->]; [rewrite H0|rewrite H255];
        apply Qc_is_canon; vm_compute; reflexivity. }
    generalize (luminance (num := Qc) (of_Z v') (of_Z v') (of_Z v')). intros a.
    change (a + 0 * factor / of_Z 16 * of_Z weight = a)%Qc. unfold Qcdiv. ring.
  - apply byte_faithful_exact. lia.
  - apply byte_faithful_exact. lia.
Qed.

Lemma applyDitheringBW_black_white_binary64 (d : list Z) (w h : nat) (factor : float) :
  is_finite factor = true →
  length d = w * h * 4 → blackWhite d (w * h) →
  applyDitheringBW d w h factor (toColor (0, 0, 0)%Z) (toColor (255, 255, 255)%Z) = d.
Proof.
  intros Hfin. apply applyDitheringBW_black_white.
  - vm_compute. reflexivity.
  - vm_compute. reflexivity.
  - intros v v' weight Hv Hv' Hweight. unfold grayBrightness. cbv zeta.
    set (Lv := fround (luminance (num := float) (of_Z v) (of_Z v) (of_Z v))).
    assert ((Lv - (if (Lv >? decimal 1275 1)%js then of_Z 255 else of_Z 0))%js = 0%float)
      as ->.
    { subst Lv. destruct Hv as [-> | ->]; vm_compute; reflexivity. }
    change (nmul 0%float factor) with (0 * factor)%float.
    rewrite !elem_of_cons, elem_of_nil in Hweight.
    destruct (binary64_zero_mul factor Hfin) as [-> | ->];
      destruct Hv' as [-> | ->];
      destruct Hweight as [->|[->|[->|[->|[]]]]]; vm_compute; reflexivity.
  - apply byte_faithful_binary64. lia.
  - apply byte_faithful_binary64. lia.
Qed.

Section DitherBWIdempotent.

Context {num : Type} `{Number num}.

(** With black and white as its colours, the effect returns a black and
    white image. *)
Lemma DITHER_BW_black_white_out (d : list Z) (w h : nat) (factor : num)
    (darkColor lightColor : list codeunit) :
  byte_faithful → length d = w * h * 4 →
  default (0, 0, 0)%Z (hexToRgb darkColor) = (0, 0, 0)%Z →
  default (255, 255, 255)%Z (hexToRgb lightColor) = (255, 255, 255)%Z →
  DITHER_BW d w h factor darkColor lightColor
    = applyDitheringBW d w h factor (toColor (0, 0, 0)%Z) (toColor (255, 255, 255)%Z) ∧
  length (DITHER_BW d w h factor darkColor lightColor) = w * h * 4 ∧
  blackWhite (DITHER_BW d w h factor darkColor lightColor) (w * h).
Proof.
  intros Hbf Hlen Hdark Hlight. unfold DITHER_BW. rewrite Hdark, Hlight.
  destruct (applyDitheringBW_two_tone d w h factor (toColor (0, 0, 0)%Z)
              (toColor (255, 255, 255)%Z) Hlen) as (Hlo & _ & Hpix).
  split_and!; [done|lia|].
  intros k Hk. destruct (pixel_index_split w h k Hk) as (y & x & Hy & Hx & ->).
  destruct (Hpix x y Hx Hy) as (c & Hc & Hlook).
  pose proof (Hlook 0 ltac:(lia)) as Hc0. rewrite Nat.add_0_r in Hc0.
  pose proof (Hlook 1 ltac:(lia)) as Hc1. pose proof (Hlook 2 ltac:(lia)) as Hc2.
  destruct Hc as [-> | ->]; [exists 0%Z|exists 255%Z];
    rewrite stored_toColor in Hc0, Hc1, Hc2 by (done || cbn; lia); auto.
Qed.

Lemma DITHER_BW_idempotent (d : list Z) (w h : nat) (factor : num)
    (darkColor lightColor : list codeunit) :
  byte_faithful →
  (∀ d', length d' = w * h * 4 → blackWhite d' (w * h) →
     applyDitheringBW d' w h factor (toColor (0, 0, 0)%Z) (toColor (255, 255, 255)%Z) = d') →
  length d = w * h * 4 →
  default (0, 0, 0)%Z (hexToRgb darkColor) = (0, 0, 0)%Z →
  default (255, 255, 255)%Z (hexToRgb lightColor) = (255, 255, 255)%Z →
  (blackWhite d (w * h) → DITHER_BW d w h factor darkColor lightColor = d) ∧
  DITHER_BW (DITHER_BW d w h factor darkColor lightColor) w h factor darkColor lightColor
    = DITHER_BW d w h factor darkColor lightColor.
Proof.
  intros Hbf Hfixed Hlen Hdark Hlight.
  destruct (DITHER_BW_black_white_out d w h factor darkColor lightColor)
    as (Hrun & Hlo & Hbw); [done..|].
  split.
  - intros Hd. rewrite Hrun. by apply Hfixed.
  - destruct (DITHER_BW_black_white_out (DITHER_BW d w h factor darkColor lightColor)
                w h factor darkColor lightColor) as (-> & _); [done..|].
    by apply Hfixed.
Qed.

End DitherBWIdempotent.

(** X6.  With black and white as its two colours (the defaults, which also
    stand in for parameters that do not parse), two-colour dithering leaves a
    black and white image exactly as it is, and so the effect is idempotent:
    applied to its own output it changes nothing.  This holds on exact
    arithmetic for every factor and on binary64 for every finite factor. *)
Theorem dither_bw_idempotent (d : list Z) (w h : nat) (darkColor lightColor : list codeunit) :
  length d = w * h * 4 →
  default (0, 0, 0)%Z (hexToRgb darkColor) = (0, 0, 0)%Z →
  default (255, 255, 255)%Z (hexToRgb lightColor) = (255, 255, 255)%Z →
  (∀ factor : Qc,
     (blackWhite d (w * h) → DITHER_BW d w h factor darkColor lightColor = d) ∧
     DITHER_BW (DITHER_BW d w h factor darkColor lightColor) w h factor darkColor lightColor
       = DITHER_BW d w h factor darkColor lightColor) ∧
  (∀ factor : float,
     is_finite factor = true →
     (blackWhite d (w * h) → DITHER_BW d w h factor darkColor lightColor = d) ∧
     DITHER_BW (DITHER_BW d w h factor darkColor lightColor) w h factor darkColor lightColor
       = DITHER_BW d w h factor darkColor lightColor).
Proof.
  intros Hlen Hdark Hlight. split.
  - intros factor. apply DITHER_BW_idempotent; [apply byte_faithful_exact| |done..].
    intros d'. apply applyDitheringBW_black_white_exact.
  - intros factor Hfin. apply DITHER_BW_idempotent; [apply byte_faithful_binary64| |done..].
    intros d'. by apply applyDitheringBW_black_white_binary64.
Qed.

Lemma dither_bw_idempotent_witness :
  DITHER_BW (num := float)
    (DITHER_BW (num := float) [200; 90; 30; 9; 10; 250; 10; 8]%Z 2 1 (decimal 5 1)
       [35; 48; 48; 48; 48; 48; 48]%N [110; 111]%N)
    2 1 (decimal 5 1) [35; 48; 48; 48; 48; 48; 48]%N [110; 111]%N
  = DITHER_BW (num := float) [200; 90; 30; 9; 10; 250; 10; 8]%Z 2 1 (decimal 5 1)
      [35; 48; 48; 48; 48; 48; 48]%N [110; 111]%N.
Proof.
  destruct (dither_bw_idempotent [200; 90; 30; 9; 10; 250; 10; 8]%Z 2 1
              [35; 48; 48; 48; 48; 48; 48]%N [110; 111]%N) as [_ Hfloat];
    [reflexivity..|].
  by destruct (Hfloat (decimal 5 1)) as [_ Hidem].
Defined.

(** X7.  With a diffusion factor of 0 nothing is diffused: on exact
    arithmetic, two-colour dithering gives each pixel the light colour when
    its own luminance exceeds 127.5 and the dark colour otherwise, and with
    black and white as the two colours the effect is the Threshold effect at
    level 127.5. *)
Theorem dither_bw_without_diffusion (d : list Z) (w h : nat) :
  length d = w * h * 4 →
  (∀ darkColor lightColor : Color (num := Qc),
     let out := applyDitheringBW d w h (of_Z 0) darkColor lightColor in
     ∀ k c, k < w * h → c < 3 →
       out !! (k * 4 + c)
       = Some (to_uint8_clamped
                 (channel c (if (pixelBrightness (num := Qc) d k >? decimal 1275 1)%js
                             then lightColor else darkColor)))) ∧
  (∀ darkColor lightColor : list codeunit,
     default (0, 0, 0)%Z (hexToRgb darkColor) = (0, 0, 0)%Z →
     default (255, 255, 255)%Z (hexToRgb lightColor) = (255, 255, 255)%Z →
     DITHER_BW (num := Qc) d w h (of_Z 0) darkColor lightColor
     = THRESHOLD (num := Qc) d (decimal 1275 1)).
Proof.
  intros Hlen.
  assert (Hstable : ∀ darkColor lightColor : Color (num := Qc),
    let out := applyDitheringBW d w h (of_Z 0) darkColor lightColor in
    length out = length d ∧
    (∀ k, out !! (k * 4 + 3) = d !! (k * 4 + 3)) ∧
    ∀ k c, k < w * h → c < 3 →
      out !! (k * 4 + c)
      = Some (to_uint8_clamped
                (channel c (if (pixelBrightness (num := Qc) d k >? decimal 1275 1)%js
                            then lightColor else darkColor)))).
  { intros darkColor lightColor.
    destruct (applyDitheringBW_stable d w h (of_Z 0) darkColor lightColor Hlen)
      as (Hl & Ha & Hp);
      [|split_and!; [exact Hl|exact Ha|intros k c Hk Hc; exact (Hp k c Hk Hc)]].
    intros k k' weight _ _ _. cbv zeta. cbn [fround exact].
    generalize (pixelBrightness (num := Qc) d k'). intros a.
    generalize (pixelBrightness (num := Qc) d k - (if (pixelBrightness (num := Qc) d k
                  >? decimal 1275 1)%js then of_Z 255 else of_Z 0))%js. intros e.
    change (a + e * 0 / of_Z 16 * of_Z weight = a)%Qc. unfold Qcdiv. ring. }
  split.
  - intros darkColor lightColor. apply Hstable.
  - intros darkColor lightColor Hdark Hlight. unfold DITHER_BW. rewrite Hdark, Hlight.
    destruct (Hstable (toColor (0, 0, 0)%Z) (toColor (255, 255, 255)%Z))
      as (Hlo & Halpha & Hpix).
    destruct (threshold_spec (num := Qc) d (decimal 1275 1)) as (Hlt & Halphat & Hrgbt).
    apply buffer_eq; [by rewrite Hlt|].
    intros k c Hc Hlk. rewrite Hlo, Hlen in Hlk.
    destruct (decide (c = 3)) as [->|Hc3]; [by rewrite Halpha, Halphat|].
    rewrite Hpix, Hrgbt by lia. f_equal.
    destruct (_ >? _)%js; by destruct c as [|[|[|c]]]; [..|lia].
Qed.

Lemma dither_bw_without_diffusion_witness :
  DITHER_BW (num := Qc) [200; 90; 30; 9; 10; 250; 10; 8]%Z 2 1 (of_Z 0) [120]%N [121]%N
  = THRESHOLD (num := Qc) [200; 90; 30; 9; 10; 250; 10; 8]%Z (decimal 1275 1).
Proof.
  destruct (dither_bw_without_diffusion [200; 90; 30; 9; 10; 250; 10; 8]%Z 2 1) as [_ Hthr];
    [reflexivity|].
  by apply Hthr.
Defined.

(** ** The Threshold effect *)

Section ThresholdTwice.

Context {num : Type} `{Number num}.

(** Every pixel of the output is black or white. *)
Lemma threshold_black_white (d : list Z) (level : num) (n : nat) :
  to_uint8_clamped (of_Z 0) = 0%Z → to_uint8_clamped (of_Z 255) = 255%Z →
  length d = n * 4 →
  blackWhite (THRESHOLD d level) n ∧
  ∀ k, k < n →
    THRESHOLD d level !! (k * 4) = Some (if (pixelBrightness d k >? level)%js then 255 else 0)%Z.
Proof.
  intros H0 H255 Hlen.
  destruct (threshold_spec d level) as (_ & _ & Hrgb).
  assert (Hv : ∀ k c, k < n → c < 3 →
    THRESHOLD d level !! (k * 4 + c)
    = Some (if (pixelBrightness d k >? level)%js then 255 else 0)%Z).
  { intros k c Hk Hc. rewrite Hrgb by lia.
    destruct (pixelBrightness d k >? level)%js; by rewrite ?H0, ?H255. }
  split.
  - intros k Hk. exists (if (pixelBrightness d k >? level)%js then 255 else 0)%Z.
    split; [destruct (pixelBrightness d k >? level)%js; auto|].
    rewrite <-(Nat.add_0_r (k * 4)) at 1. rewrite !Hv by lia. done.
  - intros k Hk. rewrite <-(Nat.add_0_r (k * 4)) at 1. apply Hv; lia.
Qed.

(** When white is brighter than the level and black is not, a second pass
    changes nothing. *)
Lemma threshold_twice (d : list Z) (level : num) (n : nat) :
  to_uint8_clamped (of_Z 0) = 0%Z → to_uint8_clamped (of_Z 255) = 255%Z →
  (luminance (of_Z 255) (of_Z 255) (of_Z 255) >? level)%js = true →
  (luminance (of_Z 0) (of_Z 0) (of_Z 0) >? level)%js = false →
  length d = n * 4 →
  THRESHOLD (THRESHOLD d level) level = THRESHOLD d level.
Proof.
  intros H0 H255 Hwhite Hblack Hlen.
  destruct (threshold_black_white d level n H0 H255 Hlen) as [Hbw _].
  set (out := THRESHOLD d level) in *.
  destruct (threshold_spec d level) as (Hlo & _ & _). fold out in Hlo.
  destruct (threshold_spec out level) as (Hl2 & Halpha & Hrgb).
  apply buffer_eq; [done|].
  intros k c Hc Hlt. rewrite Hl2, Hlo, Hlen in Hlt.
  destruct (decide (c = 3)) as [->|Hc3]; [apply Halpha|].
  rewrite Hrgb by lia.
  destruct (Hbw k) as (v & Hv & Hv0 & Hv1 & Hv2); [lia|].
  rewrite (pixelBrightness_gray out k v) by done.
  assert (out !! (k * 4 + c) = Some v) as ->.
  { destruct c as [|[|[|c]]]; [by rewrite Nat.add_0_r|done..|lia]. }
  f_equal. destruct Hv as [-> | ->]; [by rewrite Hblack|by rewrite Hwhite].
Qed.

End ThresholdTwice.

Lemma threshold_level_check_all : forallb threshold_level_check (seqZ 0 255) = true.
Proof. vm_compute. reflexivity. Qed.

(** X8.  The Threshold effect returns a black and white image, and it is
    idempotent: a second pass with the same level changes nothing.  On exact
    arithmetic this holds for every level from 0 up to, but not including,
    255; on binary64 for every integer level from 0 to 254, which covers the
    range 1 to 254 of the slider. *)
Theorem threshold_idempotent (d : list Z) (n : nat) :
  length d = n * 4 →
  (∀ level : Qc, (0 <= level)%Qc → (level < of_Z 255)%Qc →
     blackWhite (THRESHOLD d level) n ∧
     THRESHOLD (THRESHOLD d level) level = THRESHOLD d level) ∧
  (∀ level : Z, (0 ≤ level ≤ 254)%Z →
     blackWhite (THRESHOLD (num := float) d (of_Z level)) n ∧
     THRESHOLD (num := float) (THRESHOLD (num := float) d (of_Z level)) (of_Z level)
       = THRESHOLD (num := float) d (of_Z level)).
Proof.
  intros Hlen. split.
  - intros level Hlo Hhi.
    assert (H0 : to_uint8_clamped (num := Qc) (of_Z 0) = 0%Z)
      by (apply byte_faithful_exact; lia).
    assert (H255 : to_uint8_clamped (num := Qc) (of_Z 255) = 255%Z)
      by (apply byte_faithful_exact; lia).
    split; [by apply threshold_black_white|].
    apply (threshold_twice d level n); [done..| | |done].
    + assert (luminance (num := Qc) (of_Z 255) (of_Z 255) (of_Z 255) = of_Z 255) as ->
        by (apply Qc_is_canon; vm_compute; reflexivity).
      by apply exact_ltb_lt.
    + assert (luminance (num := Qc) (of_Z 0) (of_Z 0) (of_Z 0) = 0%Qc) as ->
        by (apply Qc_is_canon; vm_compute; reflexivity).
      by apply exact_ltb_ge.
  - intros level Hlevel.
    assert (H0 : to_uint8_clamped (num := float) (of_Z 0) = 0%Z)
      by (apply byte_faithful_binary64; lia).
    assert (H255 : to_uint8_clamped (num := float) (of_Z 255) = 255%Z)
      by (apply byte_faithful_binary64; lia).
    pose proof threshold_level_check_all as Hall. rewrite forallb_forall in Hall.
    specialize (Hall level ltac:(apply list_elem_of_In, elem_of_seqZ; lia)).
    unfold threshold_level_check in Hall.
    apply andb_true_iff in Hall as [Hwhite Hblack%negb_true_iff].
    split; [by apply threshold_black_white|].
    by apply (threshold_twice d (of_Z level) n).
Qed.

Lemma threshold_idempotent_witness :
  THRESHOLD (num := float)
    (THRESHOLD (num := float) [200; 90; 30; 9; 10; 250; 10; 8]%Z (of_Z 128)) (of_Z 128)
  = THRESHOLD (num := float) [200; 90; 30; 9; 10; 250; 10; 8]%Z (of_Z 128).
Proof.
  destruct (threshold_idempotent [200; 90; 30; 9; 10; 250; 10; 8]%Z 2) as [_ Hfloat];
    [reflexivity|].
  by destruct (Hfloat 128%Z) as [_ Hidem]; [lia|].
Defined.



(** ** Loops over blocks and over chosen pixels *)

Lemma elem_of_blockStarts (n size v : nat) :
  0 < size → v ∈ blockStarts n size ↔ v < n ∧ v `mod` size = 0.
Proof.
  intros Hs. unfold blockStarts. rewrite list_elem_of_fmap. split.
  - intros (k & -> & Hk%elem_of_seq). split; [|apply Nat.Div0.mod_mul].
    assert (S k ≤ (n + size - 1) / size) as Hle by lia.
    pose proof (Nat.Div0.mul_div_le (n + size - 1) size) as Hmul.
    assert (size * S k ≤ size * ((n + size - 1) / size)) by (apply Nat.mul_le_mono_l; lia).
    nia.
  - intros [Hv Hmod]. exists (v / size). split.
    + pose proof (Nat.div_mod_eq v size). lia.
    + apply elem_of_seq. split; [lia|]. cbn.
      pose proof (Nat.div_mod_eq v size) as Hdm. rewrite Hmod in Hdm.
      assert (S (v / size) ≤ (n + size - 1) / size); [|lia].
      apply Nat.div_le_lower_bound; [lia|]. nia.
Qed.

Lemma NoDup_blockStarts (n size : nat) : 0 < size → NoDup (blockStarts n size).
Proof.
  intros Hs. unfold blockStarts. apply NoDup_fmap_2_strong; [|apply NoDup_seq].
  intros k k' _ _ Heq. nia.
Qed.

(** A loop over distinct pixels whose body rewrites the three colour bytes of
    its pixel, each from its own value. *)
Lemma pixel_loop_spec (step : list Z → nat → list Z) (val : nat → Z → Z)
    (l : list nat) (d : list Z) :
  (∀ d k, length (step d k) = length d) →
  (∀ d k j, j < k * 4 ∨ k * 4 + 3 ≤ j → step d k !! j = d !! j) →
  (∀ d k c, c < 3 → step d k !! (k * 4 + c) = val c <$> d !! (k * 4 + c)) →
  NoDup l →
  length (foldl step d l) = length d ∧
  ∀ k c, c < 4 →
    foldl step d l !! (k * 4 + c) =
      if decide (k ∈ l ∧ c < 3) then val c <$> d !! (k * 4 + c) else d !! (k * 4 + c).
Proof.
  intros Hlen Hframe Hwrite. revert d.
  induction l as [|a l IH]; intros d Hnd.
  - split; [done|]. intros k c Hc. rewrite decide_False; [done|].
    intros [Hin _]. by apply elem_of_nil in Hin.
  - apply NoDup_cons in Hnd as [Ha Hnd]. cbn [foldl].
    destruct (IH (step d a) Hnd) as [IHl IHv].
    split; [by rewrite IHl, Hlen|].
    intros k c Hc. rewrite IHv by done.
    destruct (decide (k = a)) as [->|Hka].
    + rewrite (decide_False (P := a ∈ l ∧ c < 3)) by tauto.
      destruct (decide (c < 3)) as [Hc3|Hc3].
      * rewrite decide_True by (split; [apply list_elem_of_here|done]). by apply Hwrite.
      * rewrite decide_False by tauto. apply Hframe. lia.
    + assert (step d a !! (k * 4 + c) = d !! (k * 4 + c)) as Hsame by (apply Hframe; lia).
      rewrite Hsame.
      destruct (decide (k ∈ l ∧ c < 3)) as [[Hin Hc3]|Hn].
      * by rewrite decide_True by (split; [by apply list_elem_of_further|done]).
      * rewrite decide_False; [done|].
        intros [[?|?]%elem_of_cons ?]; [done|tauto].
Qed.

(** ** CRT modulation with scanlines *)

Section Scanlines.

Context {num : Type} `{Number num}.
Variable sin : num → num.

Lemma scanlinePixel_index (w : nat) (scanlineOpacity : num) (d : list Z) (y x : nat) :
  scanlinePixel w scanlineOpacity d y x = scanlinePixel 1 scanlineOpacity d (y * w + x) 0.
Proof. unfold scanlinePixel. by replace ((y * w + x) * 1 + 0) with (y * w + x) by lia. Qed.

Lemma scanlinePixel_length (scanlineOpacity : num) (d : list Z) (k : nat) :
  length (scanlinePixel 1 scanlineOpacity d k 0) = length d.
Proof. unfold scanlinePixel. by rewrite !length_insert. Qed.

Lemma scanlinePixel_frame (scanlineOpacity : num) (d : list Z) (k j : nat) :
  j < k * 4 ∨ k * 4 + 3 ≤ j → scanlinePixel 1 scanlineOpacity d k 0 !! j = d !! j.
Proof. intros Hj. unfold scanlinePixel. by rewrite !list_lookup_insert_ne by lia. Qed.

Lemma lookup_dim (scanlineOpacity : num) (d : list Z) (n : nat) :
  <[n := to_uint8_clamped (read_u8 d n * (of_Z 1 - scanlineOpacity))%js]> d !! n
  = dimmed scanlineOpacity <$> d !! n.
Proof.
  destruct (d !! n) as [b|] eqn:Hn.
  - rewrite list_lookup_insert_eq by (by eapply lookup_lt_Some).
    by rewrite (read_u8_lookup _ _ _ Hn).
  - rewrite lookup_ge_None_2; [done|]. rewrite length_insert. by apply lookup_ge_None_1.
Qed.

Lemma scanlinePixel_write (scanlineOpacity : num) (d : list Z) (k c : nat) :
  c < 3 →
  scanlinePixel 1 scanlineOpacity d k 0 !! (k * 4 + c)
  = dimmed scanlineOpacity <$> d !! (k * 4 + c).
Proof.
  intros Hc. unfold scanlinePixel. cbv zeta.
  replace ((k * 1 + 0) * 4) with (k * 4) by lia.
  set (d1 := <[k * 4 := _]> d). set (d2 := <[k * 4 + 1 := _]> d1).
  assert (c = 0 ∨ c = 1 ∨ c = 2) as [->|[->| ->]] by lia.
  - rewrite Nat.add_0_r. subst d2. rewrite !list_lookup_insert_ne by lia.
    subst d1. apply lookup_dim.
  - rewrite list_lookup_insert_ne by lia. subst d2. rewrite lookup_dim.
    subst d1. by rewrite list_lookup_insert_ne by lia.
  - rewrite lookup_dim. subst d2 d1. by rewrite !list_lookup_insert_ne by lia.
Qed.

(** The scanline loop dims the three colour bytes of every pixel of the
    even rows, once, and nothing else. *)
Lemma scanline_loop_spec (w h : nat) (scanlineOpacity : num) (d : list Z) :
  let out :=
    foldl (λ processedData y,
             foldl (λ processedData x, scanlinePixel w scanlineOpacity processedData y x)
                   processedData (seq 0 w))
          d (blockStarts h 2) in
  length out = length d ∧
  ∀ y x c, x < w → c < 4 →
    out !! ((y * w + x) * 4 + c) =
      if decide (y < h ∧ y `mod` 2 = 0 ∧ c < 3)
      then dimmed scanlineOpacity <$> d !! ((y * w + x) * 4 + c)
      else d !! ((y * w + x) * 4 + c).
Proof.
  intros out.
  set (pixels := blockStarts h 2 ≫= λ y, (λ x, y * w + x) <$> seq 0 w).
  assert (Hout : out = foldl (λ d k, scanlinePixel 1 scanlineOpacity d k 0) d pixels).
  { subst out pixels. rewrite foldl_bind. apply foldl_ext. intros d' y.
    rewrite foldl_fmap. apply foldl_ext. intros d'' x. apply scanlinePixel_index. }
  assert (Hin : ∀ y x, x < w → y * w + x ∈ pixels ↔ y < h ∧ y `mod` 2 = 0).
  { intros y x Hx. subst pixels. rewrite list_elem_of_bind. split.
    - intros (y' & (x' & Heq & Hx'%elem_of_seq)%list_elem_of_fmap & Hy').
      apply raster_index_inj in Heq as [-> ->]; [|lia..].
      apply elem_of_blockStarts in Hy'; [done|lia].
    - intros Hy. exists y. split; [|apply elem_of_blockStarts; [lia|done]].
      apply list_elem_of_fmap. exists x. split; [done|]. apply elem_of_seq. lia. }
  assert (Hnd : NoDup pixels).
  { subst pixels. apply NoDup_bind; [| |apply NoDup_blockStarts; lia].
    - intros y1 y2 k _ _ (x1 & -> & Hx1%elem_of_seq)%list_elem_of_fmap
        (x2 & Heq & Hx2%elem_of_seq)%list_elem_of_fmap.
      apply raster_index_inj in Heq as [-> _]; [done|lia..].
    - intros y _. apply NoDup_fmap_2_strong; [|apply NoDup_seq].
      intros x1 x2 _ _ Heq. lia. }
  destruct (pixel_loop_spec (λ d k, scanlinePixel 1 scanlineOpacity d k 0)
              (λ _, dimmed scanlineOpacity) pixels d) as [Hlen Hv].
  - intros. apply scanlinePixel_length.
  - intros. by apply scanlinePixel_frame.
  - intros. by apply scanlinePixel_write.
  - done.
  - rewrite Hout. split; [done|]. intros y x c Hx Hc. rewrite Hv by done.
    destruct (decide (y < h ∧ y `mod` 2 = 0 ∧ c < 3)) as [(Hy & Hm & Hc3)|Hn].
    + rewrite decide_True; [done|]. split; [by apply Hin|done].
    + rewrite decide_False; [done|]. intros [Hk%Hin Hc3]; [tauto|done].
Qed.

(** The effect for all parameters: every alpha channel is 255, the odd rows
    hold the displaced samples, and the even rows hold them dimmed when the
    scanline opacity is positive. *)
Lemma CRT_MODULATION_spec (originalData : list Z) (w h : nat)
    (amplitude frequency aberration scanlineOpacity : num) :
  let out := CRT_MODULATION sin originalData w h amplitude frequency aberration
                            scanlineOpacity in
  length out = w * h * 4 ∧
  ∀ y x c, y < h → x < w → c < 4 →
    out !! ((y * w + x) * 4 + c) =
      Some (let v := crtValue sin originalData w amplitude frequency aberration y x c in
            if decide ((scanlineOpacity >? of_Z 0)%js = true ∧ y `mod` 2 = 0 ∧ c < 3)
            then dimmed scanlineOpacity v else v).
Proof.
  intros out. subst out. unfold CRT_MODULATION.
  destruct (crt_first_pass sin originalData w h amplitude frequency aberration)
    as [Hl1 Hv1]. cbv zeta in Hl1, Hv1.
  set (first := foldl _ (replicate (w * h * 4) 0%Z) (seq 0 h)) in *.
  cbv zeta. destruct (scanlineOpacity >? of_Z 0)%js eqn:Hop.
  - destruct (scanline_loop_spec w h scanlineOpacity first) as [Hl2 Hv2].
    cbv zeta in Hl2, Hv2. split; [lia|].
    intros y x c Hy Hx Hc. rewrite Hv2, Hv1 by done.
    destruct (decide (y < h ∧ y `mod` 2 = 0 ∧ c < 3)) as [(_ & Hm & Hc3)|Hn].
    + by rewrite decide_True.
    + rewrite decide_False; [done|tauto].
  - split; [done|]. intros y x c Hy Hx Hc. rewrite Hv1 by done.
    rewrite decide_False; [done|]. by intros [? _].
Qed.

End Scanlines.



(** ** CRT modulation on exact arithmetic *)

Lemma sampleColumn_lt (w : nat) (x : Qc) : 0 < w → sampleColumn w x < w.
Proof. intros Hw. unfold sampleColumn. lia. Qed.

Lemma getPixel_exact (data : list Z) (w y : nat) (x : Qc) :
  getPixel data w x y = pixelColor data w (y, sampleColumn w x).
Proof. done. Qed.

Lemma exact_stored_range (q : Qc) : (0 ≤ to_uint8_clamped q ≤ 255)%Z.
Proof. cbn. unfold Exact.to_uint8_clamped, clamp_uint8. lia. Qed.

Lemma round_half_even_cases (q : Q) :
  Exact.round_half_even q = Qfloor q ∨
  (Exact.round_half_even q = (Qfloor q + 1)%Z ∧ (inject_Z (Qfloor q) < q)%Q).
Proof.
  unfold Exact.round_half_even.
  destruct (q - inject_Z (Qfloor q) ?= 1 # 2)%Q eqn:Hcmp.
  - destruct (Z.even (Qfloor q)); [by left|right]. split; [done|].
    apply Qeq_alt in Hcmp. lra.
  - by left.
  - right. split; [done|]. apply Qgt_alt in Hcmp. lra.
Qed.

(** A byte times a factor between 0 and 1, stored: a byte that is not
    larger. *)
Lemma dimmed_le (scanlineOpacity : Qc) (b : Z) :
  (0 <= scanlineOpacity)%Qc → (scanlineOpacity <= 1)%Qc → (0 ≤ b ≤ 255)%Z →
  (0 ≤ dimmed scanlineOpacity b ≤ b)%Z.
Proof.
  intros Ho0 Ho1 Hb. unfold dimmed. cbn [to_uint8_clamped exact].
  unfold Exact.to_uint8_clamped, clamp_uint8.
  set (q := this (of_Z b * (of_Z 1 - scanlineOpacity))%js).
  assert (0 <= q ∧ q <= inject_Z b)%Q as [Hq0 Hqb].
  { subst q. unfold Qcminus. to_Q. change (this 0%Qc) with 0%Q in *.
    change (this 1%Qc) with 1%Q in *. change (inject_Z 1) with 1%Q.
    assert (0 <= inject_Z b)%Q as Hb0.
    { change 0%Q with (inject_Z 0). rewrite <-Zle_Qle. lia. }
    set (o := this scanlineOpacity) in *. clearbody o.
    set (bq := inject_Z b) in *. clearbody bq. split; nra. }
  assert (0 ≤ Qfloor q)%Z as Hf0.
  { change 0%Z with (Qfloor 0). by apply Qfloor_resp_le. }
  assert (Qfloor q ≤ b)%Z as Hfb.
  { rewrite <-(Qfloor_Z b). by apply Qfloor_resp_le. }
  destruct (round_half_even_cases q) as [-> |[-> Hlt]]; [lia|].
  assert (Qfloor q < b)%Z; [|lia].
  rewrite Zlt_Qlt. lra.
Qed.





(** ** Averages of blocks of bytes *)

Section PixelBytes.

Context {num : Type} `{Number num}.

Lemma pixel_bytes (data : list Z) (w h y x : nat) :
  length data = w * h * 4 → bytes data → y < h → x < w →
  ∃ r g b, ((0 ≤ r ≤ 255) ∧ (0 ≤ g ≤ 255) ∧ (0 ≤ b ≤ 255))%Z ∧
    pixelColor data w (y, x) = toColor (r, g, b).
Proof.
  intros Hlen Hbytes Hy Hx. pose proof (raster_index_lt w h x y Hx Hy) as Hlt.
  destruct (lookup_lt_is_Some_2 data ((y * w + x) * 4)) as [r Hr]; [lia|].
  destruct (lookup_lt_is_Some_2 data ((y * w + x) * 4 + 1)) as [g Hg]; [lia|].
  destruct (lookup_lt_is_Some_2 data ((y * w + x) * 4 + 2)) as [b Hb]; [lia|].
  exists r, g, b. split.
  - split_and!; by eapply bytes_lookup.
  - unfold pixelColor, toColor. cbn [fst snd].
    by rewrite (read_u8_lookup _ _ _ Hr), (read_u8_lookup _ _ _ Hg), (read_u8_lookup _ _ _ Hb).
Qed.

Lemma block_nonempty (w h x y size : nat) :
  0 < size → x ∈ blockStarts w size → y ∈ blockStarts h size →
  0 < length (clippedBlock w h x y size).
Proof.
  intros Hs [Hx _]%elem_of_blockStarts [Hy _]%elem_of_blockStarts; [|done..].
  rewrite length_clippedBlock. apply Nat.mul_pos_pos; lia.
Qed.

Lemma bind_singletons {A B : Type} (f : A → list B) (g : A → B) (l : list A) :
  (∀ a, a ∈ l → f a = [g a]) → l ≫= f = g <$> l.
Proof.
  induction l as [|a l IH]; intros Hf; [done|].
  cbn. rewrite Hf by apply list_elem_of_here. cbn. f_equal.
  apply IH. intros a' Ha'. apply Hf. by apply list_elem_of_further.
Qed.

End PixelBytes.

(** *** On exact arithmetic *)

Lemma exact_of_Z_le (a b : Z) : (a ≤ b)%Z → (Exact.of_Z a <= Exact.of_Z b)%Qc.
Proof. intros Hab. to_Q. by rewrite <-Zle_Qle. Qed.

Lemma luminance_range_exact (r g b : Z) :
  (0 ≤ r ≤ 255)%Z → (0 ≤ g ≤ 255)%Z → (0 ≤ b ≤ 255)%Z →
  (0 <= luminance (num := Qc) (of_Z r) (of_Z g) (of_Z b))%Qc ∧
  (luminance (num := Qc) (of_Z r) (of_Z g) (of_Z b) <= of_Z 255)%Qc.
Proof.
  intros Hr Hg Hb. unfold luminance, decimal.
  change (10 ^ Z.of_nat 4)%Z with 10000%Z. unfold Qcdiv. to_Q.
  change (this 0%Qc) with 0%Q.
  assert (/ inject_Z 10000 == 1 # 10000)%Q as -> by reflexivity.
  change (inject_Z 2126) with (2126 # 1)%Q. change (inject_Z 7152) with (7152 # 1)%Q.
  change (inject_Z 722) with (722 # 1)%Q. change (inject_Z 255) with (255 # 1)%Q.
  assert (0 <= inject_Z r ∧ inject_Z r <= 255 # 1)%Q as [? ?].
  { change 0%Q with (inject_Z 0). change (255 # 1)%Q with (inject_Z 255).
    rewrite <-!Zle_Qle. lia. }
  assert (0 <= inject_Z g ∧ inject_Z g <= 255 # 1)%Q as [? ?].
  { change 0%Q with (inject_Z 0). change (255 # 1)%Q with (inject_Z 255).
    rewrite <-!Zle_Qle. lia. }
  assert (0 <= inject_Z b ∧ inject_Z b <= 255 # 1)%Q as [? ?].
  { change 0%Q with (inject_Z 0). change (255 # 1)%Q with (inject_Z 255).
    rewrite <-!Zle_Qle. lia. }
  split; lra.
Qed.

(** A sum of [n] numbers between 0 and 255, over [n]. *)
Lemma exact_average_range (total : Qc) (n : nat) :
  0 < n → (0 <= total)%Qc → (total <= of_Z 255 * of_Z (Z.of_nat n))%Qc →
  (0 <= total / of_Z (Z.of_nat n))%Qc ∧ (total / of_Z (Z.of_nat n) <= of_Z 255)%Qc.
Proof.
  intros Hn H0 H255. unfold Qcdiv. to_Q. change (this 0%Qc) with 0%Q in *.
  change (inject_Z 255) with (255 # 1)%Q in *.
  assert (0 < inject_Z (Z.of_nat n))%Q as Hpos.
  { change 0%Q with (inject_Z 0). rewrite <-Zlt_Qlt. lia. }
  set (t := this total) in *. clearbody t.
  set (nq := inject_Z (Z.of_nat n)) in *. clearbody nq.
  split.
  - apply Qle_shift_div_l; [done|]. lra.
  - apply Qle_shift_div_r; [done|]. lra.
Qed.

Lemma of_Z_succ_nat (n : nat) :
  (Exact.of_Z (Z.of_nat (S n)) = Exact.of_Z (Z.of_nat n) + 1)%Qc.
Proof.
  apply Qc_is_canon. to_Q. rewrite Nat2Z.inj_succ. unfold Z.succ.
  rewrite inject_Z_plus. reflexivity.
Qed.

Lemma brightness_total_range (data : list Z) (w h : nat) (l : list (nat * nat))
    (acc : Qc * nat) :
  length data = w * h * 4 → bytes data →
  (∀ p, p ∈ l → p.1 < h ∧ p.2 < w) →
  let total := foldl (brightnessAdd data w) acc l in
  (acc.1 <= total.1)%Qc ∧
  (total.1 <= acc.1 + of_Z 255 * of_Z (Z.of_nat (length l)))%Qc.
Proof.
  intros Hlen Hbytes. revert acc. induction l as [|[y x] l IH]; intros acc Hin total.
  - subst total. cbn [foldl length]. change (of_Z (Z.of_nat 0)) with 0%Qc.
    rewrite Qcmult_0_r, Qcplus_0_r. split; apply Qcle_refl.
  - subst total. cbn [foldl length].
    destruct (IH (brightnessAdd data w acc (y, x))) as [Hlo Hhi].
    { intros p Hp. apply Hin. by apply list_elem_of_further. }
    destruct (Hin (y, x)) as [Hy Hx]; [apply list_elem_of_here|]. cbn [fst snd] in Hy, Hx.
    destruct (pixel_bytes (num := Qc) data w h y x) as (r & g & b & (Hr & Hg & Hb) & Hpix);
      [done..|].
    destruct (luminance_range_exact r g b Hr Hg Hb) as [Hl0 Hl255].
    set (lum := luminance (num := Qc) (of_Z r) (of_Z g) (of_Z b)) in *.
    assert ((brightnessAdd data w acc (y, x)).1 = (acc.1 + lum)%Qc) as Hacc.
    { unfold brightnessAdd. by rewrite Hpix. }
    set (acc' := brightnessAdd data w acc (y, x)) in *.
    set (t := (foldl (brightnessAdd data w) acc' l).1) in *.
    rewrite Hacc in Hlo, Hhi.
    change (of_Z (Z.of_nat (S (length l)))) with (Exact.of_Z (Z.of_nat (S (length l)))).
    rewrite of_Z_succ_nat.
    change (Exact.of_Z (Z.of_nat (length l))) with (of_Z (num := Qc) (Z.of_nat (length l))).
    set (n := of_Z (num := Qc) (Z.of_nat (length l))) in *.
    clearbody lum t n. revert Hlo Hhi Hl0 Hl255.
    change (of_Z 255) with (Exact.of_Z 255).
    generalize (Exact.of_Z 255). intros c. generalize acc.1. intros a.
    intros Hlo Hhi Hl0 Hl255. split.
    + apply Qcle_trans with (a + lum)%Qc; [|done].
      rewrite <-(Qcplus_0_r a) at 1. by apply Qcplus_le_compat; [apply Qcle_refl|].
    + apply Qcle_trans with (a + lum + c * n)%Qc; [done|].
      replace (a + c * (n + 1))%Qc with (a + c + c * n)%Qc by ring.
      apply Qcplus_le_compat; [|apply Qcle_refl].
      by apply Qcplus_le_compat; [apply Qcle_refl|].
Qed.

(** The average brightness of a block of an image of bytes lies between 0
    and 255. *)
Lemma block_brightness_range (data : list Z) (w h x y size : nat) :
  length data = w * h * 4 → bytes data →
  let region := clippedBlock w h x y size in
  let total := foldl (brightnessAdd (num := Qc) data w) (of_Z 0, 0) region in
  0 < length region →
  (0 <= total.1 / of_Z (Z.of_nat (length region)))%Qc ∧
  (total.1 / of_Z (Z.of_nat (length region)) <= of_Z 255)%Qc.
Proof.
  intros Hlen Hbytes region total Hpos.
  destruct (brightness_total_range data w h region (of_Z 0, 0) Hlen Hbytes) as [Hlo Hhi].
  { intros [by' bx'] Hp%elem_of_clippedBlock. cbn. lia. }
  fold total in Hlo, Hhi. cbn [fst] in Hlo, Hhi.
  apply exact_average_range; [done|done|].
  change (of_Z 0) with 0%Qc in Hhi. by rewrite Qcplus_0_l in Hhi.
Qed.

Lemma exact_sum_range {A : Type} (f : A → Qc) (l : list A) (a : Qc) :
  (∀ p, p ∈ l → (0 <= f p)%Qc ∧ (f p <= of_Z 255)%Qc) →
  (a <= foldl (λ s p, s + f p)%Qc a l)%Qc ∧
  (foldl (λ s p, s + f p)%Qc a l <= a + of_Z 255 * of_Z (Z.of_nat (length l)))%Qc.
Proof.
  revert a. induction l as [|p l IH]; intros a Hf.
  - cbn [foldl length]. change (of_Z (Z.of_nat 0)) with 0%Qc.
    rewrite Qcmult_0_r, Qcplus_0_r. split; apply Qcle_refl.
  - cbn [foldl length]. destruct (IH (a + f p)%Qc) as [Hlo Hhi].
    { intros q Hq. apply Hf. by apply list_elem_of_further. }
    destruct (Hf p) as [Hp0 Hp255]; [apply list_elem_of_here|].
    change (of_Z (Z.of_nat (S (length l)))) with (Exact.of_Z (Z.of_nat (S (length l)))).
    rewrite of_Z_succ_nat.
    change (Exact.of_Z (Z.of_nat (length l))) with (of_Z (num := Qc) (Z.of_nat (length l))).
    set (n := of_Z (num := Qc) (Z.of_nat (length l))) in *.
    set (t := foldl _ _ l) in *. clearbody t n.
    revert Hlo Hhi Hp0 Hp255. change (of_Z 255) with (Exact.of_Z 255).
    generalize (Exact.of_Z 255). intros c. generalize (f p). intros v.
    intros Hlo Hhi Hp0 Hp255. split.
    + apply Qcle_trans with (a + v)%Qc; [|done].
      rewrite <-(Qcplus_0_r a) at 1. by apply Qcplus_le_compat; [apply Qcle_refl|].
    + apply Qcle_trans with (a + v + c * n)%Qc; [done|].
      replace (a + c * (n + 1))%Qc with (a + c + c * n)%Qc by ring.
      apply Qcplus_le_compat; [|apply Qcle_refl].
      by apply Qcplus_le_compat; [apply Qcle_refl|].
Qed.

Lemma colorAdd_channels (data : list Z) (w : nat) (l : list (nat * nat))
    (acc : Qc * Qc * Qc * nat) :
  let totals := foldl (colorAdd data w) acc l in
  totals.1.1.1 = foldl (λ s p, s + (pixelColor data w p).1.1)%Qc acc.1.1.1 l ∧
  totals.1.1.2 = foldl (λ s p, s + (pixelColor data w p).1.2)%Qc acc.1.1.2 l ∧
  totals.1.2 = foldl (λ s p, s + (pixelColor data w p).2)%Qc acc.1.2 l.
Proof.
  revert acc. induction l as [|p l IH]; intros acc; [done|].
  cbn [foldl]. exact (IH (colorAdd data w acc p)).
Qed.

(** The average colour of a block of an image of bytes has its three
    channels between 0 and 255. *)
Lemma block_color_range (data : list Z) (w h x y size : nat) :
  length data = w * h * 4 → bytes data →
  let region := clippedBlock w h x y size in
  let totals := foldl (colorAdd (num := Qc) data w) (of_Z 0, of_Z 0, of_Z 0, 0) region in
  let count := of_Z (num := Qc) (Z.of_nat (length region)) in
  0 < length region →
  ((0 <= totals.1.1.1 / count)%Qc ∧ (totals.1.1.1 / count <= of_Z 255)%Qc) ∧
  ((0 <= totals.1.1.2 / count)%Qc ∧ (totals.1.1.2 / count <= of_Z 255)%Qc) ∧
  ((0 <= totals.1.2 / count)%Qc ∧ (totals.1.2 / count <= of_Z 255)%Qc).
Proof.
  intros Hlen Hbytes region totals count Hpos. subst count.
  destruct (colorAdd_channels data w region (of_Z 0, of_Z 0, of_Z 0, 0)) as (HR & HG & HB).
  fold totals in HR, HG, HB. cbn [fst snd] in HR, HG, HB.
  assert (Hpix : ∀ p, p ∈ region →
    ∃ r g b, ((0 ≤ r ≤ 255) ∧ (0 ≤ g ≤ 255) ∧ (0 ≤ b ≤ 255))%Z ∧
      pixelColor (num := Qc) data w p = toColor (r, g, b)).
  { intros [by' bx'] Hp%elem_of_clippedBlock. apply (pixel_bytes data w h); [done..|lia|lia]. }
  assert (Hch : ∀ v : Z, (0 ≤ v ≤ 255)%Z →
            (0 <= of_Z (num := Qc) v)%Qc ∧ (of_Z (num := Qc) v <= of_Z 255)%Qc).
  { intros v Hv. split; [apply (exact_of_Z_le 0 v)|apply (exact_of_Z_le v 255)]; lia. }
  split_and!.
  - rewrite HR. apply exact_average_range; [done|..];
      destruct (exact_sum_range (λ p, (pixelColor (num := Qc) data w p).1.1) region (of_Z 0))
        as [Hlo Hhi];
      try (intros p (r & g & b & (Hr & Hg & Hb) & ->)%Hpix; by apply Hch);
      [done|].
    change (of_Z 0) with 0%Qc in Hhi. by rewrite Qcplus_0_l in Hhi.
  - rewrite HR. apply exact_average_range; [done|..];
      destruct (exact_sum_range (λ p, (pixelColor (num := Qc) data w p).1.1) region (of_Z 0))
        as [Hlo Hhi];
      try (intros p (r & g & b & (Hr & Hg & Hb) & ->)%Hpix; by apply Hch);
      [done|].
    change (of_Z 0) with 0%Qc in Hhi. by rewrite Qcplus_0_l in Hhi.
  - rewrite HG. apply exact_average_range; [done|..];
      destruct (exact_sum_range (λ p, (pixelColor (num := Qc) data w p).1.2) region (of_Z 0))
        as [Hlo Hhi];
      try (intros p (r & g & b & (Hr & Hg & Hb) & ->)%Hpix; by apply Hch);
      [done|].
    change (of_Z 0) with 0%Qc in Hhi. by rewrite Qcplus_0_l in Hhi.
  - rewrite HG. apply exact_average_range; [done|..];
      destruct (exact_sum_range (λ p, (pixelColor (num := Qc) data w p).1.2) region (of_Z 0))
        as [Hlo Hhi];
      try (intros p (r & g & b & (Hr & Hg & Hb) & ->)%Hpix; by apply Hch);
      [done|].
    change (of_Z 0) with 0%Qc in Hhi. by rewrite Qcplus_0_l in Hhi.
  - rewrite HB. apply exact_average_range; [done|..];
      destruct (exact_sum_range (λ p, (pixelColor (num := Qc) data w p).2) region (of_Z 0))
        as [Hlo Hhi];
      try (intros p (r & g & b & (Hr & Hg & Hb) & ->)%Hpix; by apply Hch);
      [done|].
    change (of_Z 0) with 0%Qc in Hhi. by rewrite Qcplus_0_l in Hhi.
  - rewrite HB. apply exact_average_range; [done|..];
      destruct (exact_sum_range (λ p, (pixelColor (num := Qc) data w p).2) region (of_Z 0))
        as [Hlo Hhi];
      try (intros p (r & g & b & (Hr & Hg & Hb) & ->)%Hpix; by apply Hch);
      [done|].
    change (of_Z 0) with 0%Qc in Hhi. by rewrite Qcplus_0_l in Hhi.
Qed.

(** ** What Pixelate and the ASCII effect draw *)

Section BlockDrawings.

Context {num : Type} `{Number num}.

(** The glyph the ASCII effect draws for the block at [(x, y)]. *)
Lemma ASCII_ART_block (data : list Z) (w h size : nat) (brightnessSteps : num)
    (chars : list codeunit) (x y : nat) :
  0 < size → x ∈ blockStarts w size → y ∈ blockStarts h size →
  (let '(totalBrightness, count) := asciiBlock data w h x y size in
   if bool_decide (0 < count) then
     let avgBrightness := (totalBrightness / of_Z (Z.of_nat count))%js in
     let charIndex := asciiCharIndex avgBrightness brightnessSteps chars in
     [FillText (char_at chars charIndex) x y size]
   else [])
  = let region := clippedBlock w h x y size in
    let total := foldl (brightnessAdd data w) (of_Z 0, 0) region in
    let avgBrightness := (total.1 / of_Z (Z.of_nat (length region)))%js in
    [FillText (char_at chars (asciiCharIndex avgBrightness brightnessSteps chars)) x y size].
Proof.
  intros Hs Hx Hy. cbv zeta.
  pose proof (block_nonempty w h x y size Hs Hx Hy) as Hpos.
  rewrite asciiBlock_clipped.
  pose proof (brightnessAdd_count data w (clippedBlock w h x y size) (of_Z 0, 0)) as Hcount.
  destruct (foldl _ _ _) as [total count].
  cbn [fst snd] in *. rewrite Nat.add_0_l in Hcount. subst count.
  by rewrite bool_decide_eq_true_2.
Qed.

(** The rectangle Pixelate fills for the block at [(x, y)]. *)
Lemma PIXELATE_block (data : list Z) (w h size : nat) (x y : nat) :
  0 < size → x ∈ blockStarts w size → y ∈ blockStarts h size →
  (let '(totalR, totalG, totalB, count) := colorBlock data w h x y size in
   if bool_decide (0 < count) then
     let avgR := floor (totalR / of_Z (Z.of_nat count))%js in
     let avgG := floor (totalG / of_Z (Z.of_nat count))%js in
     let avgB := floor (totalB / of_Z (Z.of_nat count))%js in
     [FillRect (Rgb avgR avgG avgB) x y size size]
   else [])
  = let region := clippedBlock w h x y size in
    let totals := foldl (colorAdd data w) (of_Z 0, of_Z 0, of_Z 0, 0) region in
    let count := of_Z (Z.of_nat (length region)) in
    [FillRect (Rgb (floor (totals.1.1.1 / count)%js)
                   (floor (totals.1.1.2 / count)%js)
                   (floor (totals.1.2 / count)%js))
              x y size size].
Proof.
  intros Hs Hx Hy. cbv zeta.
  pose proof (block_nonempty w h x y size Hs Hx Hy) as Hpos.
  rewrite colorBlock_clipped.
  pose proof (colorAdd_count data w (clippedBlock w h x y size)
                (of_Z 0, of_Z 0, of_Z 0, 0)) as Hcount.
  destruct (foldl _ _ _) as [[[totalR totalG] totalB] count].
  cbn [fst snd] in *. rewrite Nat.add_0_l in Hcount. subst count.
  by rewrite bool_decide_eq_true_2.
Qed.

(** A loop over the blocks that draws one thing a block draws them at the
    block origins, in the order of the loops. *)
Lemma block_drawings {A : Type} (f : nat → nat → list A) (g : nat → nat → A)
    (w h size : nat) :
  (∀ x y, x ∈ blockStarts w size → y ∈ blockStarts h size → f y x = [g y x]) →
  (y ← blockStarts h size; x ← blockStarts w size; f y x)
  = (λ p, g p.1 p.2) <$> (y ← blockStarts h size; x ← blockStarts w size; [(y, x)]).
Proof.
  intros Hf.
  assert (∀ ys, (∀ y, y ∈ ys → y ∈ blockStarts h size) →
    (y ← ys; x ← blockStarts w size; f y x)
    = (λ p, g p.1 p.2) <$> (y ← ys; x ← blockStarts w size; [(y, x)])) as Hgen.
  { induction ys as [|y ys IH]; intros Hys; [done|].
    cbn. rewrite fmap_app. f_equal.
    - rewrite (bind_singletons _ (g y)).
      + rewrite (bind_singletons (λ x, [(y, x)]) (λ x, (y, x))) by done.
        by rewrite <-list_fmap_compose.
      + intros x Hx. apply Hf; [done|]. apply Hys, list_elem_of_here.
    - apply IH. intros y' Hy'. apply Hys. by apply list_elem_of_further. }
  by apply Hgen.
Qed.

Lemma elem_of_blocks (w h size x y : nat) :
  (y, x) ∈ (y ← blockStarts h size; x ← blockStarts w size; [(y, x)]) ↔
  y ∈ blockStarts h size ∧ x ∈ blockStarts w size.
Proof.
  rewrite list_elem_of_bind. split.
  - intros (y' & (x' & [= -> ->]%list_elem_of_singleton & Hx)%list_elem_of_bind & Hy). done.
  - intros [Hy Hx]. exists y. split; [|done].
    apply list_elem_of_bind. exists x. split; [apply list_elem_of_here|done].
Qed.

End BlockDrawings.



Lemma exact_floor_byte (q : Qc) :
  (0 <= q)%Qc → (q <= of_Z 255)%Qc → ∃ z, floor q = JInt z ∧ (0 ≤ z ≤ 255)%Z.
Proof.
  intros H0 H255. exists (Qfloor q). split; [done|]. split.
  - change 0%Z with (Qfloor 0). by apply Qfloor_resp_le.
  - rewrite <-(Qfloor_Z 255). apply Qfloor_resp_le. by to_Q.
Qed.

(** X14.  On an image of bytes, on exact arithmetic, Pixelate fills exactly
    one square for every block, at the block origins in the order of the
    loops; the squares have the side max(1, pixelSize) and their fill colour
    is a triple of integers between 0 and 255.  The squares cover the image
    without overlap: every pixel lies in the square of its own block and in
    no other. *)
Theorem pixelate_tiles_image (data : list Z) (w h pixelSize : nat) :
  length data = w * h * 4 → bytes data →
  let size := Nat.max 1 pixelSize in
  let rects := PIXELATE (num := Qc) data w h pixelSize in
  (λ r, (rect_y r, rect_x r)) <$> rects
    = (y ← blockStarts h size; x ← blockStarts w size; [(y, x)]) ∧
  (∀ rect, rect ∈ rects →
     rect_w rect = size ∧ rect_h rect = size ∧
     ∃ r g b, rect_style rect = Rgb (JInt r) (JInt g) (JInt b) ∧
       (0 ≤ r ≤ 255)%Z ∧ (0 ≤ g ≤ 255)%Z ∧ (0 ≤ b ≤ 255)%Z) ∧
  (∀ px py, px < w → py < h →
     ∃ rect, rect ∈ rects ∧ rect_x rect = px / size * size ∧ rect_y rect = py / size * size) ∧
  (∀ rect px py, rect ∈ rects →
     rect_x rect ≤ px < rect_x rect + rect_w rect →
     rect_y rect ≤ py < rect_y rect + rect_h rect →
     rect_x rect = px / size * size ∧ rect_y rect = py / size * size).
Proof.
  intros Hlen Hbytes size rects.
  assert (Hs : 0 < size) by (subst size; lia).
  set (rect_of := λ y x : nat,
    let region := clippedBlock w h x y size in
    let totals := foldl (colorAdd (num := Qc) data w) (of_Z 0, of_Z 0, of_Z 0, 0) region in
    let count := of_Z (num := Qc) (Z.of_nat (length region)) in
    FillRect (Rgb (floor (totals.1.1.1 / count)%js)
                  (floor (totals.1.1.2 / count)%js)
                  (floor (totals.1.2 / count)%js))
             x y size size).
  assert (Hrects : rects = (λ p, rect_of p.1 p.2) <$>
            (y ← blockStarts h size; x ← blockStarts w size; [(y, x)])).
  { subst rects. unfold PIXELATE. fold size.
    apply (block_drawings _ rect_of). intros x y Hx Hy.
    by apply (PIXELATE_block (num := Qc)). }
  assert (Hstart : ∀ v n : nat, v < n → v / size * size ∈ blockStarts n size).
  { intros v n Hv. apply elem_of_blockStarts; [done|].
    split; [|apply Nat.Div0.mod_mul].
    pose proof (Nat.Div0.mul_div_le v size). lia. }
  assert (Hown : ∀ v v0 : nat, v0 `mod` size = 0 → v0 ≤ v < v0 + size → v0 = v / size * size).
  { intros v v0 Hmod Hv.
    pose proof (Nat.div_mod_eq v0 size) as Hdm. rewrite Hmod, Nat.add_0_r in Hdm.
    assert (v / size = v0 / size) as ->; [|lia].
    symmetry. apply (Nat.div_unique v size (v0 / size) (v - v0)); lia. }
  split_and!.
  - rewrite Hrects, <-list_fmap_compose. rewrite <-(list_fmap_id (_ ≫= _)) at 2.
    apply list_fmap_ext. by intros _ [y x] _.
  - intros rect Hrect. rewrite Hrects in Hrect.
    apply list_elem_of_fmap in Hrect as ([y x] & -> & [Hy Hx]%elem_of_blocks).
    split; [done|]. split; [done|]. cbn [fst snd]. subst rect_of. cbv zeta. cbn [rect_style].
    pose proof (block_nonempty w h x y size Hs Hx Hy) as Hpos.
    destruct (block_color_range data w h x y size Hlen Hbytes Hpos)
      as ((HR0 & HR255) & (HG0 & HG255) & (HB0 & HB255)).
    cbv zeta in HR0, HR255, HG0, HG255, HB0, HB255.
    destruct (exact_floor_byte _ HR0 HR255) as (r & Hr & ?).
    destruct (exact_floor_byte _ HG0 HG255) as (g & Hg & ?).
    destruct (exact_floor_byte _ HB0 HB255) as (b & Hb & ?).
    exists r, g, b. split; [|done].
    f_equal; [exact Hr|exact Hg|exact Hb].
  - intros px py Hpx Hpy. exists (rect_of (py / size * size) (px / size * size)).
    split; [|done]. rewrite Hrects. apply list_elem_of_fmap.
    exists (py / size * size, px / size * size). split; [done|].
    apply elem_of_blocks. split; by apply Hstart.
  - intros rect px py Hrect Hx Hy. rewrite Hrects in Hrect.
    apply list_elem_of_fmap in Hrect as ([y x] & -> & [Hy0 Hx0]%elem_of_blocks).
    cbn [fst snd rect_of rect_x rect_y rect_w rect_h] in *.
    apply elem_of_blockStarts in Hy0 as [_ Hy0]; [|done].
    apply elem_of_blockStarts in Hx0 as [_ Hx0]; [|done].
    split; by apply Hown.
Qed.

Lemma pixelate_tiles_image_witness :
  (λ r, (rect_y r, rect_x r)) <$>
    PIXELATE (num := Qc) [10; 20; 30; 40; 50; 60; 70; 80; 1; 2; 3; 4]%Z 3 1 2
  = [(0, 0); (0, 2)].
Proof.
  destruct (pixelate_tiles_image [10; 20; 30; 40; 50; 60; 70; 80; 1; 2; 3; 4]%Z 3 1 2)
    as [Hpos _]; [reflexivity|repeat constructor; lia|].
  exact Hpos.
Defined.

(** ** The halftone effects *)

(** A loop over the blocks whose body appends what it draws, and may throw. *)
Lemma foldlM_blocks {A : Type} (body : list A → nat → nat → option (list A))
    (g : nat → nat → list A) (xs ys : list nat) (init : list A) :
  (∀ drawn x y, x ∈ xs → y ∈ ys → body drawn y x = Some (drawn ++ g y x)) →
  foldlM (λ drawn y, foldlM (λ drawn x, body drawn y x) drawn xs) init ys
  = Some (init ++ (y ← ys; x ← xs; g y x)).
Proof.
  intros Hbody.
  assert (Hrow : ∀ y, y ∈ ys → ∀ xs' drawn, (∀ x, x ∈ xs' → x ∈ xs) →
            foldlM (λ drawn x, body drawn y x) drawn xs'
            = Some (drawn ++ (x ← xs'; g y x))).
  { intros y Hy. induction xs' as [|x xs' IH]; intros drawn Hxs.
    - cbn. by rewrite app_nil_r.
    - cbn. rewrite Hbody by (done || apply Hxs, list_elem_of_here). cbn.
      rewrite IH by (intros x' Hx'; by apply Hxs, list_elem_of_further).
      by rewrite <-app_assoc. }
  revert init.
  assert (∀ ys' init, (∀ y, y ∈ ys' → y ∈ ys) →
    foldlM (λ drawn y, foldlM (λ drawn x, body drawn y x) drawn xs) init ys'
    = Some (init ++ (y ← ys'; x ← xs; g y x))) as Hgen.
  { induction ys' as [|y ys' IH]; intros init Hys.
    - cbn. by rewrite app_nil_r.
    - cbn. rewrite Hrow by (done || apply Hys, list_elem_of_here). cbn.
      rewrite IH by (intros y' Hy'; by apply Hys, list_elem_of_further).
      by rewrite <-app_assoc. }
  intros init. by apply Hgen.
Qed.

(** The extent drawn for a block lies between 0 and the extent of the
    cell. *)
Lemma halftoneExtent_range (avgBrightness extent : Qc) (invert : bool) :
  (0 <= avgBrightness)%Qc → (avgBrightness <= of_Z 255)%Qc → (0 <= extent)%Qc →
  (0 <= halftoneExtent avgBrightness extent invert)%Qc ∧
  (halftoneExtent avgBrightness extent invert <= extent)%Qc.
Proof.
  intros H0 H255 He. unfold halftoneExtent.
  assert (0 <= avgBrightness / of_Z 255 * extent ∧
          avgBrightness / of_Z 255 * extent <= extent)%Qc as [Hlo Hhi].
  { unfold Qcdiv. to_Q. change (this 0%Qc) with 0%Q in *.
    assert (/ inject_Z 255 == 1 # 255)%Q as -> by reflexivity.
    change (inject_Z 255) with (255 # 1)%Q in *.
    set (a := this avgBrightness) in *. set (e := this extent) in *. clearbody a e.
    split; nra. }
  cbv zeta. destruct invert; [|done].
  change ((0 <= extent - avgBrightness / of_Z 255 * extent)%Qc ∧
          (extent - avgBrightness / of_Z 255 * extent <= extent)%Qc).
  set (s := (avgBrightness / of_Z 255 * extent)%Qc) in *. clearbody s.
  unfold Qcminus. to_Q. change (this 0%Qc) with 0%Q in *. split; lra.
Qed.

(** A length centred in a cell of side [grid] starting at [x] stays inside
    the cell. *)
Lemma centred_inside (x grid size : Qc) :
  (0 <= size)%Qc → (size <= grid)%Qc →
  let start := (x + (grid - size) / of_Z 2)%Qc in
  (x <= start)%Qc ∧ (start + size <= x + grid)%Qc ∧
  (start - x = x + grid - (start + size))%Qc.
Proof.
  intros H0 Hg start. subst start. split_and!.
  - unfold Qcdiv, Qcminus. to_Q. change (this 0%Qc) with 0%Q in *.
    assert (/ inject_Z 2 == 1 # 2)%Q as -> by reflexivity. lra.
  - unfold Qcdiv, Qcminus. to_Q. change (this 0%Qc) with 0%Q in *.
    assert (/ inject_Z 2 == 1 # 2)%Q as -> by reflexivity. lra.
  - apply Qc_is_canon. unfold Qcdiv, Qcminus. to_Q.
    assert (/ inject_Z 2 == 1 # 2)%Q as -> by reflexivity. ring.
Qed.

Lemma exact_of_nat_nonneg (n : nat) : (0 <= of_Z (num := Qc) (Z.of_nat n))%Qc.
Proof. apply (exact_of_Z_le 0). lia. Qed.

Section HalftoneBlocks.

Context {num : Type} `{Number num}.

Lemma brightnessBlock_average (data : list Z) (w h size x y : nat) :
  0 < size → x ∈ blockStarts w size → y ∈ blockStarts h size →
  ∃ total,
    brightnessBlock data w h x y size = (total, length (clippedBlock w h x y size)) ∧
    total = (foldl (brightnessAdd data w) (of_Z 0, 0) (clippedBlock w h x y size)).1 ∧
    0 < length (clippedBlock w h x y size).
Proof.
  intros Hs Hx Hy.
  pose proof (block_nonempty w h x y size Hs Hx Hy) as Hpos.
  rewrite brightnessBlock_clipped.
  pose proof (brightnessAdd_count data w (clippedBlock w h x y size) (of_Z 0, 0)) as Hcount.
  destruct (foldl _ _ _) as [total count].
  cbn [fst snd] in *. rewrite Nat.add_0_l in Hcount. subst count. by exists total.
Qed.

Lemma colorBlock_average (data : list Z) (w h size x y : nat) :
  0 < size → x ∈ blockStarts w size → y ∈ blockStarts h size →
  ∃ totals,
    colorBlock data w h x y size = (totals, length (clippedBlock w h x y size)) ∧
    totals = (foldl (colorAdd data w) (of_Z 0, of_Z 0, of_Z 0, 0)
                    (clippedBlock w h x y size)).1 ∧
    0 < length (clippedBlock w h x y size).
Proof.
  intros Hs Hx Hy.
  pose proof (block_nonempty w h x y size Hs Hx Hy) as Hpos.
  rewrite colorBlock_clipped.
  pose proof (colorAdd_count data w (clippedBlock w h x y size)
                (of_Z 0, of_Z 0, of_Z 0, 0)) as Hcount.
  destruct (foldl _ _ _) as [totals count].
  cbn [fst snd] in *. rewrite Nat.add_0_l in Hcount. subst count. by exists totals.
Qed.

End HalftoneBlocks.

(** The average brightness of the block at a block origin, on exact
    arithmetic. *)
Lemma brightnessBlock_exact (data : list Z) (w h size x y : nat) :
  length data = w * h * 4 → bytes data →
  0 < size → x ∈ blockStarts w size → y ∈ blockStarts h size →
  ∃ (total : Qc) (count : nat),
    brightnessBlock data w h x y size = (total, count) ∧ 0 < count ∧
    (0 <= total / of_Z (Z.of_nat count))%Qc ∧
    (total / of_Z (Z.of_nat count) <= of_Z 255)%Qc.
Proof.
  intros Hlen Hbytes Hs Hx Hy.
  destruct (brightnessBlock_average (num := Qc) data w h size x y Hs Hx Hy)
    as (total & Hblock & -> & Hpos).
  eexists _, _. split; [done|]. split; [done|].
  by apply (block_brightness_range data w h x y size).
Qed.





(** X17.  On an image of bytes, on exact arithmetic, the circle halftone
    never passes a negative radius to [arc], so it never throws: it draws the
    background and then exactly one disc for every block, centred in the cell
    of the block, with a radius between 0 and half the grid size, so that the
    disc stays inside its cell. *)
Theorem halftone_circles_inside_cells (data : list Z) (w h gridSize : nat) (invert : bool)
    (dotColor bgColor : list codeunit) :
  length data = w * h * 4 → bytes data →
  let grid := Nat.max 1 gridSize in
  ∃ discs,
    HALFTONE_CIRCLES (num := Qc) data w h gridSize invert dotColor bgColor
    = Some (DrawRect (Css bgColor) (of_Z 0) (of_Z 0)
                     (of_Z (Z.of_nat w)) (of_Z (Z.of_nat h)) :: discs) ∧
    Forall2 (λ p d,
               ∃ radius : Qc,
                 d = DrawArc (Css dotColor)
                             (of_Z (Z.of_nat p.2) + of_Z (Z.of_nat grid) / of_Z 2)%Qc
                             (of_Z (Z.of_nat p.1) + of_Z (Z.of_nat grid) / of_Z 2)%Qc
                             radius ∧
                 (0 <= radius)%Qc ∧ (radius <= of_Z (Z.of_nat grid) / of_Z 2)%Qc)
            (y ← blockStarts h grid; x ← blockStarts w grid; [(y, x)]) discs.
Proof.
  intros Hlen Hbytes grid.
  assert (Hs : 0 < grid) by (subst grid; lia).
  set (radius_of := λ y x : nat,
    halftoneExtent (num := Qc)
      ((brightnessBlock data w h x y grid).1
       / of_Z (Z.of_nat (brightnessBlock (num := Qc) data w h x y grid).2))%js
      (of_Z (Z.of_nat grid) / of_Z 2)%js invert).
  set (disc_of := λ y x : nat,
    [DrawArc (Css dotColor) (of_Z (Z.of_nat x) + of_Z (Z.of_nat grid) / of_Z 2)%js
             (of_Z (Z.of_nat y) + of_Z (Z.of_nat grid) / of_Z 2)%js (radius_of y x)]).
  assert (Hhalf : (0 <= of_Z (Z.of_nat grid) / of_Z 2)%Qc).
  { pose proof (exact_of_nat_nonneg grid) as Hg. unfold Qcdiv. to_Q.
    change (this 0%Qc) with 0%Q in *.
    assert (/ inject_Z 2 == 1 # 2)%Q as -> by reflexivity. lra. }
  assert (Hradius : ∀ x y, x ∈ blockStarts w grid → y ∈ blockStarts h grid →
            0 < (brightnessBlock (num := Qc) data w h x y grid).2 ∧
            (0 <= radius_of y x)%Qc ∧ (radius_of y x <= of_Z (Z.of_nat grid) / of_Z 2)%Qc).
  { intros x y Hx Hy.
    destruct (brightnessBlock_exact data w h grid x y Hlen Hbytes Hs Hx Hy)
      as (total & count & Hblock & Hpos & H0 & H255).
    subst radius_of. cbv beta. rewrite Hblock. cbn [fst snd]. split; [done|].
    by apply halftoneExtent_range. }
  exists (y ← blockStarts h grid; x ← blockStarts w grid; disc_of y x). split.
  - unfold HALFTONE_CIRCLES. fold grid.
    rewrite (foldlM_blocks _ disc_of); [done|].
    intros drawn x y Hx Hy. destruct (Hradius x y Hx Hy) as (Hpos & Hr0 & _).
    unfold halftoneCircle. subst disc_of radius_of. cbv beta in *.
    destruct (brightnessBlock data w h x y grid) as [total count]. cbn [fst snd] in *.
    rewrite bool_decide_eq_true_2 by done. cbv zeta. unfold fillArc.
    match goal with |- context [(?r <? of_Z 0)%js] =>
      assert ((r <? of_Z 0)%js = false) as -> by exact (proj2 (exact_ltb_ge _ _) Hr0)
    end.
    done.
  - apply Forall2_bind, Forall_Forall2_diag, Forall_forall. intros y Hy.
    apply Forall2_bind, Forall_Forall2_diag, Forall_forall. intros x Hx.
    destruct (Hradius x y Hx Hy) as (_ & Hr0 & Hr1).
    constructor; [|constructor]. by exists (radius_of y x).
Qed.

Lemma halftone_circles_inside_cells_witness :
  ∃ discs,
    HALFTONE_CIRCLES (num := Qc) [10; 20; 30; 40; 50; 60; 70; 80]%Z 2 1 1 true [] []
    = Some (DrawRect (Css []) (of_Z 0) (of_Z 0) (of_Z 2) (of_Z 1) :: discs) ∧
    length discs = 2.
Proof.
  destruct (halftone_circles_inside_cells [10; 20; 30; 40; 50; 60; 70; 80]%Z 2 1 1 true
              [] []) as (discs & Heq & Hall); [reflexivity|repeat constructor; lia|].
  exists discs. split; [exact Heq|].
  apply Forall2_length in Hall. by rewrite <-Hall.
Defined.

(** ** The CMYK halftone *)

Lemma exact_min_le (a b : Qc) : (Exact.min a b <= a)%Qc ∧ (Exact.min a b <= b)%Qc.
Proof.
  destruct (exact_min_cases a b) as [[-> Hab]|[-> Hba]].
  - split; [apply Qcle_refl|done].
  - split; [by apply Qclt_le_weak|apply Qcle_refl].
Qed.

Lemma cmyk_key_le (r g b : Qc) :
  (cmyk_key r g b <= of_Z 1 - r / of_Z 255)%Qc ∧
  (cmyk_key r g b <= of_Z 1 - g / of_Z 255)%Qc ∧
  (cmyk_key r g b <= of_Z 1 - b / of_Z 255)%Qc.
Proof.
  unfold cmyk_key. cbn [nmin nsub ndiv of_Z exact].
  set (c := (Exact.of_Z 1 - r / Exact.of_Z 255)%Qc).
  set (m := (Exact.of_Z 1 - g / Exact.of_Z 255)%Qc).
  set (y := (Exact.of_Z 1 - b / Exact.of_Z 255)%Qc).
  destruct (exact_min_le (Exact.min c m) y) as [H1 H2].
  destruct (exact_min_le c m) as [H3 H4].
  split_and!; [by apply Qcle_trans with (Exact.min c m)|by apply Qcle_trans with (Exact.min c m)|done].
Qed.

(** The ink of each colour: the component of [rgbToCmyk] times [1 - k] is
    the raw component minus the key, a number between 0 and 1. *)
Lemma cmyk_ink_exact (r g b : Qc) :
  (0 <= r)%Qc → (r <= of_Z 255)%Qc →
  (0 <= g)%Qc → (g <= of_Z 255)%Qc →
  (0 <= b)%Qc → (b <= of_Z 255)%Qc →
  ∃ c m y k : Qc,
    rgbToCmyk r g b = (c, m, y, k) ∧ k = cmyk_key r g b ∧
    ((0 <= k)%Qc ∧ (k <= 1)%Qc) ∧
    (c * (of_Z 1 - k) = of_Z 1 - r / of_Z 255 - k)%Qc ∧
    (m * (of_Z 1 - k) = of_Z 1 - g / of_Z 255 - k)%Qc ∧
    (y * (of_Z 1 - k) = of_Z 1 - b / of_Z 255 - k)%Qc ∧
    ((0 <= c * (of_Z 1 - k))%Qc ∧ (c * (of_Z 1 - k) <= 1)%Qc) ∧
    ((0 <= m * (of_Z 1 - k))%Qc ∧ (m * (of_Z 1 - k) <= 1)%Qc) ∧
    ((0 <= y * (of_Z 1 - k))%Qc ∧ (y * (of_Z 1 - k) <= 1)%Qc).
Proof.
  intros Hr0 Hr Hg0 Hg Hb0 Hb.
  destruct (cmyk_key_range r g b Hr0 Hr Hg0 Hg Hb0 Hb) as [Hk0 Hk1].
  destruct (cmyk_key_le r g b) as (Hkc & Hkm & Hky).
  destruct (cmyk_component_range r Hr0 Hr) as [Hc0 Hc1].
  destruct (cmyk_component_range g Hg0 Hg) as [Hm0 Hm1].
  destruct (cmyk_component_range b Hb0 Hb) as [Hy0 Hy1].
  destruct (rgbToCmyk_exact r g b Hr0 Hr Hg0 Hg Hb0 Hb) as [Hblack Hcol].
  cbv zeta in Hblack, Hcol. unfold cmyk_divisor in Hcol.
  cbn [nadd nsub nmul ndiv of_Z exact] in *.
  set (k := cmyk_key r g b) in *.
  change (Exact.of_Z 1) with 1%Qc in *.
  set (c0 := (1 - r / Exact.of_Z 255)%Qc) in *.
  set (m0 := (1 - g / Exact.of_Z 255)%Qc) in *.
  set (y0 := (1 - b / Exact.of_Z 255)%Qc) in *.
  assert (Hrange : ∀ v : Qc, (k <= v)%Qc → (v <= 1)%Qc →
            (0 <= v - k)%Qc ∧ (v - k <= 1)%Qc).
  { intros v Hkv Hv1. unfold Qcminus. to_Q. change (this 0%Qc) with 0%Q in *.
    change (this 1%Qc) with 1%Q in *. split; lra. }
  destruct (decide (k = 1%Qc)) as [Hk|Hk].
  - rewrite (Hblack Hk). exists 0%Qc, 0%Qc, 0%Qc, 1%Qc.
    assert (c0 = 1%Qc) as Hc by (apply Qcle_antisym; [done|by rewrite <-Hk]).
    assert (m0 = 1%Qc) as Hm by (apply Qcle_antisym; [done|by rewrite <-Hk]).
    assert (y0 = 1%Qc) as Hy by (apply Qcle_antisym; [done|by rewrite <-Hk]).
    rewrite Hc, Hm, Hy.
    split; [done|]. split; [done|]. split; [done|].
    split; [ring|]. split; [ring|]. split; [ring|].
    replace (0 * (1 - 1))%Qc with 0%Qc by ring. done.
  - destruct (Hcol Hk) as (Hpos & Hne & Heq). rewrite Heq.
    eexists _, _, _, _. split; [reflexivity|]. split; [done|]. split; [done|].
    assert (Hdiv : ∀ v : Qc, ((v - k) / (1 - k) * (1 - k))%Qc = (v - k)%Qc).
    { intros v. field. exact Hne. }
    rewrite !Hdiv.
    split; [done|]. split; [done|]. split; [done|].
    split; [by apply Hrange|]. split; by apply Hrange.
Qed.

Lemma scaled_radius (ink quarter : Qc) :
  (0 <= ink)%Qc → (ink <= 1)%Qc → (0 <= quarter)%Qc →
  (0 <= ink * quarter)%Qc ∧ (ink * quarter <= quarter)%Qc.
Proof.
  intros H0 H1 Hq. to_Q. change (this 0%Qc) with 0%Q in *. change (this 1%Qc) with 1%Q in *.
  set (i := this ink) in *. set (q := this quarter) in *. clearbody i q. split; nra.
Qed.

(** The four discs of a block whose average colour has its channels between
    0 and 255: none has a negative radius, and none is larger than a quarter
    of the grid. *)
Lemma cmykDots_exact (grid x y : nat) (r g b : Qc) :
  (0 <= r)%Qc → (r <= of_Z 255)%Qc →
  (0 <= g)%Qc → (g <= of_Z 255)%Qc →
  (0 <= b)%Qc → (b <= of_Z 255)%Qc →
  let quarter := (of_Z (Z.of_nat grid) / of_Z 4)%Qc in
  let centerX := (of_Z (Z.of_nat x) + of_Z (Z.of_nat grid) / of_Z 2)%Qc in
  let centerY := (of_Z (Z.of_nat y) + of_Z (Z.of_nat grid) / of_Z 2)%Qc in
  let k := cmyk_key r g b in
  ∃ radiusC radiusM radiusY radiusK : Qc,
    cmykDots grid x y r g b
    = Some [DrawArc (Css cyan) (centerX - quarter)%Qc (centerY - quarter)%Qc radiusC;
            DrawArc (Css magenta) (centerX + quarter)%Qc (centerY - quarter)%Qc radiusM;
            DrawArc (Css yellow) (centerX - quarter)%Qc (centerY + quarter)%Qc radiusY;
            DrawArc (Css black) (centerX + quarter)%Qc (centerY + quarter)%Qc radiusK] ∧
    radiusC = ((of_Z 1 - r / of_Z 255 - k) * quarter)%Qc ∧
    radiusM = ((of_Z 1 - g / of_Z 255 - k) * quarter)%Qc ∧
    radiusY = ((of_Z 1 - b / of_Z 255 - k) * quarter)%Qc ∧
    radiusK = (k * quarter)%Qc ∧
    Forall (λ radius, (0 <= radius)%Qc ∧ (radius <= quarter)%Qc)
           [radiusC; radiusM; radiusY; radiusK].
Proof.
  intros Hr0 Hr Hg0 Hg Hb0 Hb quarter centerX centerY k.
  destruct (cmyk_ink_exact r g b Hr0 Hr Hg0 Hg Hb0 Hb)
    as (c & m & yc & k' & Hcmyk & Hk & Hkr & Hc & Hm & Hy & Hcr & Hmr & Hyr).
  fold k in Hk. subst k'.
  assert (Hq : (0 <= quarter)%Qc).
  { subst quarter. pose proof (exact_of_nat_nonneg grid) as Hgrid. unfold Qcdiv. to_Q.
    change (this 0%Qc) with 0%Q in *.
    assert (/ inject_Z 4 == 1 # 4)%Q as -> by reflexivity. lra. }
  destruct (scaled_radius _ quarter (proj1 Hcr) (proj2 Hcr) Hq) as [HC0 HC1].
  destruct (scaled_radius _ quarter (proj1 Hmr) (proj2 Hmr) Hq) as [HM0 HM1].
  destruct (scaled_radius _ quarter (proj1 Hyr) (proj2 Hyr) Hq) as [HY0 HY1].
  destruct (scaled_radius k quarter (proj1 Hkr) (proj2 Hkr) Hq) as [HK0 HK1].
  exists (c * (of_Z 1 - k) * quarter)%Qc, (m * (of_Z 1 - k) * quarter)%Qc,
         (yc * (of_Z 1 - k) * quarter)%Qc, (k * quarter)%Qc.
  split.
  - unfold cmykDots. rewrite Hcmyk. cbv zeta. unfold fillArc.
    change (of_Z (Z.of_nat grid) / of_Z 4)%js with quarter.
    change (of_Z 1 - k)%js with (of_Z 1 - k)%Qc.
    assert (Hnn : ∀ v : Qc, (0 <= v)%Qc → (v <? of_Z 0)%js = false).
    { intros v Hv. exact (proj2 (exact_ltb_ge _ _) Hv). }
    change (c * (of_Z 1 - k)%Qc * quarter)%js with (c * (of_Z 1 - k) * quarter)%Qc.
    change (m * (of_Z 1 - k)%Qc * quarter)%js with (m * (of_Z 1 - k) * quarter)%Qc.
    change (yc * (of_Z 1 - k)%Qc * quarter)%js with (yc * (of_Z 1 - k) * quarter)%Qc.
    change (k * quarter)%js with (k * quarter)%Qc.
    rewrite !Hnn by done. done.
  - rewrite Hc, Hm, Hy. split_and!; [done..|].
    rewrite <-Hc, <-Hm, <-Hy. repeat constructor; done.
Qed.



(** ** The presets of the editor *)

Lemma trimStart_nil (s : list codeunit) :
  trimStart s = [] ↔ Forall (λ c, isWhiteSpace c = true) s.
Proof.
  induction s as [|c s IH]; cbn; [by split|].
  destruct (isWhiteSpace c) eqn:Hc.
  - rewrite IH, Forall_cons. split; [by intros ?; split|by intros [_ ?]].
  - split; [done|]. intros [Hc' _]%Forall_cons. congruence.
Qed.

Lemma trimStart_suffix (s : list codeunit) : trimStart s `suffix_of` s.
Proof.
  induction s as [|c s IH]; cbn; [done|].
  destruct (isWhiteSpace c); [by apply suffix_cons_r|done].
Qed.

Lemma trimStart_head (s : list codeunit) (c : codeunit) :
  head (trimStart s) = Some c → isWhiteSpace c = false.
Proof.
  induction s as [|c' s IH]; cbn; [done|].
  destruct (isWhiteSpace c') eqn:Hc; [done|]. cbn. congruence.
Qed.

Lemma trimStart_keeps_last (s : list codeunit) (c : codeunit) :
  last s = Some c → isWhiteSpace c = false → last (trimStart s) = Some c.
Proof.
  induction s as [|c' s IH]; cbn; [done|]. intros Hl Hc.
  destruct (isWhiteSpace c') eqn:Hc'; [|done].
  destruct s as [|c'' s]; [cbn in Hl; congruence|]. by apply IH.
Qed.

Lemma trim_nil (s : list codeunit) :
  trim s = [] ↔ Forall (λ c, isWhiteSpace c = true) s.
Proof.
  unfold trim. split.
  - intros H. apply (f_equal reverse) in H. rewrite reverse_involutive in H.
    change (reverse []) with (@nil codeunit) in H.
    apply trimStart_nil in H. rewrite Forall_reverse in H.
    destruct (trimStart s) as [|c r] eqn:Hs; [by apply trimStart_nil|].
    apply Forall_cons in H as [Hc _].
    pose proof (trimStart_head s c) as Hh. rewrite Hs in Hh.
    specialize (Hh eq_refl). congruence.
  - intros H. apply trimStart_nil in H. by rewrite H.
Qed.

Lemma trim_ends (s : list codeunit) (c : codeunit) :
  head (trim s) = Some c ∨ last (trim s) = Some c → isWhiteSpace c = false.
Proof.
  unfold trim. rewrite head_reverse, last_reverse. intros [H|H].
  - destruct (trimStart s) as [|c0 r] eqn:Hs; [done|].
    pose proof (trimStart_head s c0) as Hh. rewrite Hs in Hh. specialize (Hh eq_refl).
    destruct (last (reverse (c0 :: r))) as [c1|] eqn:Hl.
    + rewrite last_reverse in Hl. cbn in Hl. injection Hl as <-.
      assert (last (reverse (c0 :: r)) = Some c0) as Hl' by by rewrite last_reverse.
      rewrite (trimStart_keeps_last _ _ Hl' Hh) in H. congruence.
    + rewrite last_reverse in Hl. done.
  - by apply trimStart_head in H.
Qed.

Section PresetProperties.

Context {EffectType EffectParamsState : Type}.

Implicit Types (p q : Preset EffectType EffectParamsState).
Implicit Types (prev : list (Preset EffectType EffectParamsState)) (n : list codeunit).

Lemma savePreset_cons p q prev :
  savePreset p (q :: prev)
  = if decide (preset_name q = preset_name p) then p :: prev else q :: savePreset p prev.
Proof.
  unfold savePreset. cbn. case_decide; [done|].
  by destruct (list_find _ prev) as [[i y]|].
Qed.

Lemma findPreset_cons n q prev :
  findPreset n (q :: prev)
  = if decide (preset_name q = n) then Some q else findPreset n prev.
Proof.
  unfold findPreset. cbn. case_decide; [done|].
  by destruct (list_find _ prev) as [[i y]|].
Qed.

Lemma findPreset_savePreset p prev :
  findPreset (preset_name p) (savePreset p prev) = Some p.
Proof.
  induction prev as [|q prev IH].
  - unfold savePreset, findPreset. cbn. by rewrite decide_True.
  - rewrite savePreset_cons. case_decide.
    + rewrite findPreset_cons. by rewrite decide_True.
    + rewrite findPreset_cons. by rewrite decide_False.
Qed.

Lemma findPreset_savePreset_ne n p prev :
  n ≠ preset_name p → findPreset n (savePreset p prev) = findPreset n prev.
Proof.
  intros Hn. induction prev as [|q prev IH].
  - unfold savePreset, findPreset. cbn. by rewrite decide_False.
  - rewrite savePreset_cons. case_decide as Hq.
    + rewrite !findPreset_cons. rewrite !decide_False; [done|congruence..].
    + rewrite !findPreset_cons. by rewrite IH.
Qed.

Lemma savePreset_names p prev :
  preset_name <$> savePreset p prev
  = if decide (preset_name p ∈ preset_name <$> prev) then preset_name <$> prev
    else (preset_name <$> prev) ++ [preset_name p].
Proof.
  induction prev as [|q prev IH].
  - unfold savePreset. rewrite fmap_nil.
    destruct (decide (preset_name p ∈ [])) as [Hin|Hin]; [by apply elem_of_nil in Hin|done].
  - rewrite savePreset_cons, !fmap_cons.
    destruct (decide (preset_name p ∈ preset_name q :: (preset_name <$> prev))) as [Hin|Hin];
      destruct (decide (preset_name q = preset_name p)) as [Hq|Hq].
    + cbn. by rewrite Hq.
    + cbn. f_equal. rewrite IH. rewrite decide_True; [done|].
      apply elem_of_cons in Hin as [?|?]; [congruence|done].
    + exfalso. apply Hin. rewrite Hq. by left.
    + cbn. f_equal. rewrite IH. rewrite decide_False; [done|].
      intros ?. apply Hin. by right.
Qed.

Lemma savePreset_NoDup p prev :
  NoDup (preset_name <$> prev) → NoDup (preset_name <$> savePreset p prev).
Proof.
  intros Hnd. rewrite savePreset_names. case_decide as Hin; [done|].
  apply NoDup_app. split_and!; [done| |apply NoDup_singleton].
  intros x Hx Hx'. apply list_elem_of_singleton in Hx' as ->. done.
Qed.

Lemma filter_savePreset p prev :
  filter (λ q, preset_name q ≠ preset_name p) (savePreset p prev)
  = filter (λ q, preset_name q ≠ preset_name p) prev.
Proof.
  induction prev as [|q prev IH].
  - change (savePreset p []) with [p]. rewrite filter_cons_False; [done|]. by intros H.
  - rewrite savePreset_cons. case_decide as Hq.
    + rewrite !filter_cons_False; [done|by intros H..].
    + by rewrite !filter_cons_True, IH.
Qed.

Lemma findPreset_filter n m prev :
  findPreset m (filter (λ q, preset_name q ≠ n) prev)
  = if decide (m = n) then None else findPreset m prev.
Proof.
  induction prev as [|q prev IH].
  - by case_decide.
  - destruct (decide (preset_name q = n)) as [Hq|Hq].
    + rewrite filter_cons_False by (by intros H). rewrite IH, findPreset_cons.
      case_decide; [done|]. rewrite decide_False; [done|congruence].
    + rewrite filter_cons_True by done. rewrite !findPreset_cons, IH.
      case_decide as Hm; [|done]. rewrite decide_False; [done|congruence].
Qed.

Lemma findPreset_None n prev :
  findPreset n prev = None ↔ n ∉ preset_name <$> prev.
Proof.
  induction prev as [|q prev IH].
  - split; [intros _ ?%elem_of_nil; done|done].
  - rewrite findPreset_cons. cbn. rewrite not_elem_of_cons. case_decide as Hq.
    + split; [done|]. intros [? _]. congruence.
    + rewrite IH. split; [intros ?; split; [congruence|done]|by intros [_ ?]].
Qed.

(** X19. A preset whose name is empty or only white space is not saved:
    [handleSavePreset] sets the message that the name may not be empty and
    leaves the presets, the typed name and the open form as they are.
    With any other name the message is cleared, the typed name is emptied
    and the form is closed. *)
Theorem save_preset_blank_name (st : EditorState EffectType EffectParamsState) :
  (Forall (λ c, isWhiteSpace c = true) (newPresetName st) →
     error (handleSavePreset st) = Some emptyPresetName
     ∧ presets (handleSavePreset st) = presets st
     ∧ newPresetName (handleSavePreset st) = newPresetName st
     ∧ isSavingPreset (handleSavePreset st) = isSavingPreset st)
  ∧ (¬ Forall (λ c, isWhiteSpace c = true) (newPresetName st) →
     error (handleSavePreset st) = None
     ∧ newPresetName (handleSavePreset st) = []
     ∧ isSavingPreset (handleSavePreset st) = false)
  ∧ activeEffect (handleSavePreset st) = activeEffect st
  ∧ effectParams (handleSavePreset st) = effectParams st.
Proof.
  unfold handleSavePreset. rewrite <- trim_nil.
  case_bool_decide as Ht; cbn; naive_solver.
Qed.

(** X20. Saving under a name that is not blank stores the current effect
    and its parameters under the trimmed name: looking that name up gives
    the new preset, every other name gives what it gave before, the stored
    name neither starts nor ends with white space, a list without repeated
    names stays one, and the list grows by one exactly when the name was
    not in it. *)
Theorem save_preset_lookup (st : EditorState EffectType EffectParamsState) :
  ¬ Forall (λ c, isWhiteSpace c = true) (newPresetName st) →
  let name := trim (newPresetName st) in
  let saved := presets (handleSavePreset st) in
  findPreset name saved = Some (MkPreset name (activeEffect st) (effectParams st))
  ∧ (∀ other, other ≠ name → findPreset other saved = findPreset other (presets st))
  ∧ (∀ c, head name = Some c ∨ last name = Some c → isWhiteSpace c = false)
  ∧ (NoDup (preset_name <$> presets st) → NoDup (preset_name <$> saved))
  ∧ length saved
    = if decide (name ∈ preset_name <$> presets st) then length (presets st)
      else S (length (presets st)).
Proof.
  intros Hblank name saved.
  assert (saved = savePreset (MkPreset name (activeEffect st) (effectParams st)) (presets st))
    as ->.
  { subst saved. unfold handleSavePreset. rewrite <- trim_nil in Hblank.
    by rewrite bool_decide_eq_false_2. }
  set (p := MkPreset name (activeEffect st) (effectParams st)).
  split_and!.
  - exact (findPreset_savePreset p _).
  - intros other Ho. exact (findPreset_savePreset_ne other p _ Ho).
  - apply trim_ends.
  - apply savePreset_NoDup.
  - pose proof (savePreset_names p (presets st)) as Hn.
    change (preset_name p) with name in Hn.
    rewrite <- (length_fmap preset_name (savePreset p _)), Hn.
    destruct (decide (name ∈ preset_name <$> presets st)); [by rewrite length_fmap|].
    rewrite length_app, length_fmap. cbn. lia.
Qed.

(** X21. Deleting a name removes every preset of that name and nothing
    else: the name is no longer found, every other name gives what it gave
    before, and the presets that stay keep their order.  Deleting a name
    right after saving under it gives the list that deleting it before the
    saving gives; when the name was new, that is the list before the
    saving. *)
Theorem delete_preset_lookup (st : EditorState EffectType EffectParamsState) n :
  let st' := handleDeletePreset n st in
  findPreset n (presets st') = None
  ∧ (∀ other, other ≠ n → findPreset other (presets st') = findPreset other (presets st))
  ∧ presets st' `sublist_of` presets st
  ∧ (∀ p, preset_name p = n →
       filter (λ q, preset_name q ≠ n) (savePreset p (presets st)) = presets st')
  ∧ (n ∉ preset_name <$> presets st → presets st' = presets st)
  ∧ activeEffect st' = activeEffect st ∧ effectParams st' = effectParams st
  ∧ newPresetName st' = newPresetName st ∧ isSavingPreset st' = isSavingPreset st
  ∧ error st' = error st.
Proof.
  intros st'. subst st'. unfold handleDeletePreset.
  cbn [presets activeEffect effectParams newPresetName isSavingPreset error].
  split_and!; try done.
  - rewrite findPreset_filter. by rewrite decide_True.
  - intros other Ho. rewrite findPreset_filter. by rewrite decide_False.
  - apply sublist_filter.
  - intros p <-. apply filter_savePreset.
  - intros Hn. induction (presets st) as [|q l IH]; [done|].
    cbn in Hn. apply not_elem_of_cons in Hn as [Hq Hl].
    rewrite filter_cons_True by congruence. by rewrite IH.
Qed.

End PresetProperties.

Lemma save_preset_blank_name_witness :
  let st := MkEditorState 7 [5%Z] [MkPreset [97]%N 2 [3%Z]] [32; 9]%N true None in
  error (handleSavePreset st) = Some emptyPresetName
  ∧ presets (handleSavePreset st) = [MkPreset [97]%N 2 [3%Z]].
Proof.
  intros st. destruct (save_preset_blank_name st) as (Hblank & _).
  destruct Hblank as (Herr & Hsame & _).
  - repeat constructor.
  - split; [exact Herr|exact Hsame].
Defined.

Lemma delete_preset_lookup_witness :
  let st := MkEditorState 7 [5%Z] [MkPreset [98; 32; 99]%N 1 []; MkPreset [97]%N 2 [3%Z]]
                          []%N false None in
  findPreset [97]%N (presets (handleDeletePreset [97]%N st)) = None
  ∧ findPreset [98; 32; 99]%N (presets (handleDeletePreset [97]%N st))
    = Some (MkPreset [98; 32; 99]%N 1 []).
Proof.
  intros st. destruct (delete_preset_lookup st [97]%N) as (Hgone & Hkept & _).
  split; [exact Hgone|]. rewrite Hkept; [reflexivity|discriminate].
Defined.

Lemma save_preset_lookup_witness :
  let st := MkEditorState 7 [5%Z] [MkPreset [98; 32; 99]%N 1 []; MkPreset [97]%N 2 [3%Z]]
                          [32; 97; 9]%N true None in
  findPreset [97]%N (presets (handleSavePreset st)) = Some (MkPreset [97]%N 7 [5%Z])
  ∧ length (presets (handleSavePreset st)) = 2.
Proof.
  intros st.
  destruct (save_preset_lookup st) as (Hfind & _ & _ & _ & Hlen).
  - intros Hblank. apply Forall_cons in Hblank as [_ Hblank].
    apply Forall_cons in Hblank as [Hblank _]. vm_compute in Hblank. congruence.
  - split; [exact Hfind|exact Hlen].
Defined.

(** ** Panning the original image *)

Lemma exact_max_cases (a b : Qc) :
  (exact_max a b = b ∧ (a < b)%Qc) ∨ (exact_max a b = a ∧ (b <= a)%Qc).
Proof.
  unfold exact_max. destruct (Exact.ltb a b) eqn:Hlt.
  - left. split; [done|]. by apply exact_ltb_lt.
  - right. split; [done|]. by apply exact_ltb_ge.
Qed.

Lemma clampPan_range (image viewport next : Qc) :
  (- exact_max 0 (image - viewport) <= clampPan image viewport next)%Qc
  ∧ (clampPan image viewport next <= 0)%Qc.
Proof.
  unfold clampPan. set (m := exact_max 0 (image - viewport)).
  assert (0 <= m)%Qc as Hm.
  { subst m. destruct (exact_max_cases 0 (image - viewport)) as [[-> H]|[-> H]];
      [by apply Qclt_le_weak|apply Qcle_refl]. }
  destruct (exact_min_cases 0 next) as [[Hmin H]|[Hmin H]];
    destruct (exact_max_cases (- m) (Exact.min 0 next)) as [[-> H']|[-> H']];
    rewrite ?Hmin in *; to_Q; lra.
Qed.

Lemma clampPan_inside (image viewport next : Qc) :
  (- exact_max 0 (image - viewport) <= next)%Qc → (next <= 0)%Qc →
  clampPan image viewport next = next.
Proof.
  unfold clampPan. set (m := exact_max 0 (image - viewport)). intros Hlo Hhi.
  destruct (exact_min_cases 0 next) as [[Hmin H]|[Hmin H]]; rewrite Hmin.
  - assert (next = 0%Qc) as -> by (apply Qcle_antisym; done).
    destruct (exact_max_cases (- m) 0) as [[-> H']|[-> H']]; [done|].
    by apply Qcle_antisym.
  - destruct (exact_max_cases (- m) next) as [[-> H']|[-> H']]; [done|].
    by apply Qcle_antisym.
Qed.

Lemma clampPan_fits (image viewport next : Qc) :
  (image <= viewport)%Qc → clampPan image viewport next = 0%Qc.
Proof.
  intros Hfit. pose proof (clampPan_range image viewport next) as [Hlo Hhi].
  destruct (exact_max_cases 0 (image - viewport)) as [[Hm H]|[Hm H]].
  - exfalso. unfold Qcminus in H. to_Q. lra.
  - rewrite Hm in Hlo. apply Qcle_antisym; [done|]. exact Hlo.
Qed.





(** ** The neon silhouette *)

Lemma exact_of_nat_inj (a b : nat) :
  of_Z (num := Qc) (Z.of_nat a) = of_Z (Z.of_nat b) → a = b.
Proof.
  intros Heq. change (Exact.of_Z (Z.of_nat a) = Exact.of_Z (Z.of_nat b)) in Heq.
  apply (f_equal this) in Heq. rewrite !this_of_Z in Heq.
  apply (f_equal Qnum) in Heq. cbn in Heq. lia.
Qed.

Lemma elem_of_neon_dots (data : list Z) (w h : nat) (threshold : Qc) (dotSize : nat)
    (invert : bool) (d : glowDraw Qc) :
  d ∈ (y ← blockStarts h dotSize; x ← blockStarts w dotSize;
       neonDot data w threshold dotSize invert y x) ↔
  ∃ x y, x ∈ blockStarts w dotSize ∧ y ∈ blockStarts h dotSize ∧
         isTarget data w threshold invert y x = true ∧ d = neonDotAt dotSize x y.
Proof.
  rewrite list_elem_of_bind. split.
  - intros (y & (x & Hd & Hx)%list_elem_of_bind & Hy). unfold neonDot in Hd.
    destruct (isTarget data w threshold invert y x) eqn:Ht; [|by apply elem_of_nil in Hd].
    apply list_elem_of_singleton in Hd. by exists x, y.
  - intros (x & y & Hx & Hy & Ht & ->). exists y. split; [|done].
    apply list_elem_of_bind. exists x. split; [|done].
    unfold neonDot. rewrite Ht. apply list_elem_of_here.
Qed.

Lemma neonDotAt_inj (dotSize x y x' y' : nat) :
  neonDotAt (num := Qc) dotSize x y = neonDotAt dotSize x' y' → x = x' ∧ y = y'.
Proof.
  unfold neonDotAt. intros Heq.
  pose proof (f_equal (λ d, match d with GlowArc _ _ _ c _ _ => c | _ => of_Z 0 end) Heq) as Hx.
  pose proof (f_equal (λ d, match d with GlowArc _ _ _ _ c _ => c | _ => of_Z 0 end) Heq) as Hy.
  cbv beta iota in Hx, Hy. split; by apply exact_of_nat_inj.
Qed.


